(** * AI Image Expander: canvas geometry, Drive session and Drive navigation

    A shallow embedding of the logic of the application:

    - [Constants]   the aspect-ratio table                 (constants.ts)
    - [Compositor]  canvas sizing and contain-fit placement (App.tsx,
                    [handleGenerateClick], steps 1 to 4)
    - [Binary64]    the same arithmetic on IEEE-754 doubles
    - [Auth]        the OAuth token cache                  (googleDriveAuth.ts)
    - [Drive]       entry classification and [listFiles]   (googleDriveService.ts)
    - [Browser]     the folder browser's state and handlers
                    (components/GoogleDriveBrowser.tsx)
    - [FileUtils], [Gemini], [DriveCalls], [BrowserView], [FormatSize], [App]
                    the remaining functions of these files: data URLs,
                    [expandImage], the other Drive calls, rendering and
                    authentication of the browser, and the application state

    JavaScript numbers are binary64 doubles.  [Binary64] evaluates the
    compositor on the kernel's binary64 floats, which is the arithmetic the
    browser runs, and [Binary64Rounding] derives from the specification of
    these floats how far each operation can be from the exact result.
    [Compositor] sizes the canvas in exact arithmetic, which gives the very
    same canvas on the aspect-ratio table
    ([Binary64Facts.table_canvases_agree]); its [place] is the placement
    formulas read in exact arithmetic, the values the doubles approximate. *)

From Stdlib Require Import ZArith QArith Qround Qminmax Qabs Qpower.
From Stdlib Require Import List String Ascii Bool Lia Lqa.
From Stdlib Require Import Floats.
Import ListNotations.

(* ================================================================== *)
(** ** constants.ts *)

Module Constants.

Local Open Scope string_scope.

(** [interface AspectRatio { label: string; value: "1:1" | ... }] *)
Record AspectRatio : Type := mkAspectRatio {
  label : string;
  value : string
}.

Definition ASPECT_RATIOS : list AspectRatio :=
  [ mkAspectRatio "Square (1:1)" "1:1";
    mkAspectRatio "Landscape (16:9)" "16:9";
    mkAspectRatio "Portrait (9:16)" "9:16";
    mkAspectRatio "Standard (4:3)" "4:3";
    mkAspectRatio "Classic Portrait (3:4)" "3:4" ].

End Constants.

(* ================================================================== *)
(** ** The few pieces of the JavaScript runtime the code relies on *)

Module Js.

(** [s.split(sep)] for a one-character separator: the pieces between
    consecutive separators, in order; a string without separator is returned
    as a single piece. *)
Fixpoint split_from (sep : ascii) (acc : string) (s : string) : list string :=
  match s with
  | EmptyString => [acc]
  | String c rest =>
      if Ascii.eqb c sep
      then acc :: split_from sep EmptyString rest
      else split_from sep (acc ++ String c EmptyString)%string rest
  end.

Definition split (sep : ascii) (s : string) : list string :=
  split_from sep EmptyString s.

Definition digit (c : ascii) : option Z :=
  let n := Z.of_nat (nat_of_ascii c) in
  if ((48 <=? n) && (n <=? 57))%Z then Some (n - 48)%Z else None.

Fixpoint digits_from (acc : Z) (s : string) : option Z :=
  match s with
  | EmptyString => Some acc
  | String c rest =>
      match digit c with
      | Some d => digits_from (10 * acc + d)%Z rest
      | None => None
      end
  end.

(** [Number(s)] on the strings the aspect-ratio table contains: a run of
    decimal digits denotes its value and the empty string denotes 0.  Every
    other string is outside this model ([None]); the union type of
    [AspectRatio.value] admits none. *)
Definition Number (s : string) : option Z := digits_from 0 s.

(** [Math.round]: the integer nearest to [x], a tie going to the larger one. *)
Definition Math_round (x : Q) : Z := Qfloor (x + (1 # 2)).

(** [Math.min] on two finite numbers. *)
Definition Math_min (a b : Q) : Q := Qmin a b.

(** [s.startsWith(p)] *)
Definition startsWith (s p : string) : bool := String.prefix p s.

(** Truthiness of a [string | null] and of a [number | null] value. *)
Definition truthy_string (v : option string) : bool :=
  match v with
  | Some s => negb (String.eqb s EmptyString)
  | None => false
  end.

Definition truthy_number (v : option Z) : bool :=
  match v with
  | Some n => negb (n =? 0)%Z
  | None => false
  end.

End Js.

(* ================================================================== *)
(** ** App.tsx, [handleGenerateClick]: the image geometry compositor *)

Module Compositor.

Import Constants.

Local Open Scope Q_scope.

(** The two attributes of the canvas element the handler assigns. *)
Record Canvas : Type := mkCanvas {
  width : Z;
  height : Z
}.

(** [const [targetW, targetH] = aspectRatio.value.split(':').map(Number)];
    [None] when a term is missing or is not a number of the model. *)
Definition targetTerms (a : AspectRatio) : option (Z * Z) :=
  match map Js.Number (Js.split ":"%char (value a)) with
  | Some targetW :: Some targetH :: _ => Some (targetW, targetH)
  | _ => None
  end.

Definition MAX_DIMENSION : Z := 1024.

(** Step 1, "Set canvas dimensions based on aspect ratio", with the bound as a
    parameter (the handler fixes it to [MAX_DIMENSION]). *)
Definition canvasFor (maxDimension targetW targetH : Z) : Canvas :=
  if (targetW >=? targetH)%Z
  then mkCanvas maxDimension
         (Js.Math_round (inject_Z (maxDimension * targetH) / inject_Z targetW))
  else mkCanvas
         (Js.Math_round (inject_Z (maxDimension * targetW) / inject_Z targetH))
         maxDimension.

(** Steps 3 and 4 read in exact arithmetic: the values the formulas of
    [ctx.drawImage(img, x, y, scaledWidth, scaledHeight)] denote.  The browser
    computes them on doubles, which is [Binary64.place]; the two differ by
    rounding. *)
Record Placement : Type := mkPlacement {
  ratio : Q;
  scaledWidth : Q;
  scaledHeight : Q;
  x : Q;
  y : Q
}.

Definition place (canvas : Canvas) (imgWidth imgHeight : Z) : Placement :=
  let hRatio := inject_Z (width canvas) / inject_Z imgWidth in
  let vRatio := inject_Z (height canvas) / inject_Z imgHeight in
  let ratio := Js.Math_min hRatio vRatio in
  let scaledWidth := inject_Z imgWidth * ratio in
  let scaledHeight := inject_Z imgHeight * ratio in
  mkPlacement ratio scaledWidth scaledHeight
    ((inject_Z (width canvas) - scaledWidth) / 2)
    ((inject_Z (height canvas) - scaledHeight) / 2).

(** The geometry of one click on "generate": canvas and placement for the
    selected aspect ratio and the natural size of the loaded image. *)
Definition compose (a : AspectRatio) (imgWidth imgHeight : Z)
  : option (Canvas * Placement) :=
  match targetTerms a with
  | Some (targetW, targetH) =>
      let canvas := canvasFor MAX_DIMENSION targetW targetH in
      Some (canvas, place canvas imgWidth imgHeight)
  | None => None
  end.

End Compositor.

(* ================================================================== *)
(** ** The compositor on IEEE-754 binary64, the arithmetic of the browser *)

Module Binary64.

Import Constants.

(** An integer as a number value; exact below 2^53. *)
Definition of_int (n : Z) : float := PrimFloat.of_uint63 (Uint63.of_Z n).

(** [Math.round] on a double: floor (x + 1/2) computed on the exact value of
    the double; [None] for NaN and the infinities. *)
Definition Math_round (v : float) : option Z :=
  match Prim2SF v with
  | S754_zero _ => Some 0%Z
  | S754_finite s m e =>
      let n := if s then Z.neg m else Z.pos m in
      Some (if (0 <=? e)%Z
            then (n * 2 ^ e)%Z
            else ((2 * n + 2 ^ (- e)) / 2 ^ (- e + 1))%Z)
  | S754_infinity _ | S754_nan => None
  end.

(** [Math.min] on two doubles (zeros of opposite sign are not told apart). *)
Definition Math_min (a b : float) : float :=
  if PrimFloat.is_nan a || PrimFloat.is_nan b then PrimFloat.nan
  else if PrimFloat.ltb b a then b else a.

Definition MAX_DIMENSION : float := of_int Compositor.MAX_DIMENSION.

(** The sizing step.  The canvas attributes hold integers; both numbers
    assigned to them are integral already, [Math_round] reads them off. *)
Definition canvasFor (maxDimension targetW targetH : float)
  : option Compositor.Canvas :=
  if PrimFloat.leb targetH targetW
  then match Math_round (PrimFloat.div (PrimFloat.mul maxDimension targetH) targetW),
             Math_round maxDimension with
       | Some h, Some w => Some (Compositor.mkCanvas w h)
       | _, _ => None
       end
  else match Math_round (PrimFloat.div (PrimFloat.mul maxDimension targetW) targetH),
             Math_round maxDimension with
       | Some w, Some h => Some (Compositor.mkCanvas w h)
       | _, _ => None
       end.

(** Steps 3 and 4, "Calculate dimensions to fit image inside canvas" and
    "Draw the original image onto the center": the numbers handed to
    [ctx.drawImage(img, x, y, scaledWidth, scaledHeight)]. *)
Record Placement : Type := mkPlacement {
  ratio : float;
  scaledWidth : float;
  scaledHeight : float;
  x : float;
  y : float
}.

Definition place (canvas : Compositor.Canvas) (imgWidth imgHeight : Z)
  : Placement :=
  let cw := of_int (Compositor.width canvas) in
  let ch := of_int (Compositor.height canvas) in
  let hRatio := PrimFloat.div cw (of_int imgWidth) in
  let vRatio := PrimFloat.div ch (of_int imgHeight) in
  let ratio := Math_min hRatio vRatio in
  let scaledWidth := PrimFloat.mul (of_int imgWidth) ratio in
  let scaledHeight := PrimFloat.mul (of_int imgHeight) ratio in
  mkPlacement ratio scaledWidth scaledHeight
    (PrimFloat.div (PrimFloat.sub cw scaledWidth) (of_int 2))
    (PrimFloat.div (PrimFloat.sub ch scaledHeight) (of_int 2)).

Definition compose (a : AspectRatio) (imgWidth imgHeight : Z)
  : option (Compositor.Canvas * Placement) :=
  match Compositor.targetTerms a with
  | Some (targetW, targetH) =>
      match canvasFor MAX_DIMENSION (of_int targetW) (of_int targetH) with
      | Some canvas => Some (canvas, place canvas imgWidth imgHeight)
      | None => None
      end
  | None => None
  end.

(** Two placements hold the same doubles. *)
Definition same (p q : Placement) : bool :=
  PrimFloat.eqb (ratio p) (ratio q)
  && PrimFloat.eqb (scaledWidth p) (scaledWidth q)
  && PrimFloat.eqb (scaledHeight p) (scaledHeight q)
  && PrimFloat.eqb (x p) (x q)
  && PrimFloat.eqb (y p) (y q).

(** The number a finite double stands for, as a rational. *)
Definition exact (v : float) : option Q :=
  match Prim2SF v with
  | S754_zero _ => Some 0%Q
  | S754_finite s m e =>
      let n := if s then Z.neg m else Z.pos m in
      Some (if (0 <=? e)%Z
            then inject_Z (n * 2 ^ e)
            else Qmake n (Z.to_pos (2 ^ (- e))))
  | S754_infinity _ | S754_nan => None
  end.

(** The bounding box of the scaled image, [x, x + scaledWidth] by
    [y, y + scaledHeight], lies within the canvas enlarged on every side by
    the fraction [tol] of its width or height; the four doubles are compared
    by the numbers they stand for, without further rounding. *)
Definition insideWithin (tol : Q) (canvas : Compositor.Canvas) (p : Placement)
  : bool :=
  match exact (x p), exact (y p), exact (scaledWidth p), exact (scaledHeight p) with
  | Some px, Some py, Some w, Some h =>
      let cw := inject_Z (Compositor.width canvas) in
      let ch := inject_Z (Compositor.height canvas) in
      Qle_bool (- (cw * tol)) px
      && Qle_bool (px + w) (cw * (1 + tol))
      && Qle_bool (- (ch * tol)) py
      && Qle_bool (py + h) (ch * (1 + tol))
  | _, _, _, _ => false
  end.

(** The bounding box lies within the canvas itself. *)
Definition inside (canvas : Compositor.Canvas) (p : Placement) : bool :=
  insideWithin 0 canvas p.

(** The tolerance of the fit: one part in 2^50. *)
Definition tolerance : Q := 1 # 1125899906842624.

(** Powers of two, and the number a mantissa [m] with exponent [e] stands
    for. *)
Definition Q2 (e : Z) : Q := 2 ^ e.

Definition val (m : positive) (e : Z) : Q := inject_Z (Zpos m) * Q2 e.

(** One part in 2^52.  Two positive numbers are [close] when each is within
    that of the other, as are a number and the double nearest to it. *)
Definition u52 : Q := 1 # (2 ^ 52).

Definition close (V v : Q) : Prop :=
  V <= v * (1 + u52) /\ v <= V * (1 + u52).

(** A positive normal double standing for the number [v], with its exponent
    between [lo] and [hi]. *)
Definition stands (f : float) (v : Q) (lo hi : Z) : Prop :=
  exists m e,
    Prim2SF f = S754_finite false m e
    /\ Zpos (digits2_pos m) = 53%Z
    /\ (lo <= e <= hi)%Z
    /\ val m e == v.

(** The aspect ratio 16:9 of the table. *)
Definition landscape : AspectRatio := mkAspectRatio "Landscape (16:9)" "16:9".

End Binary64.

(* ================================================================== *)
(** ** Promises *)

(** How an awaited promise ends: fulfilled with a value, rejected with a
    thrown value, or never settled. *)
Inductive Thrown : Type :=
| ErrorObject (message : string)   (* [new Error(message)] and its subclasses *)
| OtherValue.                      (* anything that is not an [Error] *)

Inductive Outcome (A : Type) : Type :=
| Resolved (a : A)
| Rejected (e : Thrown)
| Pending.

Arguments Resolved {A} a.
Arguments Rejected {A} e.
Arguments Pending {A}.

(* ================================================================== *)
(** ** services/googleDriveAuth.ts: the Drive session *)

Module Auth.

Local Open Scope Z_scope.

(** The callback installed on the token client: the one [initialize] passes to
    [initTokenClient], or the one [requestAccessToken] assigns for its own
    promise. *)
Inductive Callback : Type :=
| InitializeCallback
| RequestCallback.

(** The private fields of [GoogleDriveAuthService].  Instants are
    milliseconds since the epoch, as [Date.now()] counts them. *)
Record State : Type := mkState {
  accessToken : option string;
  tokenExpiry : option Z;
  tokenClient : option Callback
}.

Definition fresh : State := mkState None None None.

(** What the service finds around it: the configured client id, whether the
    Google Identity Services script is loaded, and what [initTokenClient]
    throws, if it throws. *)
Record Env : Type := mkEnv {
  CLIENT_ID : string;
  gisLoaded : bool;
  initTokenClientThrows : option Thrown
}.

(** The provider's answer to one token request ([GoogleAuthResponse], with the
    [error] member the callbacks test). *)
Record TokenResponse : Type := mkTokenResponse {
  error : option string;
  access_token : string;
  expires_in : Z
}.

(** The answer to a consent prompt: none ever, or a response delivered to the
    callback at the instant [Date.now()] then reads. *)
Definition Answer : Type := option (Z * TokenResponse).

(** What a method does besides changing the fields. *)
Inductive Event : Type :=
| ConsentPrompt                                (* [tokenClient.requestAccessToken] *)
| TokenIssued (token : string) (expiry : Z).   (* a callback stored a new token *)

Definition Result (A : Type) : Type := (Outcome A * State * list Event)%type.

(** [initialize()] *)
Definition initialize (env : Env) (st : State) : Result unit :=
  if String.eqb (CLIENT_ID env) EmptyString
  then (Rejected (ErrorObject "Google Client ID is not configured"), st, [])
  else if negb (gisLoaded env)
  then (Rejected (ErrorObject "Google Identity Services not loaded"), st, [])
  else match initTokenClientThrows env with
       | Some e => (Rejected e, st, [])
       | None =>
           (Resolved tt,
            mkState (accessToken st) (tokenExpiry st) (Some InitializeCallback),
            [])
       end.

(** The body of the callback of [requestAccessToken], run when the provider
    answers. *)
Definition onTokenResponse (st : State) (at_ : Z) (response : TokenResponse)
  : Result string :=
  if Js.truthy_string (error response)
  then (Rejected (ErrorObject (match error response with
                               | Some e => e
                               | None => EmptyString
                               end)), st, [])
  else
    let expiry := at_ + expires_in response * 1000 in
    (Resolved (access_token response),
     mkState (Some (access_token response)) (Some expiry) (tokenClient st),
     [TokenIssued (access_token response) expiry]).

(** [requestAccessToken()] *)
Definition requestAccessToken (env : Env) (st : State) (answer : Answer)
  : Result string :=
  let '(ready, st1, _) :=
    match tokenClient st with
    | None => initialize env st
    | Some _ => (Resolved tt, st, [])
    end in
  match ready with
  | Rejected e => (Rejected e, st1, [])
  | Pending => (Pending, st1, [])
  | Resolved _ =>
      match tokenClient st1 with
      | None => (Rejected (ErrorObject "Token client not initialized"), st1, [])
      | Some _ =>
          let st2 :=
            mkState (accessToken st1) (tokenExpiry st1) (Some RequestCallback) in
          match answer with
          | None => (Pending, st2, [ConsentPrompt])
          | Some (at_, response) =>
              let '(out, st3, evs) := onTokenResponse st2 at_ response in
              (out, st3, ConsentPrompt :: evs)
          end
      end
  end.

(** The test shared by [getAccessToken] and [isAuthenticated]:
    [this.accessToken && this.tokenExpiry && Date.now() < this.tokenExpiry] *)
Definition cacheUsable (st : State) (now : Z) : bool :=
  Js.truthy_string (accessToken st)
  && Js.truthy_number (tokenExpiry st)
  && match tokenExpiry st with
     | Some expiry => now <? expiry
     | None => false
     end.

(** [getAccessToken()], called when [Date.now()] reads [now]. *)
Definition getAccessToken (env : Env) (st : State) (now : Z) (answer : Answer)
  : Result string :=
  if cacheUsable st now
  then match accessToken st with
       | Some token => (Resolved token, st, [])
       | None => requestAccessToken env st answer
       end
  else requestAccessToken env st answer.

(** [isAuthenticated()] *)
Definition isAuthenticated (st : State) (now : Z) : bool := cacheUsable st now.

(** [signOut()] *)
Definition signOut (st : State) : State := mkState None None (tokenClient st).

(** One call on the service, with what its environment supplies.  Calls are
    taken one at a time: the answer to a consent prompt reaches the callback
    before the next call starts. *)
Inductive Op : Type :=
| CallInitialize
| CallRequestAccessToken (answer : Answer)
| CallGetAccessToken (now : Z) (answer : Answer)
| CallIsAuthenticated (now : Z)
| CallSignOut.

Definition exec (env : Env) (st : State) (op : Op) : State * list Event :=
  match op with
  | CallInitialize => let '(_, st', evs) := initialize env st in (st', evs)
  | CallRequestAccessToken answer =>
      let '(_, st', evs) := requestAccessToken env st answer in (st', evs)
  | CallGetAccessToken now answer =>
      let '(_, st', evs) := getAccessToken env st now answer in (st', evs)
  | CallIsAuthenticated _ => (st, [])
  | CallSignOut => (signOut st, [])
  end.

Fixpoint execAll (env : Env) (st : State) (ops : list Op)
  : State * list Event :=
  match ops with
  | [] => (st, [])
  | op :: rest =>
      let '(st1, evs1) := exec env st op in
      let '(st2, evs2) := execAll env st1 rest in
      (st2, evs1 ++ evs2)
  end.



(** The token client exists or [initialize] can create it. *)
Definition clientAvailable (env : Env) (st : State) : bool :=
  match tokenClient st with
  | Some _ => true
  | None =>
      negb (String.eqb (CLIENT_ID env) EmptyString)
      && gisLoaded env
      && match initTokenClientThrows env with
         | Some _ => false
         | None => true
         end
  end.

(** The fields once [requestAccessToken] has assigned its callback. *)
Definition awaitingAnswer (st : State) : State :=
  mkState (accessToken st) (tokenExpiry st) (Some RequestCallback).

(** The session invariant of the data model in the spec's words: the token is
    valid iff it is present and [now] is before the expiry instant. *)
Definition tokenValid (st : State) (now : Z) : Prop :=
  exists token expiry,
    accessToken st = Some token /\ token <> EmptyString /\
    tokenExpiry st = Some expiry /\ now < expiry.

(** A sample session: a configured client, a provider that answers the first
    prompt at 2 s with a one-hour token, and the fields after that answer. *)
Definition demoEnv : Env := mkEnv "client-id" true None.
Definition demoAnswer : Answer :=
  Some (2000, mkTokenResponse None "ya29.token" 3600).
Definition demoSession : State :=
  mkState (Some "ya29.token"%string) (Some 3602000) (Some RequestCallback).


End Auth.

(* ================================================================== *)
(** ** services/googleDriveService.ts: Drive entries and listings *)

Module Drive.

Local Open Scope string_scope.

(** [interface DriveFile] *)
Record DriveFile : Type := mkDriveFile {
  id : string;
  name : string;
  mimeType : string;
  thumbnailLink : option string;
  webViewLink : option string;
  webContentLink : option string;
  size : option string;
  modifiedTime : option string;
  iconLink : option string
}.

(** [interface DriveApiResponse], as the code reads it: [data.files || []]
    allows for a body without [files]. *)
Record DriveApiResponse : Type := mkDriveApiResponse {
  files : option (list DriveFile);
  nextPageToken : option string
}.

Definition DRIVE_API_BASE : string := "https://www.googleapis.com/drive/v3".
Definition FOLDER_MIME_TYPE : string := "application/vnd.google-apps.folder".

(** [isImageFile(file)] *)
Definition isImageFile (file : DriveFile) : bool :=
  Js.startsWith (mimeType file) "image/".

(** [isFolder(file)] *)
Definition isFolder (file : DriveFile) : bool :=
  String.eqb (mimeType file) FOLDER_MIME_TYPE.

(** The request [listFiles] hands to [fetch]. *)
Record Request : Type := mkRequest {
  endpoint : string;
  params : list (string * string);
  authorization : string
}.

(** What [response.json()] gives: the decoded body, or what it throws.  A
    body decodes to an object, of which the code reads the members [files]
    and [nextPageToken], or to [null], of which no member can be read.  (A
    body that decodes to a number, a string, a boolean or an array has
    neither member and reads as an object without them.) *)
Inductive Body : Type :=
| Json (data : DriveApiResponse)
| JsonNull
| Undecodable (e : Thrown).

(** The [TypeError] thrown by reading [member] of [null].  Its message is the
    engine's own; this is the wording of V8. *)
Definition nullMemberError (member : string) : Thrown :=
  ErrorObject ("Cannot read properties of null (reading '" ++ member ++ "')").

(** What [fetch] delivers: a response with its [ok] flag, its status text and
    its body, or a rejection. *)
Record Response : Type := mkResponse {
  ok : bool;
  statusText : string;
  json : Body
}.

Inductive Fetched : Type :=
| Responded (response : Response)
| FetchRejected (e : Thrown).

Definition Network : Type := Request -> Fetched.

(** The value [listFiles] resolves to. *)
Record Listing : Type := mkListing {
  listed : list DriveFile;
  continuation : option string
}.

Definition listParams (folderId : string) (pageToken : option string)
  : list (string * string) :=
  [ ("q", "'" ++ folderId ++ "' in parents and trashed=false");
    ("fields",
     "files(id,name,mimeType,thumbnailLink,webViewLink,webContentLink,size,modifiedTime,iconLink),nextPageToken");
    ("orderBy", "folder,name");
    ("pageSize", "100") ]
  ++ (if Js.truthy_string pageToken
      then match pageToken with
           | Some t => [("pageToken", t)]
           | None => []
           end
      else []).

(** The [fetch] call of [listFiles]: URL, query and bearer header. *)
Definition listRequest (folderId : string) (pageToken : option string)
    (accessToken : string) : Request :=
  mkRequest (DRIVE_API_BASE ++ "/files")
            (listParams folderId pageToken)
            ("Bearer " ++ accessToken).

(** [listFiles(folderId, pageToken)], run against the session [st] at the
    instant [now]. *)
Definition listFiles (env : Auth.Env) (net : Network) (st : Auth.State)
    (now : Z) (answer : Auth.Answer)
    (folderId : string) (pageToken : option string)
  : Auth.Result Listing :=
  let '(token, st', evs) := Auth.getAccessToken env st now answer in
  match token with
  | Rejected e => (Rejected e, st', evs)
  | Pending => (Pending, st', evs)
  | Resolved accessToken =>
      match net (listRequest folderId pageToken accessToken) with
      | FetchRejected e => (Rejected e, st', evs)
      | Responded response =>
          if negb (ok response)
          then (Rejected (ErrorObject
                            ("Failed to fetch files: " ++ statusText response)),
                st', evs)
          else match json response with
               | Undecodable e => (Rejected e, st', evs)
               | JsonNull => (Rejected (nullMemberError "files"), st', evs)
               | Json data =>
                   (Resolved (mkListing
                                (match files data with
                                 | Some fs => fs
                                 | None => []
                                 end)
                                (nextPageToken data)),
                    st', evs)
               end
      end
  end.

(** Sample entries: a folder, an image and a document. *)
Definition plainFile (id name mimeType : string) : DriveFile :=
  mkDriveFile id name mimeType None None None None None None.

Definition photosFolder : DriveFile := plainFile "f1" "Photos" FOLDER_MIME_TYPE.
Definition beachImage : DriveFile := plainFile "i1" "beach.png" "image/png".
Definition notesDocument : DriveFile := plainFile "d1" "notes.pdf" "application/pdf".

(** A network on which every request gets an HTTP-ok answer, and a provider
    answer that denies consent. *)
Definition alwaysOk : Network :=
  fun _ => Responded (mkResponse true "OK"
                        (Json (mkDriveApiResponse (Some [beachImage]) None))).

Definition consentDenied : Auth.Answer :=
  Some (2000%Z, Auth.mkTokenResponse (Some "access_denied") "" 0%Z).

(** An HTTP-ok answer whose body has no [files] member, and one whose body
    is [null]. *)
Definition bodyWithoutFiles : Response :=
  mkResponse true "OK" (Json (mkDriveApiResponse None (Some "page-2"))).

Definition nullBody : Response := mkResponse true "OK" JsonNull.

End Drive.

(* ================================================================== *)
(** ** components/GoogleDriveBrowser.tsx: the folder browser *)

Module Browser.

Import Drive.

Local Open Scope string_scope.

(** [interface BreadcrumbItem] *)
Record BreadcrumbItem : Type := mkBreadcrumbItem {
  item_id : string;
  item_name : string
}.

(** The component's [useState] cells. *)
Record State : Type := mkState {
  files : list DriveFile;
  currentFolderId : string;
  breadcrumb : list BreadcrumbItem;
  loading : bool;
  error : option string;
  isAuthenticated : bool
}.

(** The browser as a whole: the rendered state and the [listFiles] calls that
    have been issued by [loadFiles] and have not settled yet, oldest first,
    each with the folder it asked for. *)
Record Session : Type := mkSession {
  ui : State;
  inFlight : list string
}.

Definition rootItem : BreadcrumbItem := mkBreadcrumbItem "root" "My Drive".

(** The initial values of the [useState] cells. *)
Definition initial : Session :=
  mkSession (mkState [] "root" [rootItem] false None false) [].

(** What a handler does to the outside. *)
Inductive Effect : Type :=
| ListFilesCalled (folderId : string)   (* [googleDriveService.listFiles] *)
| FileSelected (file : DriveFile)       (* the [onSelectFile] prop *)
| Threw.                                (* an uncaught [TypeError] *)

(** How a [listFiles] promise settles. *)
Inductive Settled : Type :=
| Fulfilled (listing : Listing)
| Failed (e : Thrown).

Definition setFiles (v : list DriveFile) (s : State) : State :=
  mkState v (currentFolderId s) (breadcrumb s) (loading s) (error s)
          (isAuthenticated s).
Definition setCurrentFolderId (v : string) (s : State) : State :=
  mkState (files s) v (breadcrumb s) (loading s) (error s) (isAuthenticated s).
Definition setBreadcrumb (v : list BreadcrumbItem) (s : State) : State :=
  mkState (files s) (currentFolderId s) v (loading s) (error s)
          (isAuthenticated s).
Definition setLoading (v : bool) (s : State) : State :=
  mkState (files s) (currentFolderId s) (breadcrumb s) v (error s)
          (isAuthenticated s).
Definition setError (v : option string) (s : State) : State :=
  mkState (files s) (currentFolderId s) (breadcrumb s) (loading s) v
          (isAuthenticated s).

(** [loadFiles(folderId)] up to its [await]: the two setters, then the call. *)
Definition loadFiles (folderId : string) (s : Session)
  : Session * list Effect :=
  (mkSession (setError None (setLoading true (ui s)))
             (inFlight s ++ [folderId])%list,
   [ListFilesCalled folderId]).

(** [err instanceof Error ? err.message : 'Failed to load files'] *)
Definition loadErrorMessage (e : Thrown) : string :=
  match e with
  | ErrorObject message => message
  | OtherValue => "Failed to load files"
  end.

(** [loadFiles] from its [await] on: the [try] continuation or the [catch]
    block, then [finally]. *)
Definition loadFilesSettled (r : Settled) (s : State) : State :=
  setLoading false
    (match r with
     | Fulfilled listing => setFiles (listed listing) s
     | Failed e => setError (Some (loadErrorMessage e)) s
     end).

(** [handleFolderClick(folder)] *)
Definition handleFolderClick (folder : DriveFile) (s : Session)
  : Session * list Effect :=
  let s1 := setCurrentFolderId (id folder) (ui s) in
  let s2 :=
    setBreadcrumb (breadcrumb (ui s) ++ [mkBreadcrumbItem (id folder) (name folder)])%list
                  s1 in
  loadFiles (id folder) (mkSession s2 (inFlight s)).

(** [handleBreadcrumbClick(index)]; [index] is a position of the rendered
    breadcrumb ([breadcrumb.map((item, index) => ...)]).  With nothing left
    after the slice, [targetFolder] is [undefined] and reading its [id]
    throws, after [setBreadcrumb] has run. *)
Definition handleBreadcrumbClick (index : nat) (s : Session)
  : Session * list Effect :=
  let newBreadcrumb := firstn (index + 1) (breadcrumb (ui s)) in
  match nth_error newBreadcrumb (List.length newBreadcrumb - 1) with
  | Some targetFolder =>
      let s1 := setBreadcrumb newBreadcrumb (ui s) in
      let s2 := setCurrentFolderId (item_id targetFolder) s1 in
      loadFiles (item_id targetFolder) (mkSession s2 (inFlight s))
  | None =>
      (mkSession (setBreadcrumb newBreadcrumb (ui s)) (inFlight s), [Threw])
  end.

(** [handleFileClick(file)] *)
Definition handleFileClick (file : DriveFile) (s : Session)
  : Session * list Effect :=
  if isFolder file then handleFolderClick file s
  else if isImageFile file then (s, [FileSelected file])
  else (s, []).

Fixpoint removeAt {A : Type} (k : nat) (l : list A) : list A :=
  match k, l with
  | _, [] => []
  | O, _ :: rest => rest
  | S k', a :: rest => a :: removeAt k' rest
  end.

(** What happens to the browser, one event at a time: a call of [loadFiles]
    from the authentication flow or the effect hook, a click, or the
    settlement of the [k]-th call in flight (in any order). *)
Inductive Event : Type :=
| Load (folderId : string)
| FolderClick (folder : DriveFile)
| BreadcrumbClick (index : nat)
| FileClick (file : DriveFile)
| Settle (k : nat) (r : Settled).

Definition step (s : Session) (e : Event) : Session * list Effect :=
  match e with
  | Load folderId => loadFiles folderId s
  | FolderClick folder => handleFolderClick folder s
  | BreadcrumbClick index => handleBreadcrumbClick index s
  | FileClick file => handleFileClick file s
  | Settle k r =>
      match nth_error (inFlight s) k with
      | Some _ =>
          (mkSession (loadFilesSettled r (ui s)) (removeAt k (inFlight s)), [])
      | None => (s, [])
      end
  end.

Fixpoint run (s : Session) (events : list Event) : Session :=
  match events with
  | [] => s
  | e :: rest => run (fst (step s e)) rest
  end.

(** The spec's two navigation actions, by the handlers that implement them. *)
Inductive Navigation : Type :=
| enterFolder (entry : DriveFile)
| jumpToBreadcrumb (index : nat).

Definition navigationEvent (a : Navigation) : Event :=
  match a with
  | enterFolder entry => FolderClick entry
  | jumpToBreadcrumb index => BreadcrumbClick index
  end.

(** The navigation state of the data model: breadcrumb path and current
    folder. *)
Definition navigationState (s : Session) : list BreadcrumbItem * string :=
  (breadcrumb (ui s), currentFolderId (ui s)).

(** The navigation state a navigation action asks for: the path extended by
    the entry, or cut after the chosen position, and the folder at its end. *)
Definition navigated (a : Navigation) (s : Session)
  : list BreadcrumbItem * string :=
  match a with
  | enterFolder entry =>
      ((breadcrumb (ui s) ++ [mkBreadcrumbItem (id entry) (name entry)])%list,
       id entry)
  | jumpToBreadcrumb index =>
      let path := firstn (index + 1) (breadcrumb (ui s)) in
      (path,
       match nth_error path (List.length path - 1) with
       | Some target => item_id target
       | None => currentFolderId (ui s)
       end)
  end.

(** The navigation invariant of the data model. *)
Definition navigationInvariant (s : Session) : Prop :=
  breadcrumb (ui s) <> []
  /\ hd_error (breadcrumb (ui s)) = Some rootItem
  /\ option_map item_id (nth_error (breadcrumb (ui s))
                                   (List.length (breadcrumb (ui s)) - 1))
     = Some (currentFolderId (ui s)).

(** The displayed list is the listing of the current folder, on a Drive that
    answers a listing of folder [f] with [served f]. *)
Definition displaysCurrentFolder (served : string -> Settled) (s : Session)
  : Prop :=
  exists listing,
    served (currentFolderId (ui s)) = Fulfilled listing
    /\ files (ui s) = listed listing.

(** A sample Drive: the root holds the folder Photos and a document, Photos
    holds one image; and listings that fail. *)
Definition sampleDrive (folderId : string) : Settled :=
  if String.eqb folderId "root"
  then Fulfilled (mkListing [photosFolder; notesDocument] None)
  else if String.eqb folderId "f1"
  then Fulfilled (mkListing [beachImage] None)
  else Failed (ErrorObject "Failed to fetch files: Not Found").

Definition forbidden : Settled :=
  Failed (ErrorObject "Failed to fetch files: Forbidden").

(** The browser once the first listing of the root has arrived. *)
Definition rootShown : Session :=
  run initial [Load "root"; Settle 0 (sampleDrive "root")].

(** The browser once the user has gone into Photos and its listing has
    arrived: the image [beach.png] is on display. *)
Definition photosShown : Session :=
  run rootShown [FileClick photosFolder; Settle 0 (sampleDrive "f1")].

End Browser.

(* ================================================================== *)
(** ** utils/fileUtils.ts and the data URLs of App.tsx *)

Module FileUtils.

Local Open Scope string_scope.

(** A request or response part of the generative API, as far as the code
    reads or writes it. *)
Record InlineData : Type := mkInlineData {
  data : option string;
  mimeType : string
}.

Record Part : Type := mkPart {
  inlineData : option InlineData;
  text : option string
}.

(** [url.split(',')[1]]: what follows the first comma, up to the next one;
    [None] ([undefined]) for a string without comma. *)
Definition afterComma (url : string) : option string :=
  nth_error (Js.split ","%char url) 1.

(** [fileToGenerativePart(file)], given [file.type] and what [reader.result]
    holds when [onloadend] fires: a data URL, or [null] after a failed read.
    On [null] the callback throws before [resolve] is reached, and the
    promise stays pending. *)
Definition fileToGenerativePart (fileType : string) (readerResult : option string)
  : Outcome Part :=
  match readerResult with
  | Some url =>
      Resolved (mkPart (Some (mkInlineData (afterComma url) fileType)) None)
  | None => Pending
  end.

(** [`data:image/png;base64,${imageB64}`], the value [handleGenerateClick]
    stores as the generated image. *)
Definition pngDataUrl (imageB64 : string) : string :=
  "data:image/png;base64," ++ imageB64.

(** A string without comma (a base64 payload, a media type). *)
Fixpoint commaFree (s : string) : bool :=
  match s with
  | EmptyString => true
  | String c rest => negb (Ascii.eqb c ","%char) && commaFree rest
  end.

End FileUtils.

(* ================================================================== *)
(** ** services/geminiService.ts: [expandImage] *)

Module Gemini.

Import FileUtils.

Local Open Scope string_scope.

(** What [generateContent] resolved to, as [expandImage] reads it:
    [response.candidates[0].content.parts], or what reading that path
    throws when a link of it is missing. *)
Inductive GenerateResponse : Type :=
| Parts (parts : list Part)
| Unreadable (e : Thrown).

(** The loop over the parts: the data of the first part that has
    [inlineData]. *)
Fixpoint firstInlineData (parts : list Part) : option (option string) :=
  match parts with
  | [] => None
  | part :: rest =>
      match inlineData part with
      | Some inline => Some (data inline)
      | None => firstInlineData rest
      end
  end.

(** [expandImage(imageBase64, prompt)], given how the call to the model
    ends.  The value returned is [part.inlineData.data], which may be
    [undefined] ([None]). *)
Definition expandImage (answer : Outcome GenerateResponse)
  : Outcome (option string) :=
  match answer with
  | Pending => Pending
  | Rejected e => Rejected e
  | Resolved (Unreadable e) => Rejected e
  | Resolved (Parts parts) =>
      match firstInlineData parts with
      | Some d => Resolved d
      | None => Rejected (ErrorObject "No image was generated in the response.")
      end
  end.

(** The request [expandImage] sends: the image as a PNG part, then the
    prompt. *)
Definition expandRequest (imageBase64 prompt : string) : list Part :=
  [ mkPart (Some (mkInlineData (Some imageBase64) "image/png")) None;
    mkPart None (Some prompt) ].

End Gemini.

(* ================================================================== *)
(** ** services/googleDriveService.ts: the other Drive calls *)

Module DriveCalls.

Import Drive.

Local Open Scope string_scope.






(** The metadata of one file, as [getBreadcrumb] asks for it
    ([fields=id,name,mimeType,parents]). *)
Record FileMeta : Type := mkFileMeta {
  meta_id : string;
  meta_name : string;
  meta_mimeType : string;
  parents : option (list string)
}.

(** What [response.json()] gives for a metadata request: an object, [null],
    or what it throws. *)
Inductive MetaBody : Type :=
| MetaJson (file : FileMeta)
| MetaNull
| MetaUndecodable (e : Thrown).

Record MetaResponse : Type := mkMetaResponse {
  meta_ok : bool;
  meta_json : MetaBody
}.

Inductive MetaFetched : Type :=
| MetaResponded (response : MetaResponse)
| MetaFetchRejected (e : Thrown).

Definition MetaNetwork : Type := Request -> MetaFetched.

Definition parentsRequest (fileId accessToken : string) : Request :=
  mkRequest (DRIVE_API_BASE ++ "/files/" ++ fileId)
    [ ("fields", "id,name,mimeType,parents") ]
    ("Bearer " ++ accessToken).

(** The entry [getBreadcrumb] puts in front of its list. *)
Definition crumb (file : FileMeta) : DriveFile :=
  plainFile (meta_id file) (meta_name file) (meta_mimeType file).

(** The [while] loop of [getBreadcrumb], entered with [currentId] and the
    list gathered so far.  Each turn of the loop reads the clock and may get
    an answer from the provider; [schedule] lists these, one per turn, and a
    loop that needs more turns than [schedule] holds is still running
    ([Pending]). *)
Fixpoint breadcrumbLoop (env : Auth.Env) (net : MetaNetwork)
    (schedule : list (Z * Auth.Answer)) (st : Auth.State)
    (currentId : string) (breadcrumb : list DriveFile)
    (evs : list Auth.Event) {struct schedule}
  : Auth.Result (list DriveFile) :=
  if String.eqb currentId "root" then (Resolved breadcrumb, st, evs)
  else
    match schedule with
    | [] => (Pending, st, evs)
    | (now, answer) :: later =>
        let '(token, st', evs') := Auth.getAccessToken env st now answer in
        match token with
        | Rejected e => (Rejected e, st', (evs ++ evs')%list)
        | Pending => (Pending, st', (evs ++ evs')%list)
        | Resolved accessToken =>
            match net (parentsRequest currentId accessToken) with
            | MetaFetchRejected e => (Rejected e, st', (evs ++ evs')%list)
            | MetaResponded response =>
                if negb (meta_ok response)
                then (Resolved breadcrumb, st', (evs ++ evs')%list)
                else
                  match meta_json response with
                  | MetaUndecodable e => (Rejected e, st', (evs ++ evs')%list)
                  | MetaNull =>
                      (Rejected (nullMemberError "id"), st', (evs ++ evs')%list)
                  | MetaJson file =>
                      match parents file with
                      | Some (parent :: _) =>
                          breadcrumbLoop env net later st' parent
                            (crumb file :: breadcrumb) (evs ++ evs')%list
                      | Some [] | None =>
                          (Resolved (crumb file :: breadcrumb), st',
                           (evs ++ evs')%list)
                      end
                  end
            end
        end
    end.

(** The outcome of a walk, with [older] entries behind its own. *)
Definition followedBy (older : list DriveFile)
    (walk : Outcome (list DriveFile)) : Outcome (list DriveFile) :=
  match walk with
  | Resolved entries => Resolved (entries ++ older)%list
  | Rejected e => Rejected e
  | Pending => Pending
  end.

(** [getBreadcrumb(fileId)] *)
Definition getBreadcrumb (env : Auth.Env) (net : MetaNetwork)
    (schedule : list (Z * Auth.Answer)) (st : Auth.State) (fileId : string)
  : Auth.Result (list DriveFile) :=
  breadcrumbLoop env net schedule st fileId [] [].

(** A sample Drive of two levels: the file [f2] lies in the folder [f1],
    which has no parent; and a session with a valid token at 12 s. *)
Definition twoLevels : MetaNetwork :=
  fun request =>
    if String.eqb (endpoint request) (DRIVE_API_BASE ++ "/files/f2")
    then MetaResponded
           (mkMetaResponse true
              (MetaJson (mkFileMeta "f2" "beach.png" "image/png" (Some ["f1"]))))
    else if String.eqb (endpoint request) (DRIVE_API_BASE ++ "/files/f1")
    then MetaResponded
           (mkMetaResponse true
              (MetaJson (mkFileMeta "f1" "Photos" FOLDER_MIME_TYPE None)))
    else MetaResponded (mkMetaResponse false (MetaUndecodable OtherValue)).

(** How far below a parentless folder an entry of [twoLevels] lies. *)
Definition twoLevelsDepth (fileId : string) : nat :=
  if String.eqb fileId "f2" then 1 else 0.

End DriveCalls.

(* ================================================================== *)
(** ** components/GoogleDriveBrowser.tsx: rendering and authentication *)

Module BrowserView.

Import Drive Browser.

Local Open Scope string_scope.

(** [getFileIcon(file)] *)
Inductive Icon : Type :=
| FolderIcon
| PhotoIcon
| DocumentIcon.

Definition getFileIcon (file : DriveFile) : Icon :=
  if isFolder file then FolderIcon
  else if isImageFile file then PhotoIcon
  else DocumentIcon.

(** The [disabled] attribute of the button of an entry. *)
Definition entryDisabled (file : DriveFile) : bool :=
  negb (isFolder file) && negb (isImageFile file).

Definition setIsAuthenticated (v : bool) (s : State) : State :=
  mkState (files s) (currentFolderId s) (breadcrumb s) (loading s) (error s) v.

(** [err instanceof Error ? err.message : 'Authentication failed'] *)
Definition authErrorMessage (e : Thrown) : string :=
  match e with
  | ErrorObject message => message
  | OtherValue => "Authentication failed"
  end.

(** [handleAuthentication()], run against the Drive session [auth] at the
    instant [now], up to the [await] on [loadFiles('root')]; the rest of it,
    [finally], only repeats the [setLoading(false)] that [loadFiles] ends
    with.  While [getAccessToken] does not settle, the browser stays in its
    loading state. *)
Definition handleAuthentication (env : Auth.Env) (auth : Auth.State) (now : Z)
    (answer : Auth.Answer) (s : Session)
  : Session * Auth.State * list Effect :=
  let started := setError None (setLoading true (ui s)) in
  let failed (e : Thrown) :=
    setLoading false
      (setIsAuthenticated false
         (setError (Some (authErrorMessage e)) started)) in
  let '(initialized, auth1, _) := Auth.initialize env auth in
  match initialized with
  | Rejected e => (mkSession (failed e) (inFlight s), auth1, [])
  | Pending => (mkSession started (inFlight s), auth1, [])
  | Resolved _ =>
      let '(token, auth2, _) := Auth.getAccessToken env auth1 now answer in
      match token with
      | Rejected e => (mkSession (failed e) (inFlight s), auth2, [])
      | Pending => (mkSession started (inFlight s), auth2, [])
      | Resolved _ =>
          let '(s', effects) :=
            loadFiles "root"
              (mkSession (setIsAuthenticated true started) (inFlight s)) in
          (s', auth2, effects)
      end
  end.

(** The effect hook, [useEffect(..., [isOpen, isAuthenticated])]: what it
    calls when it runs, that is after the first render and after every render
    in which [isOpen] or [isAuthenticated] has changed. *)
Inductive HookCall : Type :=
| CallsHandleAuthentication
| CallsLoadFiles (folderId : string)
| CallsNothing.

Definition effectHook (isOpen : bool) (s : State) : HookCall :=
  if isOpen && negb (isAuthenticated s) then CallsHandleAuthentication
  else if isOpen && isAuthenticated s then CallsLoadFiles (currentFolderId s)
  else CallsNothing.

(** A browser that has gone into the folder Photos and whose listing then
    failed: the state in which [Retry Authentication] is offered. *)
Definition insidePhotos : Session :=
  run rootShown [FileClick photosFolder; Settle 0 forbidden].

End BrowserView.

(* ================================================================== *)
(** ** components/GoogleDriveBrowser.tsx: [formatFileSize] *)

Module FormatSize.

Local Open Scope Z_scope.

Definition digitChar (d : Z) : ascii := ascii_of_nat (Z.to_nat (48 + d)).

Fixpoint decimalFrom (fuel : nat) (n : Z) (acc : string) : string :=
  match fuel with
  | O => acc
  | S fuel' =>
      let acc' := String (digitChar (n mod 10)) acc in
      if n <? 10 then acc' else decimalFrom fuel' (n / 10) acc'
  end.

(** The decimal numeral of a non-negative integer, as string conversion
    writes it (a number of [log2 n + 1] digits at most). *)
Definition decimal (n : Z) : string :=
  decimalFrom (S (Z.to_nat (Z.log2 n))) n EmptyString.

(** [parseInt(s)] on a numeral: a non-empty run of decimal digits whose value
    a double holds exactly.  [None] stands for every other argument; the
    model does not cover them. *)
Definition parseInt (s : string) : option Z :=
  match s with
  | EmptyString => None
  | _ =>
      match Js.digits_from 0 s with
      | Some n => if n <? 2 ^ 53 then Some n else None
      | None => None
      end
  end.

(** [v.toFixed(1)] for [v >= 0]: the tenths nearest to [v], a tie going up,
    written with one decimal.  The three quotients it is applied to divide an
    integer below 2^53 by a power of two, which doubles do exactly. *)
Definition toFixed1 (v : Q) : string :=
  let tenths := Js.Math_round (v * 10) in
  (decimal (tenths / 10) ++ "." ++ decimal (tenths mod 10))%string.

(** [formatFileSize(bytes)]; [None] where [parseInt] is outside the model. *)
Definition formatFileSize (bytes : option string) : option string :=
  if negb (Js.truthy_string bytes) then Some EmptyString
  else
    match bytes with
    | None => Some EmptyString
    | Some s =>
        match parseInt s with
        | None => None
        | Some size =>
            Some (if size <? 1024
                  then (decimal size ++ " B")%string
                  else if size <? 1024 * 1024
                  then (toFixed1 (inject_Z size / 1024) ++ " KB")%string
                  else if size <? 1024 * 1024 * 1024
                  then (toFixed1 (inject_Z size / (1024 * 1024)) ++ " MB")%string
                  else (toFixed1 (inject_Z size / (1024 * 1024 * 1024))
                        ++ " GB")%string)
        end
    end.

End FormatSize.

(* ================================================================== *)
(** ** App.tsx: the application state and its handlers *)

Module App.

Import Constants.

Local Open Scope string_scope.

(** [type AppState] *)
Inductive AppState : Type :=
| idle | describing | ready | generating | done | error.

(** A chosen [File]. *)
Record File : Type := mkFile {
  fileName : string;
  fileType : string
}.

(** The [useState] cells.  The preview is the object URL of a file,
    [URL.createObjectURL(file)], kept here as the file it points to; such a
    URL is never the empty string. *)
Record State : Type := mkState {
  originalFile : option File;
  originalImagePreview : option File;
  generatedPrompt : string;
  aspectRatio : option AspectRatio;
  generatedImage : option string;
  appState : AppState;
  errorMessage : string
}.

(** What [handleGenerateClick] holds on to across its [await]s: the canvas it
    sized, and the prompt and the preview of the render it was clicked in. *)
Record Job : Type := mkJob {
  job_canvas : option Compositor.Canvas;
  job_prompt : string;
  job_preview : File
}.

(** The picture handed to [expandImage]: the canvas with the source image
    drawn at its placement, which [toDataURL] encodes. *)
Record Composite : Type := mkComposite {
  canvas : option Compositor.Canvas;
  source : File;
  placement : option Binary64.Placement
}.

(** The application: the rendered state and the asynchronous work that has
    not settled yet (descriptions, image loads and expansions, oldest
    first). *)
Record Session : Type := mkSession {
  ui : State;
  describes : list File;
  loads : list Job;
  expands : list Job
}.

Definition initialState : State :=
  mkState None None "" (hd_error ASPECT_RATIOS) None idle "".

Definition initial : Session := mkSession initialState [] [] [].

Inductive Effect : Type :=
| DescribeCalled (file : File)
| ExpandCalled (image : Composite) (prompt : string).

Definition describeFailedMessage : string :=
  "Could not generate a description for the image. Please try another one.".
Definition requiredMessage : string :=
  "A prompt and an original image are required.".
Definition expandFailedMessage : string :=
  "Failed to expand the image. The model might not support this type of edit. Please try again.".

Definition setPrompt (v : string) (s : State) : State :=
  mkState (originalFile s) (originalImagePreview s) v (aspectRatio s)
          (generatedImage s) (appState s) (errorMessage s).
Definition setAspectRatio (v : option AspectRatio) (s : State) : State :=
  mkState (originalFile s) (originalImagePreview s) (generatedPrompt s) v
          (generatedImage s) (appState s) (errorMessage s).
Definition setGeneratedImage (v : option string) (s : State) : State :=
  mkState (originalFile s) (originalImagePreview s) (generatedPrompt s)
          (aspectRatio s) v (appState s) (errorMessage s).
Definition setAppState (v : AppState) (s : State) : State :=
  mkState (originalFile s) (originalImagePreview s) (generatedPrompt s)
          (aspectRatio s) (generatedImage s) v (errorMessage s).
Definition setErrorMessage (v : string) (s : State) : State :=
  mkState (originalFile s) (originalImagePreview s) (generatedPrompt s)
          (aspectRatio s) (generatedImage s) (appState s) v.

(** [handleReset()] *)
Definition handleReset (s : State) : State := initialState.

(** [handleFileChange(event)] with [event.target.files?.[0]]. *)
Definition handleFileChange (file : option File) (s : State) : State :=
  match file with
  | Some f =>
      mkState (Some f) (Some f) (generatedPrompt s) (aspectRatio s)
              (generatedImage s) describing (errorMessage s)
  | None => s
  end.

(** The [onChange] of the aspect-ratio select:
    [ASPECT_RATIOS.find(ar => ar.value === v) || ASPECT_RATIOS[0]] *)
Definition chooseAspectRatio (v : string) : option AspectRatio :=
  match find (fun ar => String.eqb (value ar) v) ASPECT_RATIOS with
  | Some ar => Some ar
  | None => hd_error ASPECT_RATIOS
  end.

(** The [catch] blocks. *)
Definition describeFailed (s : State) : State :=
  setAppState error (setErrorMessage describeFailedMessage s).
Definition expandFailed (s : State) : State :=
  setAppState error (setErrorMessage expandFailedMessage s).

(** The expansion prompt built at step 6. *)
Definition expansionPrompt (generatedPrompt : string) : string :=
  "Creatively expand the central image to fill the surrounding transparent areas. Maintain the original image's style, lighting, and subject matter. The original is about: "
  ++ generatedPrompt.

(** Which controls the render offers. *)
Definition defaultView (s : State) : bool :=
  match appState s with
  | idle | error => false
  | _ => true
  end.

Definition generateDisabled (s : State) : bool :=
  match appState s with
  | describing | generating => true
  | _ => String.eqb (generatedPrompt s) ""
  end.

(** [handleGenerateClick()] up to its first [await]; [ctx] tells whether
    [canvas.getContext('2d')] gave a context. *)
Definition handleGenerateClick (ctx : bool) (s : Session) : Session :=
  match originalImagePreview (ui s) with
  | Some preview =>
      if String.eqb (generatedPrompt (ui s)) ""
      then mkSession (setAppState error (setErrorMessage requiredMessage (ui s)))
                     (describes s) (loads s) (expands s)
      else
        let started := setGeneratedImage None (setAppState generating (ui s)) in
        match ctx, aspectRatio (ui s) with
        | true, Some a =>
            let sized :=
              match Compositor.targetTerms a with
              | Some (targetW, targetH) =>
                  Some (Compositor.canvasFor Compositor.MAX_DIMENSION
                          targetW targetH)
              | None => None
              end in
            mkSession started (describes s)
                      (loads s ++ [mkJob sized (generatedPrompt (ui s)) preview])
                      (expands s)
        | _, _ =>
            mkSession (expandFailed started) (describes s) (loads s) (expands s)
        end
  | None =>
      mkSession (setAppState error (setErrorMessage requiredMessage (ui s)))
                (describes s) (loads s) (expands s)
  end.

(** Steps 3 to 7 of [handleGenerateClick], once the image has loaded with
    natural size [imgWidth] x [imgHeight]. *)
Definition composite (job : Job) (imgWidth imgHeight : Z) : Composite :=
  mkComposite (job_canvas job) (job_preview job)
    (match job_canvas job with
     | Some c => Some (Binary64.place c imgWidth imgHeight)
     | None => None
     end).

Fixpoint removeAt {A : Type} (k : nat) (l : list A) : list A :=
  match k, l with
  | _, [] => []
  | O, _ :: rest => rest
  | S k', a :: rest => a :: removeAt k' rest
  end.

(** What happens to the application, one event at a time: the user acts on a
    control (ignored when the render does not offer it), or a piece of
    asynchronous work settles. *)
Inductive Event : Type :=
| ChooseFile (file : option File)
| EditPrompt (text : string)
| SelectRatio (v : string)
| ClickGenerate (ctx : bool)
| ClickStartOver
| DescribeSettled (k : nat) (description : option string)
| ImageSettled (k : nat) (size : option (Z * Z))
| ExpandSettled (k : nat) (imageB64 : option (option string)).

Definition step (s : Session) (e : Event) : Session * list Effect :=
  match e with
  | ChooseFile file =>
      match appState (ui s), file with
      | idle, Some f =>
          (* the effect hook then calls [describeOriginalImage] *)
          (mkSession (handleFileChange file (ui s))
                     (describes s ++ [f]) (loads s) (expands s),
           [DescribeCalled f])
      | _, _ => (s, [])
      end
  | EditPrompt text =>
      if defaultView (ui s) && negb (match appState (ui s) with
                                     | describing => true
                                     | _ => false
                                     end)
      then (mkSession (setPrompt text (ui s)) (describes s) (loads s) (expands s),
            [])
      else (s, [])
  | SelectRatio v =>
      if defaultView (ui s)
      then (mkSession (setAspectRatio (chooseAspectRatio v) (ui s))
                      (describes s) (loads s) (expands s), [])
      else (s, [])
  | ClickGenerate ctx =>
      if defaultView (ui s) && negb (generateDisabled (ui s))
      then (handleGenerateClick ctx s, [])
      else (s, [])
  | ClickStartOver =>
      match appState (ui s) with
      | idle => (s, [])
      | _ => (mkSession (handleReset (ui s)) (describes s) (loads s) (expands s),
              [])
      end
  | DescribeSettled k description =>
      match nth_error (describes s) k with
      | Some _ =>
          (mkSession
             (match description with
              | Some text => setAppState ready (setPrompt text (ui s))
              | None => describeFailed (ui s)
              end)
             (removeAt k (describes s)) (loads s) (expands s),
           [])
      | None => (s, [])
      end
  | ImageSettled k size =>
      match nth_error (loads s) k with
      | Some job =>
          match size with
          | Some (imgWidth, imgHeight) =>
              (mkSession (ui s) (describes s) (removeAt k (loads s))
                         (expands s ++ [job]),
               [ExpandCalled (composite job imgWidth imgHeight)
                             (expansionPrompt (job_prompt job))])
          | None =>
              (mkSession (expandFailed (ui s)) (describes s)
                         (removeAt k (loads s)) (expands s),
               [])
          end
      | None => (s, [])
      end
  | ExpandSettled k imageB64 =>
      match nth_error (expands s) k with
      | Some _ =>
          (mkSession
             (match imageB64 with
              | Some b64 =>
                  setAppState done
                    (setGeneratedImage
                       (Some (FileUtils.pngDataUrl
                                (match b64 with
                                 | Some text => text
                                 | None => "undefined"
                                 end)))
                       (ui s))
              | None => expandFailed (ui s)
              end)
             (describes s) (loads s) (removeAt k (expands s)),
           [])
      | None => (s, [])
      end
  end.

(** A run, with everything it asked of the services. *)
Fixpoint run (s : Session) (events : list Event) : Session * list Effect :=
  match events with
  | [] => (s, [])
  | e :: rest =>
      let '(s1, effects1) := step s e in
      let '(s2, effects2) := run s1 rest in
      (s2, (effects1 ++ effects2)%list)
  end.

(** What holds of the application whatever happened before. *)
Definition consistent (s : Session) : Prop :=
  originalImagePreview (ui s) = originalFile (ui s)
  /\ (exists a, aspectRatio (ui s) = Some a /\ In a ASPECT_RATIOS)
  /\ (appState (ui s) = idle -> ui s = initialState)
  /\ (appState (ui s) = describing \/ appState (ui s) = generating ->
      originalFile (ui s) <> None)
  /\ (appState (ui s) = done -> generatedImage (ui s) <> None)
  /\ (appState (ui s) = error ->
      In (errorMessage (ui s))
         [describeFailedMessage; requiredMessage; expandFailedMessage])
  /\ (forall job, In job (loads s) \/ In job (expands s) ->
      job_prompt job <> ""
      /\ exists c, job_canvas job = Some c
                   /\ Z.max (Compositor.width c) (Compositor.height c) = 1024%Z
                   /\ (576 <= Z.min (Compositor.width c) (Compositor.height c))%Z).



Definition sampleFile : File := mkFile "beach.png" "image/png".

End App.

(* ================================================================== *)
(** ** What every call on the Drive session keeps *)

Module AuthInvariant.

Import Auth.

(** Token and expiry are set together or not at all, and a token client
    exists only where the configuration allows one. *)
Definition paired (env : Env) (st : State) : Prop :=
  (accessToken st = None <-> tokenExpiry st = None)
  /\ (tokenClient st <> None -> clientAvailable env fresh = true).

End AuthInvariant.

(* ================================================================== *)
(** * Properties *)

(** ** The compositor *)

Module CompositorFacts.

Import Constants Compositor.

Local Open Scope Z_scope.

(** [Math.round] of a quotient of integers, in integer arithmetic. *)
Lemma Math_round_quotient (a b : Z) :
  0 < b -> Js.Math_round (inject_Z a / inject_Z b) = (2 * a + b) / (2 * b).
Proof.
  intros Hb. destruct b as [|p|p]; try lia.
  unfold Js.Math_round, Qfloor, Qdiv, Qinv, Qmult, Qplus, inject_Z.
  cbn -[Z.mul Z.div Z.add Pos.mul].
  f_equal; lia.
Qed.

(** [Math.round x] is the one integer within a half of [x], the upper one at
    a tie. *)
Lemma Math_round_nearest (q : Q) :
  (inject_Z (Js.Math_round q) - (1 # 2) <= q
   /\ q < inject_Z (Js.Math_round q) + (1 # 2))%Q.
Proof.
  unfold Js.Math_round.
  pose proof (Qfloor_le (q + (1 # 2))) as Hlo.
  pose proof (Qlt_floor (q + (1 # 2))) as Hhi.
  rewrite inject_Z_plus in Hhi. change (inject_Z 1) with 1%Q in Hhi.
  split; lra.
Qed.

Lemma Math_round_unique (q : Q) (n : Z) :
  (inject_Z n - (1 # 2) <= q)%Q -> (q < inject_Z n + (1 # 2))%Q ->
  Js.Math_round q = n.
Proof.
  intros Hlo Hhi. destruct (Math_round_nearest q) as [Mlo Mhi].
  assert (L1 : (inject_Z n < inject_Z (Js.Math_round q) + 1)%Q) by lra.
  assert (L2 : (inject_Z (Js.Math_round q) < inject_Z n + 1)%Q) by lra.
  change 1%Q with (inject_Z 1) in L1, L2.
  rewrite <- inject_Z_plus, <- Zlt_Qlt in L1, L2. lia.
Qed.

Lemma short_side_bounds (M long short : Z) :
  0 < M -> 0 < short -> short <= long ->
  0 <= (2 * (M * short) + long) / (2 * long) <= M.
Proof.
  intros HM Hs Hl. split.
  - apply Z.div_pos; nia.
  - apply Z.lt_succ_r. apply Z.div_lt_upper_bound; nia.
Qed.

(** C1.  Canvas sizing.  For an aspect ratio [W:H] with positive integer terms
    and a positive bound [M]: when [W >= H] the canvas is [M] wide and
    [round (M * H / W)] high, otherwise it is [M] high and
    [round (M * W / H)] wide; put differently, the longer side of the canvas
    is exactly [M] and the shorter one is
    [round (M * min W H / max W H)]. *)
Theorem canvas_sizing_rule (M W H : Z) :
  0 < M -> 0 < W -> 0 < H ->
  let canvas := canvasFor M W H in
  (W >= H ->
     width canvas = M
     /\ height canvas
        = Js.Math_round (inject_Z M * inject_Z H / inject_Z W))
  /\ (W < H ->
        height canvas = M
        /\ width canvas
           = Js.Math_round (inject_Z M * inject_Z W / inject_Z H))
  /\ Z.max (width canvas) (height canvas) = M
  /\ Z.min (width canvas) (height canvas)
     = Js.Math_round
         (inject_Z M * inject_Z (Z.min W H) / inject_Z (Z.max W H)).
Proof.
  intros HM HW HH. unfold canvasFor.
  destruct (W >=? H) eqn:E; cbn [width height].
  - apply Z.geb_le in E.
    rewrite (Z.min_r W H), (Z.max_l W H) by lia.
    rewrite <- !inject_Z_mult, !Math_round_quotient by lia.
    pose proof (short_side_bounds M W H HM HH E).
    repeat split; try lia.
  - assert (W < H) by (destruct (Z.geb_spec W H); [discriminate | lia]).
    rewrite (Z.min_l W H), (Z.max_r W H) by lia.
    rewrite <- !inject_Z_mult, !Math_round_quotient by lia.
    pose proof (short_side_bounds M H W HM HW ltac:(lia)).
    repeat split; try lia.
Qed.

Local Open Scope Q_scope.

(** The placement formulas in exact arithmetic.  There the scaled image never
    exceeds the canvas, on either axis. *)
Lemma scaled_within (canvas : Canvas) (imgWidth imgHeight : Z) :
  (0 < imgWidth)%Z -> (0 < imgHeight)%Z ->
  scaledWidth (place canvas imgWidth imgHeight) <= inject_Z (width canvas)
  /\ scaledHeight (place canvas imgWidth imgHeight) <= inject_Z (height canvas).
Proof.
  intros Hw Hh. cbn [place scaledWidth scaledHeight]. unfold Js.Math_min.
  assert (Pw : 0 < inject_Z imgWidth) by (rewrite <- (Zlt_Qlt 0); exact Hw).
  assert (Ph : 0 < inject_Z imgHeight) by (rewrite <- (Zlt_Qlt 0); exact Hh).
  split.
  - rewrite <- (Qmult_div_r (inject_Z (width canvas)) (inject_Z imgWidth)) at 2
      by lra.
    apply Qmult_le_l; [exact Pw | apply Q.le_min_l].
  - rewrite <- (Qmult_div_r (inject_Z (height canvas)) (inject_Z imgHeight)) at 2
      by lra.
    apply Qmult_le_l; [exact Ph | apply Q.le_min_r].
Qed.

(** In exact arithmetic the bounding box of the scaled image lies inside the
    canvas and is centred in it.  The doubles of the browser only approximate
    this: see [Binary64Facts]. *)
Lemma exact_fit_contained (canvas : Canvas) (imgWidth imgHeight : Z) :
  (0 < imgWidth)%Z -> (0 < imgHeight)%Z ->
  let p := place canvas imgWidth imgHeight in
  0 <= x p /\ x p + scaledWidth p <= inject_Z (width canvas)
  /\ 0 <= y p /\ y p + scaledHeight p <= inject_Z (height canvas).
Proof.
  intros Hw Hh p.
  destruct (scaled_within canvas imgWidth imgHeight Hw Hh) as [Sw Sh].
  fold p in Sw, Sh.
  assert (Dx : 2 * x p == inject_Z (width canvas) - scaledWidth p)
    by (subst p; cbn [place x scaledWidth]; field).
  assert (Dy : 2 * y p == inject_Z (height canvas) - scaledHeight p)
    by (subst p; cbn [place y scaledHeight]; field).
  clearbody p. repeat split; lra.
Qed.

(** The sizing rule at 16:9 and a bound of 1024. *)
Lemma canvas_sizing_rule_witness :
  ((0 < 1024)%Z /\ (0 < 16)%Z /\ (0 < 9)%Z)
  /\ Z.max (width (canvasFor 1024 16 9)) (height (canvasFor 1024 16 9))
     = 1024%Z.
Proof.
  split; [lia |]. apply (canvas_sizing_rule 1024 16 9); lia.
Defined.

End CompositorFacts.

(** ** Rounding: what the binary64 operations of the compositor do to numbers

    The kernel's floats come with the specification of each operation on
    [spec_float], sign, mantissa and exponent.  From it: a product, a
    quotient and a difference of normal doubles are within one part in 2^52
    of the exact result, comparison is comparison of the numbers, and an
    integer below 2^53 is a double. *)

Module Binary64Rounding.

Local Abbreviation Q2 := Binary64.Q2.
Local Abbreviation val := Binary64.val.
Local Abbreviation u52 := Binary64.u52.
Local Abbreviation close := Binary64.close.
Local Abbreviation stands := Binary64.stands.
Local Abbreviation tolerance := Binary64.tolerance.

Local Open Scope Z_scope.

(** *** Mantissas and their digits *)

(** The exponent a binary64 number of [e] digits above the point gets. *)
Lemma fexp_eq (e : Z) : fexp prec emax e = Z.max (e - 53) (-1074).
Proof. reflexivity. Qed.

(** A mantissa of [d] binary digits lies between 2^(d-1) and 2^d. *)
Lemma digits2_pos_bounds (m : positive) :
  2 ^ (Zpos (digits2_pos m) - 1) <= Zpos m < 2 ^ Zpos (digits2_pos m).
Proof.
  induction m as [m IH | m IH |]; cbn [digits2_pos];
    rewrite ?Pos2Z.inj_succ.
  - replace (Z.succ (Zpos (digits2_pos m)) - 1) with (Z.succ (Zpos (digits2_pos m) - 1)) by lia.
    rewrite !Z.pow_succ_r by lia. lia.
  - replace (Z.succ (Zpos (digits2_pos m)) - 1) with (Z.succ (Zpos (digits2_pos m) - 1)) by lia.
    rewrite !Z.pow_succ_r by lia. lia.
  - cbn. lia.
Qed.

Lemma digits2_pos_unique (m : positive) (k : Z) :
  2 ^ (k - 1) <= Zpos m < 2 ^ k -> Zpos (digits2_pos m) = k.
Proof.
  intros [Hlo Hhi]. pose proof (digits2_pos_bounds m) as [Dlo Dhi].
  assert (0 < k).
  { destruct (Z.ltb_spec 0 k); [assumption |].
    destruct (Z.eqb_spec k 0) as [-> | Hne].
    - cbn in Hhi. lia.
    - rewrite Z.pow_neg_r in Hhi by lia. lia. }
  assert (k - 1 < Zpos (digits2_pos m)).
  { apply (Z.pow_lt_mono_r_iff 2); lia. }
  assert (Zpos (digits2_pos m) - 1 < k).
  { apply (Z.pow_lt_mono_r_iff 2); lia. }
  lia.
Qed.

(** A shift to the right by one bit halves the mantissa, and a shift by [n]
    bits divides it by 2^n, whatever the round and sticky bits. *)
Lemma shr_1_m (mrs : shr_record) :
  0 <= shr_m mrs -> shr_m (shr_1 mrs) = shr_m mrs / 2.
Proof.
  destruct mrs as [m r s]. cbn [shr_m shr_1]. intros Hm.
  destruct m as [| [p | p |] | p]; cbn [shr_m]; try reflexivity; try lia.
  - apply (Z.div_unique _ _ _ 1); lia.
  - apply (Z.div_unique _ _ _ 0); lia.
Qed.

Lemma pow2_xO (n : positive) : 2 ^ Z.pos n~0 = 2 ^ Z.pos n * 2 ^ Z.pos n.
Proof. rewrite (Pos2Z.inj_xO n), <- Z.add_diag, Z.pow_add_r by lia. reflexivity. Qed.

Lemma pow2_xI (n : positive) :
  2 ^ Z.pos n~1 = 2 * (2 ^ Z.pos n * 2 ^ Z.pos n).
Proof.
  rewrite (Pos2Z.inj_xI n), Z.pow_add_r, <- Z.add_diag, Z.pow_add_r by lia.
  rewrite Z.pow_1_r. ring.
Qed.

Lemma iter_shr_m (n : positive) : forall mrs,
  0 <= shr_m mrs ->
  shr_m (iter_pos shr_1 n mrs) = shr_m mrs / 2 ^ Zpos n.
Proof.
  induction n as [n IH | n IH |]; intros mrs Hm; cbn [iter_pos].
  - assert (H1 : 0 <= shr_m (shr_1 mrs))
      by (rewrite shr_1_m by lia; apply Z.div_pos; lia).
    assert (H2 : 0 <= shr_m (iter_pos shr_1 n (shr_1 mrs)))
      by (rewrite IH by lia; apply Z.div_pos; lia).
    rewrite IH, IH, shr_1_m by lia.
    rewrite !Z.div_div by lia. now rewrite pow2_xI.
  - assert (H2 : 0 <= shr_m (iter_pos shr_1 n mrs))
      by (rewrite IH by lia; apply Z.div_pos; lia).
    rewrite IH, IH by lia.
    rewrite !Z.div_div by lia. now rewrite pow2_xO.
  - rewrite shr_1_m by lia. reflexivity.
Qed.

(** Rounding to nearest keeps the mantissa or adds one to it. *)
Lemma round_nearest_even_cases (m : Z) (l : location) :
  round_nearest_even m l = m \/ round_nearest_even m l = m + 1.
Proof.
  destruct l as [| []]; cbn; auto. destruct (Z.even m); auto.
Qed.

Lemma Zdigits2_unique (m k : Z) :
  0 < m -> 2 ^ (k - 1) <= m < 2 ^ k -> Zdigits2 m = k.
Proof.
  intros Hm Hk. destruct m as [| p | p]; try lia.
  cbn [Zdigits2]. now apply digits2_pos_unique.
Qed.

Lemma Zdigits2_bounds (m : Z) :
  0 < m -> 2 ^ (Zdigits2 m - 1) <= m < 2 ^ Zdigits2 m.
Proof.
  intros Hm. destruct m as [| p | p]; try lia.
  cbn [Zdigits2]. apply digits2_pos_bounds.
Qed.

Lemma Zdigits2_pos (m : Z) : 0 < m -> 0 < Zdigits2 m.
Proof. intros Hm. destruct m as [| p | p]; try lia. cbn. lia. Qed.

(** Dropping the low bits of a mantissa of [d >= 53] digits, down to 53. *)
Lemma shr_fexp_normal (m e : Z) (l : location) :
  0 < m -> 53 <= Zdigits2 m -> -1074 <= Zdigits2 m + e - 53 ->
  exists mrs,
    shr_fexp prec emax m e l = (mrs, e + (Zdigits2 m - 53))
    /\ shr_m mrs = m / 2 ^ (Zdigits2 m - 53)
    /\ (Zdigits2 m = 53 -> mrs = shr_record_of_loc m l).
Proof.
  intros Hm Hd He. unfold shr_fexp. rewrite fexp_eq.
  rewrite Z.max_l by lia.
  replace (Zdigits2 m + e - 53 - e) with (Zdigits2 m - 53) by lia.
  assert (Hrec : shr_m (shr_record_of_loc m l) = m)
    by (destruct l as [| []]; reflexivity).
  unfold shr. destruct (Zdigits2 m - 53) as [| q | q] eqn:Hn; try lia.
  - exists (shr_record_of_loc m l). rewrite Z.add_0_r, Z.div_1_r.
    repeat split; auto.
  - eexists. split; [reflexivity |]. split.
    + rewrite iter_shr_m by (rewrite Hrec; lia). now rewrite Hrec.
    + intros H53. lia.
Qed.

(** *** Rounding

    The rounding step all operations end with, [binary_round_aux], on a
    mantissa [p] of at least 53 digits in the normal range: the result is a
    normal double whose mantissa is [p] cut down to 53 digits, or that plus
    one; nothing changes when [p] has 53 digits and nothing was lost
    before. *)
Lemma round_normal (s : bool) (p : positive) (ex : Z) (lx : location) :
  let d := Zpos (digits2_pos p) in
  let n := d - 53 in
  let e' := ex + n in
  let m' := Zpos p / 2 ^ n in
  53 <= d -> -1074 <= e' <= 970 ->
  exists m'' e'',
    binary_round_aux prec emax s (Zpos p) ex lx = S754_finite s m'' e''
    /\ Zpos (digits2_pos m'') = 53
    /\ e' <= e'' <= e' + 1
    /\ m' <= Zpos m'' * 2 ^ (e'' - e') <= m' + 1
    /\ (lx = loc_Exact -> n = 0 -> m'' = p /\ e'' = ex).
Proof.
  intros d n e' m' Hd He'.
  pose proof (digits2_pos_bounds p) as [Plo Phi]. fold d in Plo, Phi.
  assert (Hm'lo : 2 ^ 52 <= m').
  { unfold m'. apply Z.div_le_lower_bound; [lia |].
    rewrite <- Z.pow_add_r by lia. replace (n + 52) with (d - 1) by lia.
    exact Plo. }
  assert (Hm'hi : m' < 2 ^ 53).
  { unfold m'. apply Z.div_lt_upper_bound; [lia |].
    rewrite <- Z.pow_add_r by lia. replace (n + 53) with d by lia.
    exact Phi. }
  unfold binary_round_aux.
  destruct (shr_fexp_normal (Zpos p) ex lx) as (mrs1 & -> & Hm1 & Hrec1);
    cbn [Zdigits2]; try lia.
  cbn [Zdigits2] in Hm1, Hrec1. fold d in Hm1, Hrec1. fold n in Hm1.
  fold m' in Hm1. fold d n e'.
  set (mr := round_nearest_even (shr_m mrs1) (loc_of_shr_record mrs1)).
  assert (Hmr : mr = m' \/ mr = m' + 1).
  { unfold mr. rewrite Hm1. apply round_nearest_even_cases. }
  assert (Hexact : lx = loc_Exact -> n = 0 -> mr = Zpos p).
  { intros -> Hn. unfold mr. rewrite Hrec1 by lia. reflexivity. }
  destruct (Z.ltb_spec mr (2 ^ 53)) as [Hlt | Hge].
  - assert (Hdig : Zdigits2 mr = 53) by (apply Zdigits2_unique; lia).
    destruct (shr_fexp_normal mr e' loc_Exact) as (mrs2 & -> & Hm2 & _);
      try lia.
    rewrite Hdig in Hm2. rewrite Hdig. cbn in Hm2. rewrite Z.div_1_r in Hm2.
    rewrite Hm2. destruct mr as [| q | q] eqn:Emr; try lia.
    replace (e' + (53 - 53)) with e' by lia.
    assert (Hle : (e' <=? emax - prec) = true)
      by (apply Z.leb_le; unfold emax, prec; lia).
    rewrite Hle. exists q, e'. split; [reflexivity |].
    split; [exact Hdig |]. split; [lia |].
    rewrite Z.sub_diag, Z.mul_1_r. split; [lia |].
    intros Hl Hn. specialize (Hexact Hl Hn). split; [congruence | lia].
  - assert (Emr : mr = 2 ^ 53) by lia.
    assert (Hdig : Zdigits2 mr = 54)
      by (rewrite Emr; reflexivity).
    destruct (shr_fexp_normal mr e' loc_Exact) as (mrs2 & -> & Hm2 & _);
      try lia.
    rewrite Hdig in Hm2. rewrite Hdig. rewrite Emr in Hm2.
    change (2 ^ 53 / 2 ^ (54 - 53)) with (2 ^ 52) in Hm2.
    rewrite Hm2. change (2 ^ 52) with (Zpos (Z.to_pos (2 ^ 52))).
    replace (e' + (54 - 53)) with (e' + 1) by lia.
    assert (Hle : (e' + 1 <=? emax - prec) = true)
      by (apply Z.leb_le; unfold emax, prec; lia).
    rewrite Hle. eexists _, (e' + 1). split; [reflexivity |].
    split; [reflexivity |]. split; [lia |].
    replace (e' + 1 - e') with 1 by lia.
    split; [change (Z.pos (Z.to_pos (2 ^ 52)) * 2 ^ 1) with (2 ^ 53); lia |].
    intros Hl Hn. specialize (Hexact Hl Hn).
    assert (Hd53 : d = 53) by lia. rewrite Hd53 in Phi. lia.
Qed.

Local Open Scope Q_scope.

(** *** Numbers

    Powers of two as rationals. *)
Lemma Q2_pos (e : Z) : 0 < Q2 e.
Proof. apply Qpower_0_lt. reflexivity. Qed.

Lemma Q2_add (a b : Z) : Q2 (a + b) == Q2 a * Q2 b.
Proof. apply Qpower_plus. discriminate. Qed.

Lemma Q2_Z (k : Z) : (0 <= k)%Z -> Q2 k == inject_Z (2 ^ k).
Proof. intros Hk. unfold Q2. now rewrite Zpower_Qpower. Qed.

Lemma val_pos (m : positive) (e : Z) : 0 < val m e.
Proof.
  unfold val. apply Qmult_lt_0_compat; [| apply Q2_pos].
  rewrite <- (Zlt_Qlt 0). lia.
Qed.

Lemma val_shift (m : positive) (e e0 : Z) :
  (e0 <= e)%Z -> val m e == inject_Z (Zpos m * 2 ^ (e - e0)) * Q2 e0.
Proof.
  intros He. unfold val.
  replace e with ((e - e0) + e0)%Z at 1 by lia.
  rewrite Q2_add, Q2_Z, inject_Z_mult by lia. ring.
Qed.

(** Two numbers between the same neighbouring 53-digit multiples of a power
    of two are close. *)
Lemma close_of_interval (A E : Z) (V v : Q) :
  (2 ^ 52 <= A)%Z ->
  inject_Z A * Q2 E <= V -> V <= inject_Z (A + 1) * Q2 E ->
  inject_Z A * Q2 E <= v -> v <= inject_Z (A + 1) * Q2 E ->
  close V v.
Proof.
  intros HA HV1 HV2 Hv1 Hv2.
  pose proof (Q2_pos E) as Ht.
  rewrite inject_Z_plus in HV2, Hv2. change (inject_Z 1) with 1 in HV2, Hv2.
  assert (Ha : inject_Z (2 ^ 52) <= inject_Z A) by (now rewrite <- Zle_Qle).
  change (inject_Z (2 ^ 52)) with (4503599627370496 # 1) in Ha.
  assert (Hat : (4503599627370496 # 1) * Q2 E <= inject_Z A * Q2 E)
    by (apply Qmult_le_compat_r; [exact Ha | now apply Qlt_le_weak]).
  unfold close, u52. change (2 ^ 52)%positive with 4503599627370496%positive.
  set (a := inject_Z A) in *. set (t := Q2 E) in *.
  split; nra.
Qed.

Lemma Q2_split (ex n : Z) (a : Z) :
  (0 <= n)%Z -> inject_Z a * Q2 (ex + n) == inject_Z (a * 2 ^ n) * Q2 ex.
Proof.
  intros Hn. rewrite Q2_add, (Q2_Z n), inject_Z_mult by lia. ring.
Qed.

(** Rounding again, in numbers: when the mantissa [p] at exponent [ex] is
    the number [v] cut off, the rounded double is close to [v]. *)
Lemma round_normal_Q (s : bool) (p : positive) (ex : Z) (lx : location) (v : Q) :
  let d := Zpos (digits2_pos p) in
  (53 <= d)%Z -> (-1074 <= ex + (d - 53) <= 970)%Z ->
  inject_Z (Zpos p) * Q2 ex <= v -> v <= inject_Z (Zpos p + 1) * Q2 ex ->
  exists m e,
    binary_round_aux prec emax s (Zpos p) ex lx = S754_finite s m e
    /\ Zpos (digits2_pos m) = 53%Z
    /\ (ex + (d - 53) <= e <= ex + (d - 53) + 1)%Z
    /\ close (val m e) v
    /\ (lx = loc_Exact -> d = 53%Z -> m = p /\ e = ex).
Proof.
  intros d Hd He Hv1 Hv2.
  destruct (round_normal s p ex lx Hd He) as (m & e & Heq & Hdig & Hr & Hint & Hex).
  fold d in Hr, Hint, Hex.
  set (n := (d - 53)%Z) in *. set (E := (ex + n)%Z) in *.
  set (A := (Zpos p / 2 ^ n)%Z) in *.
  pose proof (Q2_pos ex) as Hex_pos. pose proof (Q2_pos E) as HE_pos.
  assert (Hn : (0 <= n)%Z) by (unfold n; lia).
  assert (Hpow : (0 < 2 ^ n)%Z) by (apply Z.pow_pos_nonneg; lia).
  assert (HA1 : (A * 2 ^ n <= Zpos p)%Z)
    by (unfold A; rewrite Z.mul_comm; apply Z.mul_div_le; lia).
  assert (HA2 : (Zpos p + 1 <= (A + 1) * 2 ^ n)%Z).
  { unfold A. pose proof (Z.mul_succ_div_gt (Zpos p) (2 ^ n) Hpow). lia. }
  assert (HAlo : (2 ^ 52 <= A)%Z).
  { unfold A. apply Z.div_le_lower_bound; [lia |].
    rewrite <- Z.pow_add_r by lia.
    pose proof (digits2_pos_bounds p) as [Plo _]. fold d in Plo.
    replace (n + 52)%Z with (d - 1)%Z by (unfold n; lia). exact Plo. }
  exists m, e. split; [exact Heq |]. split; [exact Hdig |].
  split; [exact Hr |]. split.
  - apply (close_of_interval A E); try assumption.
    + rewrite (val_shift m e E) by lia.
      apply Qmult_le_compat_r; [| now apply Qlt_le_weak].
      rewrite <- Zle_Qle. lia.
    + rewrite (val_shift m e E) by lia.
      apply Qmult_le_compat_r; [| now apply Qlt_le_weak].
      rewrite <- Zle_Qle. lia.
    + unfold E. rewrite Q2_split by lia.
      apply Qle_trans with (inject_Z (Zpos p) * Q2 ex); [| exact Hv1].
      apply Qmult_le_compat_r; [| now apply Qlt_le_weak].
      rewrite <- Zle_Qle. exact HA1.
    + unfold E. rewrite Q2_split by lia.
      apply Qle_trans with (inject_Z (Zpos p + 1) * Q2 ex); [exact Hv2 |].
      apply Qmult_le_compat_r; [| now apply Qlt_le_weak].
      rewrite <- Zle_Qle. exact HA2.
  - intros Hl Hd53. apply Hex; [exact Hl | unfold n; lia].
Qed.

(** Multiplication of two normal doubles. *)
Lemma SFmul_normal (sx sy : bool) (m1 m2 : positive) (e1 e2 : Z) :
  Zpos (digits2_pos m1) = 53%Z -> Zpos (digits2_pos m2) = 53%Z ->
  (-1000 <= e1 + e2 <= 800)%Z ->
  exists m e,
    SFmul prec emax (S754_finite sx m1 e1) (S754_finite sy m2 e2)
    = S754_finite (xorb sx sy) m e
    /\ Zpos (digits2_pos m) = 53%Z
    /\ (e1 + e2 + 52 <= e <= e1 + e2 + 54)%Z
    /\ close (val m e) (val m1 e1 * val m2 e2).
Proof.
  intros H1 H2 He. cbn [SFmul].
  pose proof (digits2_pos_bounds m1) as [L1 U1]. rewrite H1 in L1, U1.
  pose proof (digits2_pos_bounds m2) as [L2 U2]. rewrite H2 in L2, U2.
  assert (Hd : (105 <= Zpos (digits2_pos (m1 * m2)) <= 106)%Z).
  { pose proof (digits2_pos_bounds (m1 * m2)) as [L U].
    rewrite Pos2Z.inj_mul in L, U.
    assert (Hlo : (2 ^ 104 <= Zpos m1 * Zpos m2)%Z)
      by (change (2 ^ 104)%Z with (2 ^ 52 * 2 ^ 52)%Z; nia).
    assert (Hhi : (Zpos m1 * Zpos m2 < 2 ^ 106)%Z)
      by (change (2 ^ 106)%Z with (2 ^ 53 * 2 ^ 53)%Z; nia).
    split.
    - assert (104 < Zpos (digits2_pos (m1 * m2)))%Z
        by (apply (Z.pow_lt_mono_r_iff 2); lia). lia.
    - assert (Zpos (digits2_pos (m1 * m2)) - 1 < 106)%Z
        by (apply (Z.pow_lt_mono_r_iff 2); lia). lia. }
  assert (Hv : val m1 e1 * val m2 e2
               == inject_Z (Zpos (m1 * m2)) * Q2 (e1 + e2)).
  { unfold val. rewrite Q2_add, Pos2Z.inj_mul, inject_Z_mult. ring. }
  destruct (round_normal_Q (xorb sx sy) (m1 * m2) (e1 + e2) loc_Exact
              (val m1 e1 * val m2 e2))
    as (m & e & Heq & Hdig & Hr & Hclose & _); try lia.
  - rewrite Hv. apply Qle_refl.
  - rewrite Hv. apply Qmult_le_compat_r;
      [rewrite <- Zle_Qle; lia | apply Qlt_le_weak, Q2_pos].
  - exists m, e. split; [exact Heq |]. split; [exact Hdig |]. split; [lia |].
    exact Hclose.
Qed.

(** The integer quotient [SFdiv] rounds: the dividend mantissa shifted by 53
    bits, divided by the divisor mantissa. *)
Lemma div_core_normal (m1 m2 : positive) (e1 e2 : Z) :
  Zpos (digits2_pos m1) = 53%Z -> Zpos (digits2_pos m2) = 53%Z ->
  (-1000 <= e1 - e2)%Z ->
  exists lz,
    SFdiv_core_binary prec emax (Zpos m1) e1 (Zpos m2) e2
    = ((Zpos m1 * 2 ^ 53) / Zpos m2, e1 - e2 - 53, lz)%Z.
Proof.
  intros H1 H2 He. unfold SFdiv_core_binary. cbn [Zdigits2].
  rewrite H1, H2, fexp_eq.
  assert (Hmin : Z.min (Z.max (53 + e1 - (53 + e2) - 53) (-1074)) (e1 - e2)
                 = (e1 - e2 - 53)%Z) by lia.
  rewrite Hmin.
  replace (e1 - e2 - (e1 - e2 - 53))%Z with 53%Z by lia.
  rewrite Z.shiftl_mul_pow2 by lia.
  destruct (Z.div_eucl (Zpos m1 * 2 ^ 53) (Zpos m2)) as [q r] eqn:E.
  exists (new_location (Zpos m2) r). f_equal. f_equal.
  unfold Z.div. now rewrite E.
Qed.

(** Division of two normal doubles. *)
Lemma SFdiv_normal (sx sy : bool) (m1 m2 : positive) (e1 e2 : Z) :
  Zpos (digits2_pos m1) = 53%Z -> Zpos (digits2_pos m2) = 53%Z ->
  (-900 <= e1 - e2 <= 900)%Z ->
  exists m e,
    SFdiv prec emax (S754_finite sx m1 e1) (S754_finite sy m2 e2)
    = S754_finite (xorb sx sy) m e
    /\ Zpos (digits2_pos m) = 53%Z
    /\ (e1 - e2 - 53 <= e <= e1 - e2 - 51)%Z
    /\ close (val m e) (val m1 e1 / val m2 e2).
Proof.
  intros H1 H2 He. cbn [SFdiv].
  destruct (div_core_normal m1 m2 e1 e2 H1 H2) as [lz ->]; [lia |].
  pose proof (digits2_pos_bounds m1) as [L1 U1]. rewrite H1 in L1, U1.
  pose proof (digits2_pos_bounds m2) as [L2 U2]. rewrite H2 in L2, U2.
  set (M1 := Zpos m1) in *. set (M2 := Zpos m2) in *.
  set (q := (M1 * 2 ^ 53 / M2)%Z).
  assert (Hq1 : (q * M2 <= M1 * 2 ^ 53)%Z)
    by (unfold q; rewrite Z.mul_comm; apply Z.mul_div_le; lia).
  assert (Hq2 : (M1 * 2 ^ 53 < (q + 1) * M2)%Z).
  { unfold q. pose proof (Z.mul_succ_div_gt (M1 * 2 ^ 53) M2 ltac:(lia)). lia. }
  assert (Hqlo : (2 ^ 52 <= q)%Z)
    by (unfold q; apply Z.div_le_lower_bound; [lia |];
        change (2 ^ 53)%Z with (2 * 2 ^ 52)%Z; nia).
  assert (Hqhi : (q < 2 ^ 54)%Z)
    by (unfold q; apply Z.div_lt_upper_bound; [lia |];
        change (2 ^ 54)%Z with (2 * 2 ^ 53)%Z; nia).
  destruct q as [| qp | qp] eqn:Eq; try lia.
  assert (Hd : (53 <= Zpos (digits2_pos qp) <= 54)%Z).
  { pose proof (digits2_pos_bounds qp) as [L U]. split.
    - assert (52 < Zpos (digits2_pos qp))%Z
        by (apply (Z.pow_lt_mono_r_iff 2); lia). lia.
    - assert (Zpos (digits2_pos qp) - 1 < 54)%Z
        by (apply (Z.pow_lt_mono_r_iff 2); lia). lia. }
  pose proof (Q2_pos e2) as P2. pose proof (Q2_pos (e1 - e2 - 53)) as Px.
  assert (HM2 : 0 < inject_Z M2) by (rewrite <- (Zlt_Qlt 0); lia).
  assert (Hv : val m1 e1 / val m2 e2
               == inject_Z (M1 * 2 ^ 53) / inject_Z M2 * Q2 (e1 - e2 - 53)).
  { unfold val. fold M1 M2.
    replace e1 with ((e1 - e2 - 53) + 53 + e2)%Z at 1 by lia.
    rewrite !Q2_add, (Q2_Z 53), inject_Z_mult by lia.
    field. split; lra. }
  destruct (round_normal_Q (xorb sx sy) qp (e1 - e2 - 53) lz
              (val m1 e1 / val m2 e2))
    as (m & e & Heq & Hdig & Hr & Hclose & _); try lia.
  - rewrite Hv. apply Qmult_le_compat_r; [| now apply Qlt_le_weak].
    apply Qle_shift_div_l; [exact HM2 |].
    rewrite <- inject_Z_mult, <- Zle_Qle. lia.
  - rewrite Hv. apply Qmult_le_compat_r; [| now apply Qlt_le_weak].
    apply Qle_shift_div_r; [exact HM2 |].
    rewrite <- inject_Z_mult, <- Zle_Qle. lia.
  - exists m, e. split; [exact Heq |]. split; [exact Hdig |]. split; [lia |].
    exact Hclose.
Qed.

(** A shift to the left by [k] bits multiplies by 2^k. *)
Lemma iter_xO (p k : positive) :
  Zpos (Pos.iter xO p k) = (Zpos p * 2 ^ Zpos k)%Z.
Proof.
  induction k as [| k IH] using Pos.peano_ind.
  - cbn. lia.
  - rewrite Pos.iter_succ, Pos2Z.inj_succ, Z.pow_succ_r by lia.
    rewrite (Pos2Z.inj_xO (Pos.iter xO p k)), IH. ring.
Qed.

Lemma close_refl (V v : Q) : 0 < v -> V == v -> close V v.
Proof.
  intros Hv HV. unfold close, u52. rewrite HV.
  change (2 ^ 52)%positive with 4503599627370496%positive. split; nra.
Qed.

(** Rounding an integer mantissa: the result is a normal double, equal to
    the number when the mantissa has at most 53 digits. *)
Lemma binary_round_normal (s : bool) (p : positive) (ez : Z) :
  let d := Zpos (digits2_pos p) in
  (-1074 <= ez + (d - 53) <= 970)%Z ->
  exists m e,
    binary_round prec emax s p ez = S754_finite s m e
    /\ Zpos (digits2_pos m) = 53%Z
    /\ (ez + (d - 53) <= e <= ez + (d - 53) + 1)%Z
    /\ close (val m e) (inject_Z (Zpos p) * Q2 ez)
    /\ ((d <= 53)%Z ->
        val m e == inject_Z (Zpos p) * Q2 ez /\ e = (ez + (d - 53))%Z).
Proof.
  intros d He. unfold binary_round. rewrite fexp_eq.
  fold d. rewrite Z.max_l by lia.
  pose proof (digits2_pos_bounds p) as [Plo Phi]. fold d in Plo, Phi.
  pose proof (Q2_pos ez) as Pez.
  assert (Hvpos : 0 < inject_Z (Zpos p) * Q2 ez).
  { apply Qmult_lt_0_compat; [| exact Pez]. rewrite <- (Zlt_Qlt 0). lia. }
  unfold shl_align.
  replace (d + ez - 53 - ez)%Z with (d - 53)%Z by lia.
  destruct (d - 53)%Z as [| k | k] eqn:Hk.
  - (* exactly 53 digits *)
    destruct (round_normal_Q s p ez loc_Exact (inject_Z (Zpos p) * Q2 ez))
      as (m & e & Heq & Hdig & Hr & Hclose & Hex); fold d; try lia.
    + apply Qle_refl.
    + apply Qmult_le_compat_r;
        [rewrite <- Zle_Qle; lia | now apply Qlt_le_weak].
    + fold d in Hr, Hex.
      destruct (Hex eq_refl ltac:(lia)) as [-> ->].
      exists p, ez. split; [exact Heq |]. split; [exact Hdig |].
      split; [lia |]. split; [exact Hclose |].
      intros _. split; [reflexivity | lia].
  - (* more than 53 digits: the low ones are rounded away *)
    destruct (round_normal_Q s p ez loc_Exact (inject_Z (Zpos p) * Q2 ez))
      as (m & e & Heq & Hdig & Hr & Hclose & Hex); fold d; try lia.
    + apply Qle_refl.
    + apply Qmult_le_compat_r;
        [rewrite <- Zle_Qle; lia | now apply Qlt_le_weak].
    + fold d in Hr. exists m, e. split; [exact Heq |]. split; [exact Hdig |].
      split; [lia |]. split; [exact Hclose |]. intros Hle. lia.
  - (* fewer than 53 digits: the mantissa is shifted left *)
    set (q := Pos.iter xO p k).
    assert (Hq : Zpos q = (Zpos p * 2 ^ Zpos k)%Z) by apply iter_xO.
    assert (Hdq : Zpos (digits2_pos q) = 53%Z).
    { apply digits2_pos_unique. rewrite Hq.
      assert (Hd1 : (0 < d)%Z) by (unfold d; lia).
      assert (E1 : (2 ^ (53 - 1) = 2 ^ (d - 1) * 2 ^ Zpos k)%Z)
        by (rewrite <- Z.pow_add_r by lia; f_equal; lia).
      assert (E2 : (2 ^ 53 = 2 ^ d * 2 ^ Zpos k)%Z)
        by (rewrite <- Z.pow_add_r by lia; f_equal; lia).
      rewrite E1, E2.
      assert (0 < 2 ^ Zpos k)%Z by (apply Z.pow_pos_nonneg; lia).
      nia. }
    assert (Hval : inject_Z (Zpos q) * Q2 (d + ez - 53)
                   == inject_Z (Zpos p) * Q2 ez).
    { rewrite Hq, inject_Z_mult, <- (Q2_Z (Zpos k)) by lia.
      replace ez with (Zpos k + (d + ez - 53))%Z at 2 by lia.
      rewrite Q2_add. ring. }
    destruct (round_normal_Q s q (d + ez - 53) loc_Exact
                (inject_Z (Zpos q) * Q2 (d + ez - 53)))
      as (m & e & Heq & Hdig & Hr & Hclose & Hex); rewrite ?Hdq; try lia.
    + apply Qle_refl.
    + apply Qmult_le_compat_r;
        [rewrite <- Zle_Qle; lia | apply Qlt_le_weak, Q2_pos].
    + rewrite Hdq in Hex. destruct (Hex eq_refl eq_refl) as [-> ->].
      exists q, (d + ez - 53)%Z. split; [exact Heq |]. split; [exact Hdq |].
      split; [lia |]. split.
      * apply close_refl; [exact Hvpos | exact Hval].
      * intros _. split; [exact Hval | lia].
Qed.

(** An integer below 2^53 is a double. *)
Lemma of_int_normal (n : Z) :
  (0 < n < 2 ^ 53)%Z ->
  exists m e,
    Prim2SF (Binary64.of_int n) = S754_finite false m e
    /\ Zpos (digits2_pos m) = 53%Z
    /\ (-52 <= e <= 0)%Z
    /\ val m e == inject_Z n.
Proof.
  intros Hn. unfold Binary64.of_int.
  rewrite of_uint63_spec, Uint63.of_Z_spec.
  rewrite Z.mod_small by (change Uint63.wB with (2 ^ 63)%Z; lia).
  destruct n as [| p | p]; try lia. cbn [binary_normalize].
  pose proof (digits2_pos_bounds p) as [Plo Phi].
  assert (Hd : (1 <= Zpos (digits2_pos p) <= 53)%Z).
  { split; [lia |].
    assert (Zpos (digits2_pos p) - 1 < 53)%Z
      by (apply (Z.pow_lt_mono_r_iff 2); lia). lia. }
  destruct (binary_round_normal false p 0) as (m & e & Heq & Hdig & Hr & _ & Hex);
    [lia |].
  destruct (Hex ltac:(lia)) as [Hval He].
  exists m, e. split; [exact Heq |]. split; [exact Hdig |]. split; [lia |].
  rewrite Hval. unfold Q2. cbn. ring.
Qed.

(** Comparison of two positive normal doubles is comparison of the numbers
    they stand for. *)
Lemma SFltb_normal (m1 m2 : positive) (e1 e2 : Z) :
  Zpos (digits2_pos m1) = 53%Z -> Zpos (digits2_pos m2) = 53%Z ->
  (SFltb (S754_finite false m1 e1) (S754_finite false m2 e2) = true ->
   val m1 e1 < val m2 e2)
  /\ (SFltb (S754_finite false m1 e1) (S754_finite false m2 e2) = false ->
      val m2 e2 <= val m1 e1).
Proof.
  intros H1 H2.
  pose proof (digits2_pos_bounds m1) as [L1 U1]. rewrite H1 in L1, U1.
  pose proof (digits2_pos_bounds m2) as [L2 U2]. rewrite H2 in L2, U2.
  unfold SFltb, SFcompare.
  destruct (Z.compare_spec e1 e2) as [-> | Hlt | Hgt].
  - pose proof (Q2_pos e2) as P2. unfold val.
    change (Pos.compare_cont Eq m1 m2) with (Pos.compare m1 m2).
    destruct (Pos.compare_spec m1 m2) as [-> | Hm | Hm]; split;
      try discriminate; intros _.
    + apply Qle_refl.
    + apply Qmult_lt_compat_r; [exact P2 |]. rewrite <- Zlt_Qlt. lia.
    + apply Qmult_le_compat_r; [| now apply Qlt_le_weak].
      rewrite <- Zle_Qle. lia.
  - split; [intros _ | discriminate].
    pose proof (Q2_pos e1) as P1.
    rewrite (val_shift m2 e2 e1) by lia. unfold val.
    apply Qmult_lt_compat_r; [exact P1 |]. rewrite <- Zlt_Qlt.
    assert (2 ^ 1 <= 2 ^ (e2 - e1))%Z by (apply Z.pow_le_mono_r; lia).
    nia.
  - split; [discriminate | intros _].
    pose proof (Q2_pos e2) as P2.
    rewrite (val_shift m1 e1 e2) by lia. unfold val.
    apply Qmult_le_compat_r; [| now apply Qlt_le_weak]. rewrite <- Zle_Qle.
    assert (2 ^ 1 <= 2 ^ (e1 - e2))%Z by (apply Z.pow_le_mono_r; lia).
    nia.
Qed.

(** Aligning a mantissa to a lower exponent. *)
Lemma shl_align_fst (m : positive) (e ez : Z) :
  (ez <= e)%Z -> Zpos (fst (shl_align m e ez)) = (Zpos m * 2 ^ (e - ez))%Z.
Proof.
  intros He. unfold shl_align.
  destruct (ez - e)%Z as [| k | k] eqn:Hk; cbn [fst]; try lia.
  - replace (e - ez)%Z with 0%Z by lia. cbn. lia.
  - rewrite iter_xO. f_equal. f_equal. lia.
Qed.

(** Subtraction of two positive normal doubles. *)
Lemma SFsub_normal (m1 m2 : positive) (e1 e2 : Z) :
  Zpos (digits2_pos m1) = 53%Z -> Zpos (digits2_pos m2) = 53%Z ->
  (-1000 <= e1 <= 900)%Z -> (-1000 <= e2 <= 900)%Z ->
  let z := val m1 e1 - val m2 e2 in
  (z == 0
   /\ SFsub prec emax (S754_finite false m1 e1) (S754_finite false m2 e2)
      = S754_zero false)
  \/ (exists s m e,
        SFsub prec emax (S754_finite false m1 e1) (S754_finite false m2 e2)
        = S754_finite s m e
        /\ Zpos (digits2_pos m) = 53%Z
        /\ (Z.min e1 e2 - 52 <= e <= Z.max e1 e2 + 1)%Z
        /\ if s then z < 0 /\ close (val m e) (- z)
           else 0 < z /\ close (val m e) z).
Proof.
  intros H1 H2 He1 He2 z. cbn [SFsub cond_Zopp].
  set (ez := Z.min e1 e2).
  rewrite !shl_align_fst by (unfold ez; lia).
  pose proof (digits2_pos_bounds m1) as [L1 U1]. rewrite H1 in L1, U1.
  pose proof (digits2_pos_bounds m2) as [L2 U2]. rewrite H2 in L2, U2.
  set (Z1 := (Zpos m1 * 2 ^ (e1 - ez))%Z).
  set (Z2 := (Zpos m2 * 2 ^ (e2 - ez))%Z).
  pose proof (Q2_pos ez) as Pez.
  assert (Hz : z == inject_Z (Z1 - Z2) * Q2 ez).
  { unfold z. rewrite (val_shift m1 e1 ez), (val_shift m2 e2 ez)
      by (unfold ez; lia).
    fold Z1 Z2. unfold Zminus. rewrite inject_Z_plus, inject_Z_opp. ring. }
  set (D := (Z.max e1 e2 - ez)%Z).
  assert (HD : (0 <= D)%Z) by (unfold D, ez; lia).
  assert (Hp1 : (0 < 2 ^ (e1 - ez) <= 2 ^ D)%Z).
  { split; [apply Z.pow_pos_nonneg; unfold ez; lia |].
    apply Z.pow_le_mono_r; unfold D, ez; lia. }
  assert (Hp2 : (0 < 2 ^ (e2 - ez) <= 2 ^ D)%Z).
  { split; [apply Z.pow_pos_nonneg; unfold ez; lia |].
    apply Z.pow_le_mono_r; unfold D, ez; lia. }
  assert (Habs : (Z.abs (Z1 - Z2) < 2 ^ (53 + D))%Z).
  { rewrite Z.pow_add_r by lia. unfold Z1, Z2. nia. }
  assert (Hdig : forall p, Zpos p = Z.abs (Z1 - Z2) ->
                           (1 <= Zpos (digits2_pos p) <= 53 + D)%Z).
  { intros p Hp. split; [lia |].
    pose proof (digits2_pos_bounds p) as [Plo _]. rewrite Hp in Plo.
    assert (Zpos (digits2_pos p) - 1 < 53 + D)%Z
      by (apply (Z.pow_lt_mono_r_iff 2); lia). lia. }
  destruct (Z1 - Z2)%Z as [| p | p] eqn:Ezz; cbn [binary_normalize].
  - left. split; [| reflexivity]. rewrite Hz. ring.
  - right. specialize (Hdig p eq_refl).
    destruct (binary_round_normal false p ez)
      as (m & e & Heq & Hd & Hr & Hclose & _);
      [unfold D, ez in *; lia |].
    exists false, m, e. split; [exact Heq |]. split; [exact Hd |].
    split; [unfold D, ez in *; lia |].
    assert (Hzpos : 0 < z).
    { rewrite Hz. apply Qmult_lt_0_compat; [| exact Pez].
      rewrite <- (Zlt_Qlt 0). lia. }
    split; [exact Hzpos |].
    destruct Hclose as [C1 C2]. unfold close. rewrite Hz. split; assumption.
  - right. specialize (Hdig p eq_refl).
    destruct (binary_round_normal true p ez)
      as (m & e & Heq & Hd & Hr & Hclose & _);
      [unfold D, ez in *; lia |].
    exists true, m, e. split; [exact Heq |]. split; [exact Hd |].
    split; [unfold D, ez in *; lia |].
    assert (Hneg : - z == inject_Z (Zpos p) * Q2 ez).
    { rewrite Hz. change (Z.neg p) with (- Zpos p)%Z.
      rewrite inject_Z_opp. ring. }
    assert (Hzneg : z < 0).
    { assert (0 < - z); [| lra].
      rewrite Hneg. apply Qmult_lt_0_compat; [| exact Pez].
      rewrite <- (Zlt_Qlt 0). lia. }
    split; [exact Hzneg |].
    destruct Hclose as [C1 C2]. unfold close. rewrite Hneg. split; assumption.
Qed.

Lemma Q2_opp (e : Z) : Q2 (- e) == / Q2 e.
Proof. unfold Q2. apply Qpower_opp. Qed.

(** The number a finite double stands for. *)
Lemma exact_finite (f : float) (s : bool) (m : positive) (e : Z) :
  Prim2SF f = S754_finite s m e ->
  exists q, Binary64.exact f = Some q
            /\ q == (if s then - val m e else val m e).
Proof.
  intros Hf. unfold Binary64.exact. rewrite Hf.
  eexists. split; [reflexivity |].
  assert (Hneg : inject_Z (Z.neg m) == - inject_Z (Zpos m)).
  { change (Z.neg m) with (- Zpos m)%Z. now rewrite inject_Z_opp. }
  pose proof (Q2_pos e) as Pe.
  destruct (Z.leb_spec 0 e) as [He | He]; cbv beta iota zeta.
  - rewrite inject_Z_mult. unfold val.
    destruct s; [rewrite Hneg |]; rewrite <- (Q2_Z e) by lia; ring.
  - assert (Hpow : (0 < 2 ^ (- e))%Z) by (apply Z.pow_pos_nonneg; lia).
    unfold val.
    destruct s; rewrite Qmake_Qdiv, Z2Pos.id by lia; [rewrite Hneg |];
      rewrite <- (Q2_Z (- e)) by lia; rewrite Q2_opp; field; lra.
Qed.

Lemma exact_zero (f : float) (s : bool) :
  Prim2SF f = S754_zero s -> Binary64.exact f = Some 0.
Proof. intros Hf. unfold Binary64.exact. now rewrite Hf. Qed.

(** A finite double is not NaN. *)
Lemma is_nan_finite (f : float) (s : bool) (m : positive) (e : Z) :
  Prim2SF f = S754_finite s m e -> PrimFloat.is_nan f = false.
Proof.
  intros Hf. unfold PrimFloat.is_nan. rewrite FloatAxioms.eqb_spec, Hf.
  unfold SFeqb, SFcompare. rewrite Z.compare_refl.
  change (Pos.compare_cont Eq m m) with (Pos.compare m m).
  rewrite Pos.compare_refl. now destruct s.
Qed.

(** *** The operations of the compositor, on doubles that stand for
    numbers *)
Lemma stands_pos f v lo hi : stands f v lo hi -> 0 < v.
Proof. intros (m & e & _ & _ & _ & <-). apply val_pos. Qed.

Lemma of_int_stands (n : Z) :
  (0 < n < 2 ^ 53)%Z -> stands (Binary64.of_int n) (inject_Z n) (-52) 0.
Proof.
  intros Hn. destruct (of_int_normal n Hn) as (m & e & H1 & H2 & H3 & H4).
  now exists m, e.
Qed.

Lemma div_stands (a b : float) (va vb : Q) (la ha lb hb : Z) :
  stands a va la ha -> stands b vb lb hb ->
  (-900 <= la - hb)%Z -> (ha - lb <= 900)%Z ->
  exists v, stands (PrimFloat.div a b) v (la - hb - 53) (ha - lb - 51)
            /\ close v (va / vb).
Proof.
  intros (m1 & e1 & Ha & D1 & R1 & V1) (m2 & e2 & Hb & D2 & R2 & V2) Hlo Hhi.
  destruct (SFdiv_normal false false m1 m2 e1 e2 D1 D2 ltac:(lia))
    as (m & e & Heq & Hd & Hr & Hc).
  exists (val m e). split.
  - exists m, e. rewrite div_spec, Ha, Hb. unfold SF64div.
    split; [exact Heq |]. split; [exact Hd |]. split; [lia | reflexivity].
  - unfold close in *. rewrite <- V1, <- V2. exact Hc.
Qed.

Lemma mul_stands (a b : float) (va vb : Q) (la ha lb hb : Z) :
  stands a va la ha -> stands b vb lb hb ->
  (-1000 <= la + lb)%Z -> (ha + hb <= 800)%Z ->
  exists v, stands (PrimFloat.mul a b) v (la + lb + 52) (ha + hb + 54)
            /\ close v (va * vb).
Proof.
  intros (m1 & e1 & Ha & D1 & R1 & V1) (m2 & e2 & Hb & D2 & R2 & V2) Hlo Hhi.
  destruct (SFmul_normal false false m1 m2 e1 e2 D1 D2 ltac:(lia))
    as (m & e & Heq & Hd & Hr & Hc).
  exists (val m e). split.
  - exists m, e. rewrite mul_spec, Ha, Hb. unfold SF64mul.
    split; [exact Heq |]. split; [exact Hd |]. split; [lia | reflexivity].
  - unfold close in *. rewrite <- V1, <- V2. exact Hc.
Qed.

Lemma min_stands (a b : float) (va vb : Q) (lo hi : Z) :
  stands a va lo hi -> stands b vb lo hi ->
  exists v, stands (Binary64.Math_min a b) v lo hi
            /\ v <= va /\ v <= vb /\ (v == va \/ v == vb).
Proof.
  intros Sa Sb. pose proof Sa as (m1 & e1 & Ha & D1 & R1 & V1).
  pose proof Sb as (m2 & e2 & Hb & D2 & R2 & V2).
  unfold Binary64.Math_min.
  rewrite (is_nan_finite a _ _ _ Ha), (is_nan_finite b _ _ _ Hb). cbn [orb].
  destruct (SFltb_normal m2 m1 e2 e1 D2 D1) as [Hlt Hge].
  rewrite ltb_spec, Hb, Ha.
  destruct (SFltb (S754_finite false m2 e2) (S754_finite false m1 e1)).
  - specialize (Hlt eq_refl). exists vb. split; [exact Sb |].
    rewrite <- V1, <- V2. split; [now apply Qlt_le_weak |].
    split; [apply Qle_refl | now right].
  - specialize (Hge eq_refl). exists va. split; [exact Sa |].
    rewrite <- V1, <- V2. split; [apply Qle_refl |].
    split; [exact Hge | now left].
Qed.

Ltac expose_u52 :=
  unfold close, u52 in *;
  change (2 ^ 52)%positive with 4503599627370496%positive in *.

(** The offset [(c - s) / 2] as the browser computes it: it has the sign of
    [c - s] and twice it lies within two roundings of [c - s]. *)
Lemma offset_exact (c s : float) (vc vs : Q) :
  stands c vc (-52) 0 -> stands s vs (-200) 100 ->
  exists X,
    Binary64.exact (PrimFloat.div (PrimFloat.sub c s) (Binary64.of_int 2))
    = Some X
    /\ (vs <= vc ->
        0 <= X
        /\ 2 * X <= (vc - vs) * (1 + u52) * (1 + u52)
        /\ vc - vs <= 2 * X * (1 + u52) * (1 + u52))
    /\ (vc <= vs ->
        X <= 0
        /\ - (2 * X) <= (vs - vc) * (1 + u52) * (1 + u52)
        /\ vs - vc <= - (2 * X) * (1 + u52) * (1 + u52)).
Proof.
  intros (m1 & e1 & Hc & D1 & R1 & V1) (m2 & e2 & Hs & D2 & R2 & V2).
  destruct (of_int_normal 2 ltac:(lia)) as (mt & et & Ht & Dt & Rt & Vt).
  change (inject_Z 2) with 2 in Vt.
  destruct (SFsub_normal m1 m2 e1 e2 D1 D2 ltac:(lia) ltac:(lia))
    as [[Hz Hsub] | (sg & m & e & Hsub & Dm & Rm & Hsg)].
  - exists 0. split.
    + apply (exact_zero _ false).
      rewrite div_spec, sub_spec, Hc, Hs, Ht. unfold SF64div, SF64sub.
      rewrite Hsub. reflexivity.
    + rewrite V1, V2 in Hz. expose_u52. split; intros Hle; repeat split; lra.
  - destruct (SFdiv_normal sg false m mt e et Dm Dt ltac:(lia))
      as (mx & ex & Hdiv & Dx & Rx & Cx).
    rewrite Bool.xorb_false_r in Hdiv.
    assert (Hx : Prim2SF (PrimFloat.div (PrimFloat.sub c s) (Binary64.of_int 2))
                 = S754_finite sg mx ex).
    { rewrite div_spec, sub_spec, Hc, Hs, Ht. unfold SF64div, SF64sub.
      rewrite Hsub. exact Hdiv. }
    destruct (exact_finite _ _ _ _ Hx) as (X & HX & EX).
    exists X. split; [exact HX |].
    pose proof (val_pos m e) as Pm. pose proof (val_pos mx ex) as Px.
    assert (Hhalf : val m e / val mt et == val m e * (1 # 2))
      by (rewrite Vt; field).
    unfold close in Cx. rewrite Hhalf in Cx.
    destruct sg; cbv beta zeta in Hsg; destruct Hsg as [Hsign Cm];
      unfold close in Cm; rewrite V1, V2 in Hsign, Cm; expose_u52;
      split; intros Hle; repeat split; lra.
Qed.

Lemma stands_weaken f v lo hi lo' hi' :
  stands f v lo hi -> (lo' <= lo)%Z -> (hi <= hi')%Z -> stands f v lo' hi'.
Proof.
  intros (m & e & H1 & H2 & H3 & H4) Hlo Hhi. exists m, e.
  repeat split; try assumption; lia.
Qed.

Lemma stands_exact f v lo hi :
  stands f v lo hi -> exists q, Binary64.exact f = Some q /\ q == v.
Proof.
  intros (m & e & H1 & _ & _ & H4).
  destruct (exact_finite f false m e H1) as (q & Hq & Eq).
  exists q. split; [exact Hq |]. now rewrite Eq.
Qed.

(** One axis of the fit: the scaled side and the offset. *)
Lemma axis_within_tolerance (C N : Z) (r : float) (R : Q) :
  (0 < C < 2 ^ 53)%Z -> (0 < N < 2 ^ 53)%Z ->
  stands r R (-105) 1 ->
  R <= inject_Z C / inject_Z N * (1 + u52) ->
  let s := PrimFloat.mul (Binary64.of_int N) r in
  let o := PrimFloat.div (PrimFloat.sub (Binary64.of_int C) s)
                         (Binary64.of_int 2) in
  exists S X,
    Binary64.exact s = Some S /\ Binary64.exact o = Some X
    /\ close S (inject_Z N * R)
    /\ - (inject_Z C * tolerance) <= X
    /\ X + S <= inject_Z C * (1 + tolerance)
    /\ Qabs (2 * X - (inject_Z C - S)) <= inject_Z C * tolerance.
Proof.
  intros HC HN Sr HR s o.
  pose proof (of_int_stands C HC) as Sc.
  pose proof (of_int_stands N HN) as Sn.
  destruct (mul_stands _ _ _ _ _ _ _ _ Sn Sr ltac:(lia) ltac:(lia))
    as (S & Ss & Cs).
  fold s in Ss.
  destruct (stands_exact _ _ _ _ Ss) as (S' & HS' & ES).
  destruct (offset_exact (Binary64.of_int C) s (inject_Z C) S Sc
              (stands_weaken _ _ _ _ (-200) 100 Ss ltac:(lia) ltac:(lia)))
    as (X & HX & Hpos & Hneg).
  fold o in HX.
  exists S', X. split; [exact HS' |]. split; [exact HX |].
  pose proof (stands_pos _ _ _ _ Ss) as PS.
  pose proof (stands_pos _ _ _ _ Sr) as PR.
  assert (PC : 0 < inject_Z C) by (rewrite <- (Zlt_Qlt 0); lia).
  assert (PN : 0 < inject_Z N) by (rewrite <- (Zlt_Qlt 0); lia).
  assert (HP : inject_Z N * R <= inject_Z C * (1 + u52)).
  { apply Qle_trans
      with (inject_Z N * (inject_Z C / inject_Z N * (1 + u52))).
    - apply Qmult_le_l; assumption.
    - apply Qle_lteq. right. field. lra. }
  set (c := inject_Z C) in *. set (P := inject_Z N * R) in *.
  clearbody c P. clear HR.
  assert (Hclose : close S' P)
    by (unfold close in *; rewrite ES; exact Cs).
  split; [exact Hclose |].
  rewrite ES. unfold tolerance. expose_u52.
  destruct Cs as [Cs1 Cs2].
  destruct (Qlt_le_dec c S) as [Hlt | Hle].
  - destruct (Hneg (Qlt_le_weak _ _ Hlt)) as (N1 & N2 & N3).
    split; [lra |]. split; [lra |].
    apply Qabs_Qle_condition. split; lra.
  - destruct (Hpos Hle) as (P1 & P2 & P3).
    split; [lra |]. split; [lra |].
    apply Qabs_Qle_condition. split; lra.
Qed.

(** The scale factor: the smaller of the two quotients, each rounded once. *)
Lemma ratio_stands (CW CH W H : Z) :
  (0 < CW < 2 ^ 53)%Z -> (0 < CH < 2 ^ 53)%Z ->
  (0 < W < 2 ^ 53)%Z -> (0 < H < 2 ^ 53)%Z ->
  let r :=
    Binary64.Math_min
      (PrimFloat.div (Binary64.of_int CW) (Binary64.of_int W))
      (PrimFloat.div (Binary64.of_int CH) (Binary64.of_int H)) in
  exists R,
    stands r R (-105) 1
    /\ R <= inject_Z CW / inject_Z W * (1 + u52)
    /\ R <= inject_Z CH / inject_Z H * (1 + u52)
    /\ close R (Qmin (inject_Z CW / inject_Z W) (inject_Z CH / inject_Z H)).
Proof.
  intros HCW HCH HW HH r.
  destruct (div_stands _ _ _ _ _ _ _ _ (of_int_stands CW HCW)
              (of_int_stands W HW) ltac:(lia) ltac:(lia))
    as (vh & Sh & Ch).
  destruct (div_stands _ _ _ _ _ _ _ _ (of_int_stands CH HCH)
              (of_int_stands H HH) ltac:(lia) ltac:(lia))
    as (vv & Sv & Cv).
  destruct (min_stands _ _ _ _ _ _ Sh Sv) as (R & SR & Rh & Rv & Rcase).
  fold r in SR. exists R. split; [exact SR |].
  set (qh := inject_Z CW / inject_Z W) in *.
  set (qv := inject_Z CH / inject_Z H) in *.
  destruct Ch as [Ch1 Ch2]. destruct Cv as [Cv1 Cv2].
  split; [lra |]. split; [lra |].
  pose proof (stands_pos _ _ _ _ SR) as PR.
  unfold close. split.
  - destruct (Q.min_spec qh qv) as [[_ ->] | [_ ->]]; lra.
  - pose proof (Q.le_min_l qh qv). pose proof (Q.le_min_r qh qv).
    expose_u52. destruct Rcase as [E | E]; rewrite E.
    + apply Qle_trans with qh; [assumption | lra].
    + apply Qle_trans with qv; [assumption | lra].
Qed.

(** The contain fit on doubles keeps the image inside the canvas, and
    centred, up to the rounding of the four operations: within one part in
    2^50 of the canvas side. *)
Theorem contain_fit_within_tolerance
    (canvas : Compositor.Canvas) (imgWidth imgHeight : Z) :
  (0 < Compositor.width canvas < 2 ^ 53)%Z ->
  (0 < Compositor.height canvas < 2 ^ 53)%Z ->
  (0 < imgWidth < 2 ^ 53)%Z -> (0 < imgHeight < 2 ^ 53)%Z ->
  let p := Binary64.place canvas imgWidth imgHeight in
  let cw := inject_Z (Compositor.width canvas) in
  let ch := inject_Z (Compositor.height canvas) in
  exists R SW SH X Y : Q,
    Binary64.exact (Binary64.ratio p) = Some R
    /\ Binary64.exact (Binary64.scaledWidth p) = Some SW
    /\ Binary64.exact (Binary64.scaledHeight p) = Some SH
    /\ Binary64.exact (Binary64.x p) = Some X
    /\ Binary64.exact (Binary64.y p) = Some Y
    /\ close R (Qmin (cw / inject_Z imgWidth) (ch / inject_Z imgHeight))
    /\ close SW (inject_Z imgWidth * R)
    /\ close SH (inject_Z imgHeight * R)
    /\ - (cw * tolerance) <= X /\ X + SW <= cw * (1 + tolerance)
    /\ - (ch * tolerance) <= Y /\ Y + SH <= ch * (1 + tolerance)
    /\ Qabs (2 * X - (cw - SW)) <= cw * tolerance
    /\ Qabs (2 * Y - (ch - SH)) <= ch * tolerance.
Proof.
  intros HCW HCH HW HH p cw ch.
  destruct (ratio_stands _ _ _ _ HCW HCH HW HH) as (R & SR & Rh & Rv & CR).
  destruct (stands_exact _ _ _ _ SR) as (R' & HR' & ER).
  destruct (axis_within_tolerance _ _ _ _ HCW HW SR Rh)
    as (SW & X & HSW & HX & CSW & X1 & X2 & X3).
  destruct (axis_within_tolerance _ _ _ _ HCH HH SR Rv)
    as (SH & Y & HSH & HY & CSH & Y1 & Y2 & Y3).
  exists R', SW, SH, X, Y.
  split; [exact HR' |]. split; [exact HSW |]. split; [exact HSH |].
  split; [exact HX |]. split; [exact HY |].
  unfold close in *. rewrite ER.
  repeat split; try assumption; try tauto.
Qed.

(** The same, as the test [insideWithin] evaluates it. *)
Lemma fit_inside_within_tolerance
    (canvas : Compositor.Canvas) (imgWidth imgHeight : Z) :
  (0 < Compositor.width canvas < 2 ^ 53)%Z ->
  (0 < Compositor.height canvas < 2 ^ 53)%Z ->
  (0 < imgWidth < 2 ^ 53)%Z -> (0 < imgHeight < 2 ^ 53)%Z ->
  Binary64.insideWithin tolerance canvas
    (Binary64.place canvas imgWidth imgHeight) = true.
Proof.
  intros HCW HCH HW HH.
  destruct (contain_fit_within_tolerance canvas imgWidth imgHeight
              HCW HCH HW HH)
    as (R & SW & SH & X & Y & _ & HSW & HSH & HX & HY & _ & _ & _
        & X1 & X2 & Y1 & Y2 & _).
  unfold Binary64.insideWithin. rewrite HX, HY, HSW, HSH. cbv zeta.
  rewrite !andb_true_iff, !Qle_bool_iff. tauto.
Qed.

(** The two quotients of the fit are numbers. *)
Lemma quotients_are_numbers (C N : Z) :
  (0 < C < 2 ^ 53)%Z -> (0 < N < 2 ^ 53)%Z ->
  PrimFloat.is_nan (PrimFloat.div (Binary64.of_int C) (Binary64.of_int N))
  = false.
Proof.
  intros HC HN.
  destruct (div_stands _ _ _ _ _ _ _ _ (of_int_stands C HC)
              (of_int_stands N HN) ltac:(lia) ltac:(lia))
    as (v & (m & e & Hf & _) & _).
  exact (is_nan_finite _ _ _ _ Hf).
Qed.

End Binary64Rounding.

(** ** The compositor on doubles *)

Module Binary64Facts.

Import Constants.

(** On the five aspect ratios of the table, binary64 arithmetic sizes the
    canvas exactly as exact arithmetic does. *)
Lemma table_canvases_agree :
  map (fun a => option_map fst (Binary64.compose a 800 800)) ASPECT_RATIOS
  = map (fun a => option_map fst (Compositor.compose a 800 800)) ASPECT_RATIOS
  /\ map (fun a => option_map fst (Compositor.compose a 800 800)) ASPECT_RATIOS
     = map Some
         [ Compositor.mkCanvas 1024 1024; Compositor.mkCanvas 1024 576;
           Compositor.mkCanvas 576 1024; Compositor.mkCanvas 1024 768;
           Compositor.mkCanvas 768 1024 ].
Proof. split; vm_compute; reflexivity. Qed.

(** The 16:9 scenario, evaluated on doubles: canvas 1024x576, scale the
    double nearest to 0.72, scaled image 576x576, drawn at (224, 0). *)
Lemma scenario_16_9 :
  match Binary64.compose (mkAspectRatio "Landscape (16:9)" "16:9") 800 800 with
  | Some (canvas, p) =>
      canvas = Compositor.mkCanvas 1024 576
      /\ Binary64.same p
           (Binary64.mkPlacement
              (PrimFloat.div (Binary64.of_int 72) (Binary64.of_int 100))
              (Binary64.of_int 576) (Binary64.of_int 576)
              (Binary64.of_int 224) (Binary64.of_int 0)) = true
  | None => False
  end.
Proof. vm_compute. split; reflexivity. Qed.

(** Doubles round.  For some sources the product [img.height * ratio] lands
    one unit in the last place above the canvas height, as for a 100x561
    source at 16:9, where [scaledHeight] is 576.0000000000001, less than a
    billionth above 576. *)
Remark rounding_excess :
  match Binary64.compose (mkAspectRatio "Landscape (16:9)" "16:9") 100 561 with
  | Some (canvas, p) =>
      canvas = Compositor.mkCanvas 1024 576
      /\ PrimFloat.ltb (Binary64.of_int 576) (Binary64.scaledHeight p) = true
      /\ PrimFloat.ltb (Binary64.scaledHeight p)
           (PrimFloat.add (Binary64.of_int 576)
              (PrimFloat.div (Binary64.of_int 1) (Binary64.of_int 1000000000)))
         = true
  | None => False
  end.
Proof. vm_compute. repeat split. Qed.

(** Comparison of doubles is antisymmetric. *)
Lemma SFcompare_antisym (a b : spec_float) (c : comparison) :
  SFcompare a b = Some c -> SFcompare b a = Some (CompOpp c).
Proof.
  destruct a as [sa | sa | | sa ma ea]; destruct b as [sb | sb | | sb mb eb];
    cbn; try discriminate;
    try (destruct sa; intros [= <-]; reflexivity);
    try (destruct sb; intros [= <-]; reflexivity);
    try (intros [= <-]; reflexivity).
  - destruct sa, sb; intros [= <-]; reflexivity.
  - destruct sa, sb; try (intros [= <-]; reflexivity);
      rewrite (Z.compare_antisym ea eb);
      destruct (ea ?= eb)%Z; cbn; intros [= <-]; try reflexivity;
      rewrite (Pos.compare_cont_antisym ma mb Eq); cbn;
      try reflexivity; now rewrite CompOpp_involutive.
Qed.

Lemma ltb_asym (a b : float) :
  PrimFloat.ltb b a = true -> PrimFloat.ltb a b = false.
Proof.
  rewrite !ltb_spec. unfold SFltb.
  destruct (SFcompare (Prim2SF b) (Prim2SF a)) as [c|] eqn:E; [| discriminate].
  rewrite (SFcompare_antisym _ _ _ E). now destruct c.
Qed.

Lemma ltb_irrefl (a : float) : PrimFloat.ltb a a = false.
Proof.
  destruct (PrimFloat.ltb a a) eqn:E; [| reflexivity].
  now rewrite (ltb_asym a a E) in E.
Qed.

(** [Math.min] of two numbers is one of them, and neither lies below it. *)
Lemma Math_min_lower (a b : float) :
  PrimFloat.is_nan a = false -> PrimFloat.is_nan b = false ->
  (Binary64.Math_min a b = a \/ Binary64.Math_min a b = b)
  /\ PrimFloat.ltb a (Binary64.Math_min a b) = false
  /\ PrimFloat.ltb b (Binary64.Math_min a b) = false.
Proof.
  intros Ha Hb. unfold Binary64.Math_min. rewrite Ha, Hb. cbn [orb].
  destruct (PrimFloat.ltb b a) eqn:E.
  - split; [now right |]. split; [now apply ltb_asym | apply ltb_irrefl].
  - split; [now left |]. split; [apply ltb_irrefl | exact E].
Qed.

(** C2, as the code has it.  The contain fit, on the doubles the browser
    computes with.  For a canvas and a source image whose sides are positive
    integers below 2^53: the scale factor is
    [Math.min(canvasWidth / sourceWidth, canvasHeight / sourceHeight)], one
    of the two quotients with neither below it, and within one part in 2^52
    of the exact minimum; the scaled size is the source size times the scale
    factor, rounded once; the image is drawn at
    [x = (canvasWidth - scaledWidth) / 2] and
    [y = (canvasHeight - scaledHeight) / 2], every operation being the
    binary64 one, which centres it within one part in 2^50 of the canvas
    side; and the bounding box of the scaled image lies inside the canvas up
    to that same tolerance: it passes no edge of the canvas by more than one
    part in 2^50 of the canvas side.  (It does pass an edge for some
    sources: see [containment_fails_on_doubles].)  For 16:9, a bound of 1024
    and an 800x800 source the canvas is 1024x576, the scale the double
    nearest to 0.72, the scaled image 576x576, drawn at (224, 0), and its
    bounding box lies inside the canvas. *)
Theorem contain_fit_on_doubles
    (canvas : Compositor.Canvas) (imgWidth imgHeight : Z) :
  (0 < Compositor.width canvas < 2 ^ 53)%Z ->
  (0 < Compositor.height canvas < 2 ^ 53)%Z ->
  (0 < imgWidth < 2 ^ 53)%Z -> (0 < imgHeight < 2 ^ 53)%Z ->
  let cw := Binary64.of_int (Compositor.width canvas) in
  let ch := Binary64.of_int (Compositor.height canvas) in
  let hRatio := PrimFloat.div cw (Binary64.of_int imgWidth) in
  let vRatio := PrimFloat.div ch (Binary64.of_int imgHeight) in
  let p := Binary64.place canvas imgWidth imgHeight in
  (* the scale factor *)
  Binary64.ratio p = Binary64.Math_min hRatio vRatio
  /\ (Binary64.ratio p = hRatio \/ Binary64.ratio p = vRatio)
  /\ PrimFloat.ltb hRatio (Binary64.ratio p) = false
  /\ PrimFloat.ltb vRatio (Binary64.ratio p) = false
  (* the scaled size *)
  /\ Binary64.scaledWidth p
     = PrimFloat.mul (Binary64.of_int imgWidth) (Binary64.ratio p)
  /\ Binary64.scaledHeight p
     = PrimFloat.mul (Binary64.of_int imgHeight) (Binary64.ratio p)
  (* the offsets *)
  /\ Binary64.x p
     = PrimFloat.div (PrimFloat.sub cw (Binary64.scaledWidth p))
                     (Binary64.of_int 2)
  /\ Binary64.y p
     = PrimFloat.div (PrimFloat.sub ch (Binary64.scaledHeight p))
                     (Binary64.of_int 2)
  (* the numbers these doubles stand for *)
  /\ (exists R SW SH X Y : Q,
        Binary64.exact (Binary64.ratio p) = Some R
        /\ Binary64.exact (Binary64.scaledWidth p) = Some SW
        /\ Binary64.exact (Binary64.scaledHeight p) = Some SH
        /\ Binary64.exact (Binary64.x p) = Some X
        /\ Binary64.exact (Binary64.y p) = Some Y
        /\ Binary64.close R
             (Qmin (inject_Z (Compositor.width canvas) / inject_Z imgWidth)
                   (inject_Z (Compositor.height canvas) / inject_Z imgHeight))
        /\ Binary64.close SW (inject_Z imgWidth * R)
        /\ Binary64.close SH (inject_Z imgHeight * R)
        (* centred, within the tolerance *)
        /\ Qabs (2 * X - (inject_Z (Compositor.width canvas) - SW))
           <= inject_Z (Compositor.width canvas) * Binary64.tolerance
        /\ Qabs (2 * Y - (inject_Z (Compositor.height canvas) - SH))
           <= inject_Z (Compositor.height canvas) * Binary64.tolerance
        (* inside the canvas, within the tolerance *)
        /\ - (inject_Z (Compositor.width canvas) * Binary64.tolerance) <= X
        /\ X + SW
           <= inject_Z (Compositor.width canvas) * (1 + Binary64.tolerance)
        /\ - (inject_Z (Compositor.height canvas) * Binary64.tolerance) <= Y
        /\ Y + SH
           <= inject_Z (Compositor.height canvas) * (1 + Binary64.tolerance))
  /\ Binary64.insideWithin Binary64.tolerance canvas p = true
  (* the 16:9 scenario *)
  /\ match Binary64.compose Binary64.landscape 800 800 with
     | Some (canvas169, q) =>
         canvas169 = Compositor.mkCanvas 1024 576
         /\ Binary64.same q
              (Binary64.mkPlacement
                 (PrimFloat.div (Binary64.of_int 72) (Binary64.of_int 100))
                 (Binary64.of_int 576) (Binary64.of_int 576)
                 (Binary64.of_int 224) (Binary64.of_int 0)) = true
         /\ Binary64.inside canvas169 q = true
     | None => False
     end.
Proof.
  intros HCW HCH HW HH cw ch hRatio vRatio p.
  pose proof (Binary64Rounding.quotients_are_numbers _ _ HCW HW) as Nh.
  pose proof (Binary64Rounding.quotients_are_numbers _ _ HCH HH) as Nv.
  fold cw hRatio in Nh. fold ch vRatio in Nv.
  split; [reflexivity |].
  destruct (Math_min_lower hRatio vRatio Nh Nv) as (Hone & Hh & Hv).
  do 3 (split; [assumption |]).
  do 4 (split; [reflexivity |]).
  split.
  - destruct (Binary64Rounding.contain_fit_within_tolerance canvas imgWidth
                imgHeight HCW HCH HW HH)
      as (R & SW & SH & X & Y & HR & HSW & HSH & HX & HY & CR & CSW & CSH
          & X1 & X2 & Y1 & Y2 & X3 & Y3).
    exists R, SW, SH, X, Y. repeat (split; [assumption |]). assumption.
  - split;
      [now apply Binary64Rounding.fit_inside_within_tolerance |].
    vm_compute. repeat split.
Qed.

(** The theorem at 16:9 and a 100x561 source, where the bounding box passes
    the canvas: it does so within the tolerance. *)
Lemma contain_fit_on_doubles_witness :
  ((0 < 1024 < 2 ^ 53)%Z /\ (0 < 576 < 2 ^ 53)%Z
   /\ (0 < 100 < 2 ^ 53)%Z /\ (0 < 561 < 2 ^ 53)%Z)
  /\ Binary64.insideWithin Binary64.tolerance (Compositor.mkCanvas 1024 576)
       (Binary64.place (Compositor.mkCanvas 1024 576) 100 561) = true.
Proof.
  split; [repeat split; reflexivity |].
  apply (contain_fit_on_doubles (Compositor.mkCanvas 1024 576) 100 561);
    split; reflexivity.
Defined.

(** The claim C2 fails on the code: for a 100x561 source at 16:9 the canvas
    is 1024x576, the product [img.height * ratio] is the double just above
    576 and [y] is negative, about -5.7e-14; the bounding box of the scaled
    image sticks out of the canvas at the top and at the bottom. *)
Lemma containment_fails_on_doubles :
  match Binary64.compose Binary64.landscape 100 561 with
  | Some (canvas, p) =>
      canvas = Compositor.mkCanvas 1024 576
      /\ PrimFloat.ltb (Binary64.y p) (Binary64.of_int 0) = true
      /\ PrimFloat.ltb (Binary64.of_int 576) (Binary64.scaledHeight p) = true
      /\ Binary64.inside canvas p = false
  | None => False
  end.
Proof. vm_compute. repeat split. Qed.

(** The same for a 1170x2532 source at 4:3, the size of a phone
    screenshot. *)
Example containment_fails_on_screenshot :
  match Binary64.compose (mkAspectRatio "Standard (4:3)" "4:3") 1170 2532 with
  | Some (canvas, p) =>
      canvas = Compositor.mkCanvas 1024 768
      /\ Binary64.inside canvas p = false
  | None => False
  end.
Proof. vm_compute. repeat split. Qed.

End Binary64Facts.

(** ** The Drive session *)

Module AuthFacts.

Import Auth.

Local Open Scope Z_scope.

(** Settles a comparison on instants that occurs in the goal. *)
Ltac settle_comparisons :=
  repeat match goal with
         | |- context [?a =? ?b] =>
             replace (a =? b) with false by (symmetry; apply Z.eqb_neq; lia)
         | |- context [?a <? ?b] =>
             first
               [ replace (a <? b) with true by (symmetry; apply Z.ltb_lt; lia)
               | replace (a <? b) with false by (symmetry; apply Z.ltb_ge; lia) ]
         end.

Lemma truthy_string_spec (v : option string) :
  Js.truthy_string v = true <-> exists s, v = Some s /\ s <> EmptyString.
Proof.
  destruct v as [s|]; cbn.
  - destruct (String.eqb_spec s EmptyString) as [-> | Hne]; cbn; split.
    + discriminate.
    + intros (s' & [= <-] & Hs). now elim Hs.
    + intros _. now exists s.
    + reflexivity.
  - split; [discriminate | intros (s & [=] & _)].
Qed.

Lemma truthy_nonempty (token : string) :
  token <> EmptyString -> Js.truthy_string (Some token) = true.
Proof. intros Hne. apply truthy_string_spec. now exists token. Qed.

(** The test of the cache is the validity rule of the data model. *)
Lemma cacheUsable_spec (st : State) (now : Z) :
  0 <= now -> (cacheUsable st now = true <-> tokenValid st now).
Proof.
  intros Hnow. unfold cacheUsable, tokenValid.
  rewrite !andb_true_iff, truthy_string_spec. split.
  - intros [[(token & Htok & Hne) _] Hlt].
    destruct (tokenExpiry st) as [expiry|]; [| discriminate].
    exists token, expiry. repeat split; auto. now apply Z.ltb_lt.
  - intros (token & expiry & Htok & Hne & Hexp & Hlt).
    rewrite Hexp. cbn. repeat split.
    + now exists token.
    + apply negb_true_iff, Z.eqb_neq. lia.
    + now apply Z.ltb_lt.
Qed.

Section WithEnvironment.

Variable env : Env.

(** [requestAccessToken] with a token client at hand: the consent prompt is
    shown and the call ends as the provider's answer makes it end. *)
Lemma requestAccessToken_available st answer :
  clientAvailable env st = true ->
  requestAccessToken env st answer
  = match answer with
    | None => (Pending, awaitingAnswer st, [ConsentPrompt])
    | Some (at_, response) =>
        let '(out, st', evs) := onTokenResponse (awaitingAnswer st) at_ response in
        (out, st', ConsentPrompt :: evs)
    end.
Proof.
  unfold clientAvailable, requestAccessToken, initialize, awaitingAnswer.
  destruct (tokenClient st) as [cb|] eqn:Hc.
  - intros _. rewrite Hc. reflexivity.
  - destruct (String.eqb _ _); [discriminate |].
    destruct (gisLoaded env); [| discriminate].
    destruct (initTokenClientThrows env); [discriminate |].
    intros _. reflexivity.
Qed.

(** Without one, the call is rejected before any prompt. *)
Lemma requestAccessToken_unavailable st answer :
  clientAvailable env st = false ->
  exists e, requestAccessToken env st answer = (Rejected e, st, []).
Proof.
  unfold clientAvailable, requestAccessToken, initialize.
  destruct (tokenClient st) as [cb|]; [discriminate |].
  destruct (String.eqb _ _); [eexists; reflexivity |].
  destruct (gisLoaded env); [| eexists; reflexivity].
  destruct (initTokenClientThrows env); [eexists; reflexivity | discriminate].
Qed.

(** What a fulfilled [requestAccessToken] leaves behind. *)
Lemma requestAccessToken_resolved st answer token st' evs :
  requestAccessToken env st answer = (Resolved token, st', evs) ->
  exists at_ response,
    answer = Some (at_, response)
    /\ Js.truthy_string (error response) = false
    /\ token = access_token response
    /\ accessToken st' = Some token
    /\ tokenExpiry st' = Some (at_ + expires_in response * 1000)
    /\ evs = [ConsentPrompt; TokenIssued token (at_ + expires_in response * 1000)].
Proof.
  destruct (clientAvailable env st) eqn:Hc.
  - rewrite (requestAccessToken_available _ _ Hc).
    destruct answer as [[at_ response]|]; [| discriminate].
    unfold onTokenResponse.
    destruct (Js.truthy_string (error response)) eqn:Herr; [discriminate |].
    intros [= <- <- <-]. exists at_, response. repeat split; auto.
  - destruct (requestAccessToken_unavailable _ answer Hc) as [e ->].
    discriminate.
Qed.








End WithEnvironment.




(** The one-hour scenario: a token issued at [T] with [expires_in = 3600]
    authenticates at [T] + 3599 s and no longer at [T] + 3601 s. *)
Example one_hour_token (T : Z) (token : string) (cb : option Callback) :
  0 <= T -> token <> EmptyString ->
  let st := mkState (Some token) (Some (T + 3600 * 1000)) cb in
  isAuthenticated st (T + 3599 * 1000) = true
  /\ isAuthenticated st (T + 3601 * 1000) = false.
Proof.
  intros HT Hne st. unfold isAuthenticated, cacheUsable, st.
  cbn [accessToken tokenExpiry Js.truthy_number].
  rewrite (truthy_nonempty _ Hne).
  split; settle_comparisons; reflexivity.
Qed.

(** [signOut] ends the session at once: nothing is cached any more, and the
    next [getAccessToken] is a first-time acquisition. *)
Lemma signOut_clears (env : Env) (st : State) (now : Z) (answer : Answer) :
  isAuthenticated (signOut st) now = false
  /\ getAccessToken env (signOut st) now answer
     = requestAccessToken env (signOut st) answer.
Proof. split; reflexivity. Qed.

End AuthFacts.

(** ** Drive entries and listings *)

Module DriveFacts.

Import Drive.

Local Open Scope string_scope.

(** [startsWith]: the string is the prefix followed by something. *)
Lemma startsWith_spec (p s : string) :
  Js.startsWith s p = true <-> exists rest, s = p ++ rest.
Proof.
  unfold Js.startsWith. revert s.
  induction p as [| a p IH]; intros s.
  - split; [intros _; now exists s | intros _; now destruct s].
  - destruct s as [| b s]; cbn;
      [split; [discriminate | intros (rest & [=])] |].
    destruct (ascii_dec a b) as [<- | Hne].
    + rewrite IH. split; intros (rest & Hrest); exists rest.
      * now rewrite Hrest.
      * now injection Hrest.
    + split; [discriminate |]. intros (rest & [= Hab _]). now elim Hne.
Qed.

(** C8.  Classification.  An entry is a folder iff its mime type is the Drive
    folder marker, and an image iff its mime type begins with [image/]; so an
    entry with the folder marker is a folder and never an image, and an entry
    of mime type [image/png] is an image. *)
Theorem classification_rule (file : DriveFile) :
  (isFolder file = true
   <-> mimeType file = "application/vnd.google-apps.folder")
  /\ (isImageFile file = true
      <-> exists rest, mimeType file = "image/" ++ rest)
  /\ (mimeType file = "application/vnd.google-apps.folder" ->
      isFolder file = true /\ isImageFile file = false)
  /\ (mimeType file = "image/png" -> isImageFile file = true).
Proof.
  unfold isFolder, isImageFile.
  split; [apply String.eqb_eq |].
  split; [apply startsWith_spec |].
  split; intros ->; [split |]; reflexivity.
Qed.

(** The two classes exclude each other: an image is not a folder. *)
Lemma image_not_folder (file : DriveFile) :
  isImageFile file = true -> isFolder file = false.
Proof.
  unfold isImageFile, isFolder. intros Hi.
  apply startsWith_spec in Hi as [rest ->]. reflexivity.
Qed.

(** C10, as the code has it.  Once the access token is there and [fetch] has
    delivered a response: an HTTP-ok response whose JSON body has no [files]
    member makes [listFiles] resolve to an empty list (with the body's
    [nextPageToken]); with a body that decodes to a JSON object the call
    fails exactly when the response is not ok; and an HTTP-ok response whose
    body is [null] makes it fail with the [TypeError] of reading
    [data.files]. *)
Theorem listFiles_response_rule
    env net st now answer folderId pageToken accessToken st' evs response :
  Auth.getAccessToken env st now answer = (Resolved accessToken, st', evs) ->
  net (listRequest folderId pageToken accessToken) = Responded response ->
  (forall data,
      ok response = true -> json response = Json data -> files data = None ->
      listFiles env net st now answer folderId pageToken
      = (Resolved (mkListing [] (nextPageToken data)), st', evs))
  /\ (forall data,
         json response = Json data ->
         ((exists e, listFiles env net st now answer folderId pageToken
                     = (Rejected e, st', evs))
          <-> ok response = false))
  /\ (ok response = true -> json response = JsonNull ->
      listFiles env net st now answer folderId pageToken
      = (Rejected (nullMemberError "files"), st', evs)).
Proof.
  intros Htok Hnet. unfold listFiles. rewrite Htok, Hnet. split; [| split].
  - intros data Hok Hjson Hfiles. rewrite Hok, Hjson, Hfiles. reflexivity.
  - intros data Hjson. rewrite Hjson.
    destruct (ok response); cbn; split.
    + intros (e & [=]).
    + discriminate.
    + reflexivity.
    + intros _. eexists. reflexivity.
  - intros Hok Hjson. rewrite Hok, Hjson. reflexivity.
Qed.

Lemma listFiles_response_rule_witness :
  (Auth.getAccessToken Auth.demoEnv Auth.demoSession 12000 None
   = (Resolved "ya29.token", Auth.demoSession, [])
   /\ ok bodyWithoutFiles = true)
  /\ listFiles Auth.demoEnv (fun _ => Responded bodyWithoutFiles)
       Auth.demoSession 12000 None "root" None
     = (Resolved (mkListing [] (Some "page-2")), Auth.demoSession, []).
Proof.
  split; [split; reflexivity |].
  apply (proj1 (listFiles_response_rule Auth.demoEnv
                  (fun _ => Responded bodyWithoutFiles) Auth.demoSession 12000
                  None "root" None "ya29.token" Auth.demoSession []
                  bodyWithoutFiles eq_refl eq_refl)
               (mkDriveApiResponse None (Some "page-2")));
    reflexivity.
Defined.

(** A listing call fails although every request would get an HTTP-ok answer:
    the consent prompt is denied, so no request is ever sent. *)
Lemma listFiles_fails_without_response :
  (forall request, exists response,
      alwaysOk request = Responded response /\ ok response = true)
  /\ fst (fst (listFiles Auth.demoEnv alwaysOk Auth.fresh 1000 consentDenied
                 "root" None))
     = Rejected (ErrorObject "access_denied").
Proof.
  split; [| reflexivity].
  intros request. eexists. split; reflexivity.
Qed.

(** It fails as well when [fetch] rejects, when the body cannot be decoded,
    and when the body is [null]. *)
Lemma listFiles_other_failures env net st now answer folderId pageToken
    accessToken st' evs :
  Auth.getAccessToken env st now answer = (Resolved accessToken, st', evs) ->
  (forall e,
      net (listRequest folderId pageToken accessToken) = FetchRejected e ->
      listFiles env net st now answer folderId pageToken
      = (Rejected e, st', evs))
  /\ (forall e text,
         net (listRequest folderId pageToken accessToken)
         = Responded (mkResponse true text (Undecodable e)) ->
         listFiles env net st now answer folderId pageToken
         = (Rejected e, st', evs))
  /\ (forall text,
         net (listRequest folderId pageToken accessToken)
         = Responded (mkResponse true text JsonNull) ->
         listFiles env net st now answer folderId pageToken
         = (Rejected (nullMemberError "files"), st', evs)).
Proof.
  intros Htok. unfold listFiles. rewrite Htok.
  split; [intros e Hnet | split; [intros e text Hnet | intros text Hnet]];
    rewrite Hnet; reflexivity.
Qed.

(** An HTTP-ok answer is no guarantee: on the body [null] the listing fails
    in a session whose token is valid. *)
Example listFiles_null_body :
  ok nullBody = true
  /\ listFiles Auth.demoEnv (fun _ => Responded nullBody) Auth.demoSession
       12000 None "root" None
     = (Rejected (ErrorObject "Cannot read properties of null (reading 'files')"),
        Auth.demoSession, []).
Proof. split; reflexivity. Qed.

(** A rejected token acquisition is the failure of the listing call. *)
Lemma listFiles_propagates_rejection env net st now answer folderId pageToken
    e st' evs :
  Auth.getAccessToken env st now answer = (Rejected e, st', evs) ->
  listFiles env net st now answer folderId pageToken = (Rejected e, st', evs).
Proof. intros Htok. unfold listFiles. rewrite Htok. reflexivity. Qed.

End DriveFacts.

(** ** The folder browser *)

Module BrowserFacts.

Import Drive Browser.

Local Open Scope nat_scope.
Local Open Scope string_scope.

Lemma last_of_snoc {A : Type} (l : list A) (a : A) :
  nth_error (l ++ [a]) (List.length (l ++ [a]) - 1) = Some a.
Proof.
  rewrite length_app. cbn [List.length].
  replace (List.length l + 1 - 1) with (List.length l) by lia.
  rewrite nth_error_app2 by lia. now rewrite Nat.sub_diag.
Qed.

Lemma firstn_succ_nonempty {A : Type} (n : nat) (l : list A) :
  l <> [] -> firstn (n + 1) l <> [] /\ hd_error (firstn (n + 1) l) = hd_error l.
Proof.
  destruct l as [| a l]; [intros H; now elim H |].
  intros _. rewrite Nat.add_1_r. cbn. split; [discriminate | reflexivity].
Qed.

Lemma last_of_nonempty {A : Type} (l : list A) :
  l <> [] -> exists a, nth_error l (List.length l - 1) = Some a.
Proof.
  intros Hne. destruct (nth_error l (List.length l - 1)) as [a|] eqn:E.
  - now exists a.
  - apply nth_error_None in E. destruct l; [now elim Hne | cbn in E; lia].
Qed.

(** Starting a listing and settling one leave the navigation state alone. *)
Lemma loadFiles_navigation folderId s :
  navigationState (fst (loadFiles folderId s)) = navigationState s.
Proof. reflexivity. Qed.

Lemma settle_navigation k r s :
  navigationState (fst (step s (Settle k r))) = navigationState s.
Proof.
  cbn [step]. destruct (nth_error (inFlight s) k); [| reflexivity].
  destruct r; reflexivity.
Qed.

Lemma handleFolderClick_invariant folder s :
  navigationInvariant s -> navigationInvariant (fst (handleFolderClick folder s)).
Proof.
  intros (Hne & Hhd & _). unfold navigationInvariant. cbn.
  repeat split.
  - intros Happ. now apply app_eq_nil in Happ as [_ [=]].
  - destruct (breadcrumb (ui s)); [now elim Hne | exact Hhd].
  - now rewrite last_of_snoc.
Qed.

Lemma handleBreadcrumbClick_invariant index s :
  navigationInvariant s ->
  navigationInvariant (fst (handleBreadcrumbClick index s)).
Proof.
  intros (Hne & Hhd & _). unfold handleBreadcrumbClick.
  destruct (firstn_succ_nonempty index _ Hne) as [Hne' Hhd'].
  destruct (last_of_nonempty _ Hne') as [target Htarget].
  rewrite Htarget. unfold navigationInvariant. cbn.
  repeat split.
  - exact Hne'.
  - now rewrite Hhd'.
  - now rewrite Htarget.
Qed.

Lemma step_invariant s e :
  navigationInvariant s -> navigationInvariant (fst (step s e)).
Proof.
  intros Hinv. destruct e as [folderId | folder | index | file | k r]; cbn [step].
  - exact Hinv.
  - now apply handleFolderClick_invariant.
  - now apply handleBreadcrumbClick_invariant.
  - unfold handleFileClick. destruct (isFolder file).
    + now apply handleFolderClick_invariant.
    + destruct (isImageFile file); exact Hinv.
  - destruct (nth_error (inFlight s) k); [| exact Hinv].
    destruct r; exact Hinv.
Qed.

Lemma run_invariant events : forall s,
  navigationInvariant s -> navigationInvariant (run s events).
Proof.
  induction events as [| e rest IH]; intros s Hinv; cbn [run].
  - exact Hinv.
  - apply IH, step_invariant, Hinv.
Qed.

Lemma initial_invariant : navigationInvariant initial.
Proof. repeat split. discriminate. Qed.

(** From a state that satisfies the invariant no handler throws. *)
Lemma handlers_never_throw s e :
  navigationInvariant s -> ~ In Threw (snd (step s e)).
Proof.
  intros (Hne & _ & _).
  assert (Hclick : forall folder,
             ~ In Threw (snd (handleFolderClick folder s)))
    by (intros folder [[=] | []]).
  destruct e as [folderId | folder | index | file | k r]; cbn [step].
  - intros [[=] | []].
  - apply Hclick.
  - unfold handleBreadcrumbClick.
    destruct (firstn_succ_nonempty index _ Hne) as [Hne' _].
    destruct (last_of_nonempty _ Hne') as [target ->].
    intros [[=] | []].
  - unfold handleFileClick. destruct (isFolder file); [apply Hclick |].
    destruct (isImageFile file); [intros [[=] | []] | intros []].
  - destruct (nth_error (inFlight s) k); intros [].
Qed.

(** C5.  The navigation invariant.  After any finite sequence of
    [enterFolder] and [jumpToBreadcrumb] actions from the initial state (and,
    more generally, of any events of the browser, listings settling in
    between included) the breadcrumb path is not empty, its first element is
    the root sentinel, and the id of its last element is the current
    folder. *)
Theorem navigation_invariant_holds :
  (forall actions : list Navigation,
      navigationInvariant (run initial (map navigationEvent actions)))
  /\ (forall events : list Event, navigationInvariant (run initial events)).
Proof.
  split; intros; apply run_invariant, initial_invariant.
Qed.

(** C9, as the code has it.  [selectEntry], the handler [handleFileClick].
    On a folder it is [enterFolder] on that entry: the entry's id and name
    are appended to the breadcrumb path, the entry becomes the current
    folder, and its listing is asked for.  On an image it hands the entry to
    the caller through the [onSelectFile] prop and does nothing else: no
    state changes, no listing is asked for, and the browser goes on exactly as
    it would have without the click, so navigation is not ended by the
    selection.  On any other entry it does nothing at all. *)
Theorem selectEntry_rule (file : DriveFile) (s : Session) :
  (isFolder file = true ->
   handleFileClick file s = handleFolderClick file s
   /\ step s (FileClick file) = step s (navigationEvent (enterFolder file))
   /\ handleFileClick file s
      = (mkSession
           (mkState (files (ui s)) (id file)
                    (breadcrumb (ui s)
                     ++ [mkBreadcrumbItem (id file) (name file)])%list
                    true None (isAuthenticated (ui s)))
           (inFlight s ++ [id file])%list,
         [ListFilesCalled (id file)])
   /\ navigationState (fst (handleFileClick file s))
      = navigated (enterFolder file) s)
  /\ (isImageFile file = true ->
      handleFileClick file s = (s, [FileSelected file])
      /\ navigationState (fst (handleFileClick file s)) = navigationState s
      /\ forall events,
           run (fst (step s (FileClick file))) events = run s events)
  /\ (isFolder file = false -> isImageFile file = false ->
      handleFileClick file s = (s, [])).
Proof.
  split; [| split].
  - intros Hf. cbn [step navigationEvent]. unfold handleFileClick.
    rewrite Hf. repeat split.
  - intros Hi.
    assert (Hclick : handleFileClick file s = (s, [FileSelected file])).
    { unfold handleFileClick.
      now rewrite (DriveFacts.image_not_folder file Hi), Hi. }
    cbn [step]. rewrite Hclick. repeat split.
  - intros Hf Hi. unfold handleFileClick. rewrite Hf, Hi. reflexivity.
Qed.

(** The claim C9 fails on the code: selecting an image does not end
    navigation.  With the content of Photos on display, a click on the image
    [beach.png] hands it to the caller and leaves the browser as it is; a
    click on [My Drive] then navigates to the root and asks for its listing,
    and a second click on the image selects it again. *)
Lemma selection_does_not_end_navigation :
  let selected := step photosShown (FileClick beachImage) in
  files (ui photosShown) = [beachImage]
  /\ isImageFile beachImage = true
  /\ selected = (photosShown, [FileSelected beachImage])
  /\ navigationState (fst selected)
     = ([rootItem; mkBreadcrumbItem "f1" "Photos"], "f1")
  /\ step (fst selected) (BreadcrumbClick 0)
     = (mkSession (mkState [beachImage] "root" [rootItem] true None false)
                  ["root"],
        [ListFilesCalled "root"])
  /\ step (fst selected) (FileClick beachImage)
     = (photosShown, [FileSelected beachImage]).
Proof. cbv zeta. repeat split. Qed.

(** C3, as the code has it.  A navigation action puts the new breadcrumb path
    and the new current folder in place at once, before its listing settles,
    and asks for the listing of the new current folder.  When that listing
    fails, the navigation state keeps the values the action gave it; the
    failure only records its message and ends the loading state, the
    displayed list staying as it was. *)
Theorem navigation_applied_before_listing
    (a : Navigation) (s : Session) (e : Thrown) :
  breadcrumb (ui s) <> [] ->
  let acted := step s (navigationEvent a) in
  let failed := fst (step (fst acted) (Settle (List.length (inFlight s)) (Failed e))) in
  navigationState (fst acted) = navigated a s
  /\ snd acted = [ListFilesCalled (snd (navigated a s))]
  /\ inFlight (fst acted) = (inFlight s ++ [snd (navigated a s)])%list
  /\ navigationState failed = navigated a s
  /\ files (ui failed) = files (ui s)
  /\ error (ui failed) = Some (loadErrorMessage e)
  /\ loading (ui failed) = false
  /\ inFlight failed = inFlight s.
Proof.
  intros Hne acted failed.
  assert (Hact : navigationState (fst acted) = navigated a s
                 /\ snd acted = [ListFilesCalled (snd (navigated a s))]
                 /\ inFlight (fst acted)
                    = (inFlight s ++ [snd (navigated a s)])%list
                 /\ files (ui (fst acted)) = files (ui s)).
  { subst acted. destruct a as [entry | index]; cbn [navigationEvent step].
    - repeat split.
    - unfold handleBreadcrumbClick, navigated.
      destruct (firstn_succ_nonempty index _ Hne) as [Hne' _].
      destruct (last_of_nonempty _ Hne') as [target ->].
      repeat split. }
  destruct Hact as (Hnav & Heff & Hfl & Hfiles).
  assert (Hk : nth_error (inFlight (fst acted)) (List.length (inFlight s))
               = Some (snd (navigated a s))).
  { rewrite Hfl, nth_error_app2 by lia. now rewrite Nat.sub_diag. }
  assert (Hrm : removeAt (List.length (inFlight s)) (inFlight (fst acted))
                = inFlight s).
  { rewrite Hfl. clear. induction (inFlight s) as [| x l IH]; cbn.
    - reflexivity.
    - now rewrite IH. }
  subst failed. cbn [step]. rewrite Hk. cbn [fst ui inFlight].
  rewrite Hrm. repeat split; try assumption.
Qed.

Lemma navigation_applied_before_listing_witness :
  breadcrumb (ui rootShown) <> []
  /\ navigationState
       (fst (step (fst (step rootShown (navigationEvent (enterFolder photosFolder))))
                  (Settle (List.length (inFlight rootShown))
                          (Failed (ErrorObject "Forbidden")))))
     = navigated (enterFolder photosFolder) rootShown.
Proof.
  split; [discriminate |].
  apply (navigation_applied_before_listing (enterFolder photosFolder) rootShown
           (ErrorObject "Forbidden")).
  discriminate.
Defined.

(** The claim C3 fails on the code: with the root shown, entering the folder
    Photos and then seeing its listing fail leaves the breadcrumb path and the
    current folder at Photos, not at their values before the action. *)
Lemma failed_listing_keeps_navigation :
  let before := rootShown in
  let after := run before [FolderClick photosFolder; Settle 0 forbidden] in
  navigationState before = ([rootItem], "root")
  /\ navigationState after
     = ([rootItem; mkBreadcrumbItem "f1" "Photos"], "f1")
  /\ error (ui after) = Some "Failed to fetch files: Forbidden"
  /\ inFlight after = []
  /\ navigationState after <> navigationState before.
Proof. cbv zeta. repeat split. discriminate. Qed.

(** C4, as the code has it.  A listing that settles successfully always
    replaces the displayed list by its own result, whichever folder is
    current by then and whichever other calls are still in flight; it changes
    neither breadcrumb path nor current folder.  Nothing discards a stale
    result: the displayed list is that of the call that settled last. *)
Theorem settled_listing_always_displayed
    (s : Session) (k : nat) (folderId : string) (listing : Listing) :
  nth_error (inFlight s) k = Some folderId ->
  let settled := fst (step s (Settle k (Fulfilled listing))) in
  files (ui settled) = listed listing
  /\ navigationState settled = navigationState s
  /\ inFlight settled = removeAt k (inFlight s)
  /\ loading (ui settled) = false
  /\ error (ui settled) = error (ui s).
Proof.
  intros Hk settled. subst settled. cbn [step]. rewrite Hk.
  repeat split.
Qed.

Lemma settled_listing_always_displayed_witness :
  nth_error ["f1"; "root"] 0 = Some "f1"
  /\ files (ui (fst (step (mkSession (ui rootShown) ["f1"; "root"])
                          (Settle 0 (Fulfilled (mkListing [beachImage] None))))))
     = [beachImage].
Proof.
  split; [reflexivity |].
  apply (settled_listing_always_displayed
           (mkSession (ui rootShown) ["f1"; "root"]) 0 "f1"
           (mkListing [beachImage] None)).
  reflexivity.
Defined.

(** The claim C4 fails on the code: with the root shown, the user enters
    Photos and, before that listing arrives, goes back to [My Drive]; the
    listing of the root arrives first and the one of Photos last.  The
    current folder is then the root while the displayed list is the content
    of Photos. *)
Lemma stale_listing_displayed :
  let clicked := run rootShown [FileClick photosFolder; BreadcrumbClick 0] in
  let after :=
    run clicked [Settle 1 (sampleDrive "root"); Settle 0 (sampleDrive "f1")] in
  inFlight clicked = ["f1"; "root"]
  /\ inFlight after = []
  /\ navigationState after = ([rootItem], "root")
  /\ files (ui after) = [beachImage]
  /\ sampleDrive "root" = Fulfilled (mkListing [photosFolder; notesDocument] None)
  /\ ~ displaysCurrentFolder sampleDrive after.
Proof.
  cbv zeta. repeat split.
  intros (listing & Hserved & Hfiles).
  injection Hserved as <-. discriminate Hfiles.
Qed.

End BrowserFacts.

(* ================================================================== *)
(** * Further properties of the code *)

(** ** More on the compositor on doubles *)

Module Binary64More.

Local Abbreviation u52 := Binary64.u52.
Local Abbreviation tolerance := Binary64.tolerance.

Local Open Scope Q_scope.

(** X1.  The fit is tight and keeps proportions, up to rounding.  For a
    canvas and a source image whose sides are positive integers below 2^53:
    the scaled image has the proportions of the source within two parts in
    2^52; it spans the canvas on at least one axis, where its side is within
    two parts in 2^52 of the canvas side and its offset within one part in
    2^50 of the canvas side from zero; and no scale that keeps the image
    inside the canvas is larger than the scale factor by more than one part
    in 2^52. *)
Theorem contain_fit_is_tight
    (canvas : Compositor.Canvas) (imgWidth imgHeight : Z) :
  (0 < Compositor.width canvas < 2 ^ 53)%Z ->
  (0 < Compositor.height canvas < 2 ^ 53)%Z ->
  (0 < imgWidth < 2 ^ 53)%Z -> (0 < imgHeight < 2 ^ 53)%Z ->
  let p := Binary64.place canvas imgWidth imgHeight in
  let cw := inject_Z (Compositor.width canvas) in
  let ch := inject_Z (Compositor.height canvas) in
  let w := inject_Z imgWidth in
  let h := inject_Z imgHeight in
  exists R SW SH X Y : Q,
    Binary64.exact (Binary64.ratio p) = Some R
    /\ Binary64.exact (Binary64.scaledWidth p) = Some SW
    /\ Binary64.exact (Binary64.scaledHeight p) = Some SH
    /\ Binary64.exact (Binary64.x p) = Some X
    /\ Binary64.exact (Binary64.y p) = Some Y
    (* the proportions of the source *)
    /\ SW * h <= SH * w * ((1 + u52) * (1 + u52))
    /\ SH * w <= SW * h * ((1 + u52) * (1 + u52))
    (* the image spans the canvas on one axis *)
    /\ ((cw <= SW * ((1 + u52) * (1 + u52)) /\ Qabs X <= cw * tolerance)
        \/ (ch <= SH * ((1 + u52) * (1 + u52)) /\ Qabs Y <= ch * tolerance))
    (* no larger scale fits *)
    /\ (forall r, w * r <= cw -> h * r <= ch -> r <= R * (1 + u52)).
Proof.
  intros HCW HCH HW HH p cw ch w h.
  destruct (Binary64Rounding.contain_fit_within_tolerance canvas imgWidth
              imgHeight HCW HCH HW HH)
    as (R & SW & SH & X & Y & HR & HSW & HSH & HX & HY & CR & CSW & CSH
        & X1 & X2 & Y1 & Y2 & X3 & Y3).
  fold p in HR, HSW, HSH, HX, HY. fold cw ch w h in CR, CSW, CSH, X3, Y3.
  fold cw in X1, X2. fold ch in Y1, Y2.
  exists R, SW, SH, X, Y. do 5 (split; [assumption |]).
  assert (Pcw : 0 < cw) by (unfold cw; rewrite <- (Zlt_Qlt 0); lia).
  assert (Pch : 0 < ch) by (unfold ch; rewrite <- (Zlt_Qlt 0); lia).
  assert (Pw : 0 < w) by (unfold w; rewrite <- (Zlt_Qlt 0); lia).
  assert (Ph : 0 < h) by (unfold h; rewrite <- (Zlt_Qlt 0); lia).
  destruct CR as [CR1 CR2]. destruct CSW as [CSW1 CSW2].
  destruct CSH as [CSH1 CSH2].
  set (c := 1 + u52) in *.
  assert (Hc : c == 1 + (1 # 4503599627370496)) by reflexivity.
  clearbody c.
  assert (Pc : 1 <= c) by lra.
  assert (Hqw : w * (cw / w) == cw) by (field; lra).
  assert (Hqh : h * (ch / h) == ch) by (field; lra).
  assert (PR : 0 < R).
  { destruct (Q.min_spec (cw / w) (ch / h)) as [[_ E] | [_ E]];
      rewrite E in CR2.
    - assert (0 < cw / w) by (apply Qlt_shift_div_l; lra).
      assert (0 < R * c) by lra. nra.
    - assert (0 < ch / h) by (apply Qlt_shift_div_l; lra).
      assert (0 < R * c) by lra. nra. }
  assert (PwR : 0 < w * R) by (now apply Qmult_lt_0_compat).
  assert (PhR : 0 < h * R) by (now apply Qmult_lt_0_compat).
  (* w * R and h * R against the canvas *)
  assert (HwR : w * R <= cw * c).
  { apply Qle_trans with (w * (Qmin (cw / w) (ch / h) * c)).
    - apply Qmult_le_l; assumption.
    - apply Qle_trans with (w * (cw / w * c)).
      + apply Qmult_le_l; [assumption |].
        apply Qmult_le_compat_r; [apply Q.le_min_l | lra].
      + apply Qle_lteq. right. field. lra. }
  assert (HhR : h * R <= ch * c).
  { apply Qle_trans with (h * (Qmin (cw / w) (ch / h) * c)).
    - apply Qmult_le_l; assumption.
    - apply Qle_trans with (h * (ch / h * c)).
      + apply Qmult_le_l; [assumption |].
        apply Qmult_le_compat_r; [apply Q.le_min_r | lra].
      + apply Qle_lteq. right. field. lra. }
  split; [| split; [| split]].
  - apply Qle_trans with (w * R * c * h);
      [apply Qmult_le_compat_r; lra |].
    apply Qle_trans with (SH * c * (w * c)).
    + setoid_replace (w * R * c * h) with (h * R * (w * c)) by ring.
      apply Qmult_le_compat_r; [exact CSH2 | nra].
    + apply Qle_lteq. right. ring.
  - apply Qle_trans with (h * R * c * w);
      [apply Qmult_le_compat_r; lra |].
    apply Qle_trans with (SW * c * (h * c)).
    + setoid_replace (h * R * c * w) with (w * R * (h * c)) by ring.
      apply Qmult_le_compat_r; [exact CSW2 | nra].
    + apply Qle_lteq. right. ring.
  - apply Qabs_Qle_condition in X3. apply Qabs_Qle_condition in Y3.
    destruct (Q.min_spec (cw / w) (ch / h)) as [[_ E] | [_ E]];
      rewrite E in CR2; [left | right].
    + assert (Hcw : cw <= w * R * c).
      { rewrite <- Hqw at 1.
        setoid_replace (w * R * c) with (w * (R * c)) by ring.
        apply Qmult_le_l; assumption. }
      assert (Hspan : cw <= SW * (c * c)) by nra.
      split; [exact Hspan |].
      assert (Hsw : SW <= cw * (c * c)) by nra.
      apply Qabs_Qle_condition. unfold Binary64.tolerance in *.
      split; nra.
    + assert (Hch : ch <= h * R * c).
      { rewrite <- Hqh at 1.
        setoid_replace (h * R * c) with (h * (R * c)) by ring.
        apply Qmult_le_l; assumption. }
      assert (Hspan : ch <= SH * (c * c)) by nra.
      split; [exact Hspan |].
      assert (Hsh : SH <= ch * (c * c)) by nra.
      apply Qabs_Qle_condition. unfold Binary64.tolerance in *.
      split; nra.
  - intros r Hrw Hrh.
    apply Qle_trans with (Qmin (cw / w) (ch / h)); [| exact CR2].
    apply Q.min_glb; apply Qle_shift_div_l; try assumption;
      rewrite Qmult_comm; assumption.
Qed.

(** The theorem at 4:3 and a 1170x2532 source, where neither offset is
    zero. *)
Lemma contain_fit_is_tight_witness :
  ((0 < 1024 < 2 ^ 53)%Z /\ (0 < 768 < 2 ^ 53)%Z
   /\ (0 < 1170 < 2 ^ 53)%Z /\ (0 < 2532 < 2 ^ 53)%Z)
  /\ exists R SW SH X Y : Q,
       Binary64.exact
         (Binary64.ratio (Binary64.place (Compositor.mkCanvas 1024 768)
                            1170 2532)) = Some R
       /\ Binary64.exact
            (Binary64.scaledWidth (Binary64.place (Compositor.mkCanvas 1024 768)
                                     1170 2532)) = Some SW
       /\ Binary64.exact
            (Binary64.scaledHeight (Binary64.place (Compositor.mkCanvas 1024 768)
                                      1170 2532)) = Some SH
       /\ Binary64.exact
            (Binary64.x (Binary64.place (Compositor.mkCanvas 1024 768)
                           1170 2532)) = Some X
       /\ Binary64.exact
            (Binary64.y (Binary64.place (Compositor.mkCanvas 1024 768)
                           1170 2532)) = Some Y
       /\ SW * inject_Z 2532
          <= SH * inject_Z 1170 * ((1 + u52) * (1 + u52)).
Proof.
  split; [repeat split; reflexivity |].
  destruct (contain_fit_is_tight (Compositor.mkCanvas 1024 768) 1170 2532
              ltac:(split; reflexivity) ltac:(split; reflexivity)
              ltac:(split; reflexivity) ltac:(split; reflexivity))
    as (R & SW & SH & X & Y & HR & HSW & HSH & HX & HY & Hp & _).
  exists R, SW, SH, X, Y. repeat (split; [assumption |]). exact Hp.
Defined.

End Binary64More.

(** ** More on the compositor *)

Module CompositorMore.

Import Constants Compositor.

Local Open Scope Z_scope.

(** [Math.round] leaves an integer as it is. *)
Lemma Math_round_whole (M W : Z) :
  0 < W -> Js.Math_round (inject_Z (M * W) / inject_Z W) = M.
Proof.
  intros HW. rewrite CompositorFacts.Math_round_quotient by lia.
  symmetry. apply (Z.div_unique _ _ _ W); nia.
Qed.

(** X2.  Turning the aspect ratio on its side turns the canvas on its side:
    the canvas for [H:W] is the canvas for [W:H] with width and height
    exchanged. *)
Theorem canvas_transposes (M W H : Z) :
  0 < W -> 0 < H ->
  canvasFor M H W
  = mkCanvas (height (canvasFor M W H)) (width (canvasFor M W H)).
Proof.
  intros HW HH. unfold canvasFor.
  destruct (Z.geb_spec W H) as [Hge | Hlt]; destruct (Z.geb_spec H W) as [Hge' | Hlt'];
    cbn [width height]; try reflexivity; try lia.
  assert (W = H) by lia. subst H.
  now rewrite Math_round_whole.
Qed.

Lemma canvas_transposes_witness :
  (0 < 16 /\ 0 < 9)
  /\ canvasFor 1024 9 16
     = mkCanvas (height (canvasFor 1024 16 9)) (width (canvasFor 1024 16 9)).
Proof.
  split; [lia |]. apply (canvas_transposes 1024 16 9); lia.
Defined.

(** X3.  The shorter side of the canvas.  For [W >= H] the height is within
    half a pixel of the exact [M * H / W]; it is 0, an empty canvas, exactly
    when [M * H / W] is below one half. *)
Theorem canvas_short_side (M W H : Z) :
  0 < M -> 0 < H -> H <= W ->
  let h := height (canvasFor M W H) in
  2 * Z.abs (h * W - M * H) <= W
  /\ (h = 0 <-> 2 * (M * H) < W).
Proof.
  intros HM HH Hle h. subst h. unfold canvasFor.
  destruct (Z.geb_spec W H) as [_ | Hlt]; [| lia]. cbn [height].
  rewrite CompositorFacts.Math_round_quotient by lia.
  pose proof (Z.div_mod (2 * (M * H) + W) (2 * W) ltac:(lia)) as Hdm.
  pose proof (Z.mod_pos_bound (2 * (M * H) + W) (2 * W) ltac:(lia)) as Hmod.
  set (q := (2 * (M * H) + W) / (2 * W)) in *.
  set (r := (2 * (M * H) + W) mod (2 * W)) in *.
  split; [lia |]. split; intros Hq; nia.
Qed.

Lemma canvas_short_side_witness :
  (0 < 1024 /\ 0 < 9 /\ 9 <= 16)
  /\ 2 * Z.abs (height (canvasFor 1024 16 9) * 16 - 1024 * 9) <= 16.
Proof.
  split; [lia |]. apply (canvas_short_side 1024 16 9); lia.
Defined.

End CompositorMore.

(** ** More on the Drive session *)

Module AuthMore.

Import Auth AuthInvariant.

Local Open Scope Z_scope.

Lemma paired_available env st :
  paired env st -> clientAvailable env st = true ->
  clientAvailable env fresh = true.
Proof.
  intros [_ Hc] Hav. destruct (tokenClient st) as [cb|] eqn:E.
  - apply Hc. discriminate.
  - unfold clientAvailable in *. rewrite E in Hav. exact Hav.
Qed.

Lemma requestAccessToken_paired env st answer :
  paired env st -> paired env (snd (fst (requestAccessToken env st answer))).
Proof.
  intros Hp. destruct (clientAvailable env st) eqn:Hav.
  - pose proof (paired_available _ _ Hp Hav) as Hcfg.
    rewrite (AuthFacts.requestAccessToken_available _ _ _ Hav).
    destruct Hp as [Hpair _].
    destruct answer as [[at_ response]|]; unfold onTokenResponse;
      [destruct (Js.truthy_string (error response)) |]; cbn;
      (split; [| intros _; exact Hcfg]); try exact Hpair.
    split; discriminate.
  - destruct (AuthFacts.requestAccessToken_unavailable _ _ answer Hav) as [e ->].
    exact Hp.
Qed.

Lemma exec_paired env st op :
  paired env st -> paired env (fst (exec env st op)).
Proof.
  intros Hp. destruct op as [| answer | now answer | now |]; cbn [exec].
  - unfold initialize, paired, clientAvailable in *. cbn [tokenClient fresh].
    destruct (String.eqb (CLIENT_ID env) EmptyString); [exact Hp |].
    destruct (gisLoaded env); cbn [negb]; [| exact Hp].
    destruct (initTokenClientThrows env); [exact Hp |]. cbn.
    split; [apply Hp | reflexivity].
  - pose proof (requestAccessToken_paired env st answer Hp) as Q.
    destruct (requestAccessToken env st answer) as [[out st'] evs]. exact Q.
  - unfold getAccessToken.
    pose proof (requestAccessToken_paired env st answer Hp) as Q.
    destruct (cacheUsable st now); [destruct (accessToken st) |];
      try (destruct (requestAccessToken env st answer) as [[out st'] evs];
           exact Q).
    exact Hp.
  - exact Hp.
  - destruct Hp as [_ Hc]. split; [split; reflexivity | exact Hc].
Qed.

(** X4.  Whatever calls are made on a new service, the cached token and its
    expiry instant are both set or both unset, and the token client exists
    only if the client id is configured and Google Identity Services is
    loaded. *)
Theorem session_fields_paired (env : Env) (ops : list Op) :
  let st := fst (execAll env fresh ops) in
  (accessToken st = None <-> tokenExpiry st = None)
  /\ (tokenClient st <> None ->
      CLIENT_ID env <> EmptyString /\ gisLoaded env = true).
Proof.
  assert (Hall : forall ops st, paired env st ->
                                paired env (fst (execAll env st ops))).
  { clear ops. induction ops as [| op rest IH]; intros st Hp; cbn.
    - exact Hp.
    - pose proof (exec_paired env st op Hp) as Q.
      destruct (exec env st op) as [st1 evs1]. specialize (IH st1 Q).
      destruct (execAll env st1 rest) as [st2 evs2]. exact IH. }
  assert (H0 : paired env fresh)
    by (split; [split; reflexivity | intros H; now elim H]).
  destruct (Hall ops fresh H0) as [Hpair Hc]. cbv zeta.
  split; [exact Hpair |]. intros Hne. specialize (Hc Hne).
  unfold clientAvailable in Hc. cbn [tokenClient fresh] in Hc.
  destruct (String.eqb_spec (CLIENT_ID env) EmptyString) as [| Hid];
    [discriminate |].
  destruct (gisLoaded env); [| discriminate]. split; [exact Hid | reflexivity].
Qed.

(** X5.  Without a configured client id nothing ever happens: whatever calls
    are made on a new service, no consent prompt is shown, no token is
    stored, and every [getAccessToken] is rejected with the configuration
    message, whatever the provider would have answered. *)
Theorem unconfigured_never_prompts (env : Env) :
  CLIENT_ID env = EmptyString ->
  (forall ops, execAll env fresh ops = (fresh, []))
  /\ (forall now answer,
         getAccessToken env fresh now answer
         = (Rejected (ErrorObject "Google Client ID is not configured"),
            fresh, [])).
Proof.
  intros Hid.
  assert (Hreq : forall answer,
             requestAccessToken env fresh answer
             = (Rejected (ErrorObject "Google Client ID is not configured"),
                fresh, [])).
  { intros answer. unfold requestAccessToken, initialize. cbn [tokenClient fresh].
    rewrite Hid. reflexivity. }
  assert (Hget : forall now answer,
             getAccessToken env fresh now answer
             = (Rejected (ErrorObject "Google Client ID is not configured"),
                fresh, [])).
  { intros now answer. unfold getAccessToken. cbn. apply Hreq. }
  split; [| exact Hget].
  induction ops as [| op rest IH]; cbn; [reflexivity |].
  assert (Hop : exec env fresh op = (fresh, [])).
  { destruct op as [| answer | now answer | now |]; cbn [exec].
    - unfold initialize. rewrite Hid. reflexivity.
    - now rewrite Hreq.
    - now rewrite Hget.
    - reflexivity.
    - reflexivity. }
  rewrite Hop, IH. reflexivity.
Qed.

Lemma unconfigured_never_prompts_witness :
  CLIENT_ID (mkEnv "" true None) = EmptyString
  /\ execAll (mkEnv "" true None) fresh
       [CallInitialize; CallGetAccessToken 1000 demoAnswer;
        CallRequestAccessToken demoAnswer]
     = (fresh, []).
Proof.
  split; [reflexivity |].
  apply (unconfigured_never_prompts (mkEnv "" true None)). reflexivity.
Defined.

(** X6.  A [getAccessToken] that does not end with a token leaves the cache
    as it was: when the consent is denied, never answered, or the client
    cannot be set up, the token and the expiry stored before are still
    there, and at most one prompt was shown. *)
Theorem failed_acquisition_keeps_cache env st now answer out st' evs :
  getAccessToken env st now answer = (out, st', evs) ->
  (forall token, out <> Resolved token) ->
  accessToken st' = accessToken st
  /\ tokenExpiry st' = tokenExpiry st
  /\ (evs = [] \/ evs = [ConsentPrompt]).
Proof.
  intros Hrun Hfail.
  assert (Hreq : requestAccessToken env st answer = (out, st', evs) ->
                 accessToken st' = accessToken st
                 /\ tokenExpiry st' = tokenExpiry st
                 /\ (evs = [] \/ evs = [ConsentPrompt])).
  { destruct (clientAvailable env st) eqn:Hav.
    - rewrite (AuthFacts.requestAccessToken_available _ _ _ Hav).
      destruct answer as [[at_ response]|].
      + unfold onTokenResponse.
        destruct (Js.truthy_string (error response)); intros [= <- <- <-].
        * repeat split. now right.
        * now elim (Hfail (access_token response)).
      + intros [= <- <- <-]. repeat split. now right.
    - destruct (AuthFacts.requestAccessToken_unavailable _ _ answer Hav)
        as [e ->].
      intros [= <- <- <-]. repeat split. now left. }
  unfold getAccessToken in Hrun.
  destruct (cacheUsable st now); [| exact (Hreq Hrun)].
  destruct (accessToken st) as [cached|] eqn:Ht.
  - injection Hrun as <- <- <-. now elim (Hfail cached).
  - rewrite <- Ht. rewrite <- Ht in Hreq. exact (Hreq Hrun).
Qed.

(** The sample session an hour and a second after the token was issued, with
    a consent that is denied. *)
Lemma failed_acquisition_keeps_cache_witness :
  getAccessToken demoEnv demoSession 3603000
    (Some (3604000, mkTokenResponse (Some "access_denied"%string) "" 0))
  = (Rejected (ErrorObject "access_denied"), demoSession, [ConsentPrompt])
  /\ accessToken demoSession = Some "ya29.token"%string.
Proof.
  split; [reflexivity |].
  apply (failed_acquisition_keeps_cache demoEnv demoSession 3603000
           (Some (3604000, mkTokenResponse (Some "access_denied"%string) "" 0))
           (Rejected (ErrorObject "access_denied")) demoSession [ConsentPrompt]
           eq_refl).
  discriminate.
Defined.

(** X7.  A token that arrives with a lifetime of zero or less is never
    usable: from the instant of its arrival on, [isAuthenticated] answers
    false and every [getAccessToken] asks for a token again. *)
Theorem expired_on_arrival env st at_ response token st' evs :
  requestAccessToken env st (Some (at_, response)) = (Resolved token, st', evs) ->
  expires_in response <= 0 ->
  forall t, at_ <= t ->
    isAuthenticated st' t = false
    /\ forall answer,
         getAccessToken env st' t answer = requestAccessToken env st' answer.
Proof.
  intros Hrun Hlife t Ht.
  destruct (AuthFacts.requestAccessToken_resolved _ _ _ _ _ _ Hrun)
    as (at' & response' & [= <- <-] & _ & _ & _ & He & _).
  assert (Hc : cacheUsable st' t = false).
  { unfold cacheUsable. rewrite He.
    replace (t <? at_ + expires_in response * 1000) with false
      by (symmetry; apply Z.ltb_ge; lia).
    now rewrite andb_false_r. }
  split; [exact Hc |]. intros answer. unfold getAccessToken. now rewrite Hc.
Qed.

Lemma expired_on_arrival_witness :
  (requestAccessToken demoEnv fresh
     (Some (2000, mkTokenResponse None "ya29.short"%string 0))
   = (Resolved "ya29.short"%string,
      mkState (Some "ya29.short"%string) (Some 2000) (Some RequestCallback),
      [ConsentPrompt; TokenIssued "ya29.short" 2000])
   /\ 0 <= 0 /\ 2000 <= 2000)
  /\ isAuthenticated
       (mkState (Some "ya29.short"%string) (Some 2000) (Some RequestCallback))
       2000 = false.
Proof.
  split; [repeat split; lia |].
  apply (expired_on_arrival demoEnv fresh 2000
           (mkTokenResponse None "ya29.short"%string 0) "ya29.short"%string
           (mkState (Some "ya29.short"%string) (Some 2000) (Some RequestCallback))
           [ConsentPrompt; TokenIssued "ya29.short" 2000]
           eq_refl ltac:(cbn; lia) 2000).
  lia.
Defined.

End AuthMore.

(** ** More on the Drive calls *)

Module DriveMore.

Import Drive DriveCalls.

Local Open Scope string_scope.

(** X8.  With a valid token in the cache a listing is silent: it shows no
    prompt, leaves the session as it is, and its outcome does not depend on
    what the provider would answer. *)
Theorem valid_session_listing_is_silent
    env net st now folderId pageToken :
  (0 <= now)%Z -> Auth.tokenValid st now ->
  forall answer,
    snd (listFiles env net st now answer folderId pageToken) = []
    /\ snd (fst (listFiles env net st now answer folderId pageToken)) = st
    /\ listFiles env net st now answer folderId pageToken
       = listFiles env net st now None folderId pageToken.
Proof.
  intros Hnow Hvalid answer.
  pose proof Hvalid as (token & expiry & Ht & _).
  apply (AuthFacts.cacheUsable_spec st now Hnow) in Hvalid.
  assert (Hget : forall a, Auth.getAccessToken env st now a
                           = (Resolved token, st, [])).
  { intros a. unfold Auth.getAccessToken. rewrite Hvalid, Ht. reflexivity. }
  unfold listFiles. rewrite !Hget.
  destruct (net (listRequest folderId pageToken token)) as [response | e];
    [| repeat split].
  destruct (ok response); cbn [negb]; [| repeat split].
  destruct (json response); repeat split.
Qed.

Lemma valid_session_listing_is_silent_witness :
  ((0 <= 12000)%Z
   /\ Auth.accessToken Auth.demoSession = Some "ya29.token")
  /\ snd (listFiles Auth.demoEnv alwaysOk Auth.demoSession 12000 consentDenied
            "root" None) = [].
Proof.
  split; [split; [lia | reflexivity] |].
  apply (valid_session_listing_is_silent Auth.demoEnv alwaysOk Auth.demoSession
           12000 "root" None ltac:(lia)).
  exists "ya29.token", 3602000%Z.
  split; [reflexivity |]. split; [discriminate |]. split; [reflexivity | lia].
Defined.



(** The loop of [getBreadcrumb] only ever puts entries in front of those it
    was entered with. *)
Lemma breadcrumbLoop_front env net schedule :
  forall st currentId older evs,
    breadcrumbLoop env net schedule st currentId older evs
    = let '(walk, st', evs') :=
        breadcrumbLoop env net schedule st currentId [] [] in
      (followedBy older walk, st', (evs ++ evs')%list).
Proof.
  induction schedule as [| [now answer] later IH];
    intros st currentId older evs; cbn [breadcrumbLoop].
  - destruct (String.eqb currentId "root"); cbn; now rewrite app_nil_r.
  - destruct (String.eqb currentId "root"); [cbn; now rewrite app_nil_r |].
    destruct (Auth.getAccessToken env st now answer) as [[token st1] evs1].
    destruct token as [accessToken | e |]; try reflexivity.
    destruct (net (parentsRequest currentId accessToken)) as [response | e];
      [| reflexivity].
    destruct (negb (meta_ok response)); [reflexivity |].
    destruct (meta_json response) as [file | | e]; try reflexivity.
    destruct (parents file) as [[| parent more] |]; try reflexivity.
    rewrite (IH st1 parent (crumb file :: older) (evs ++ evs1)%list).
    rewrite (IH st1 parent [crumb file] ([] ++ evs1)%list).
    destruct (breadcrumbLoop env net later st1 parent [] []) as [[walk st2] evs2].
    cbn [app]. rewrite <- app_assoc.
    destruct walk as [entries | e |]; cbn [followedBy]; try reflexivity.
    now rewrite <- app_assoc.
Qed.

(** X10.  [getBreadcrumb] lists ancestors first.  For a file other than the
    root whose metadata arrives HTTP-ok with a first parent [parent], the
    breadcrumb is the breadcrumb of [parent] followed by the file itself;
    further parents are not looked at. *)
Theorem breadcrumb_lists_ancestors_first
    env net now answer later st fileId accessToken st1 evs1 response file
    parent more :
  fileId <> "root" ->
  Auth.getAccessToken env st now answer = (Resolved accessToken, st1, evs1) ->
  net (parentsRequest fileId accessToken) = MetaResponded response ->
  meta_ok response = true -> meta_json response = MetaJson file ->
  parents file = Some (parent :: more) ->
  getBreadcrumb env net ((now, answer) :: later) st fileId
  = let '(walk, st2, evs2) := getBreadcrumb env net later st1 parent in
    (followedBy [crumb file] walk, st2, (evs1 ++ evs2)%list).
Proof.
  intros Hne Htok Hnet Hok Hjson Hparents.
  unfold getBreadcrumb. cbn [breadcrumbLoop].
  apply String.eqb_neq in Hne. rewrite Hne, Htok, Hnet, Hok, Hjson, Hparents.
  cbn [negb app]. apply breadcrumbLoop_front.
Qed.

Lemma breadcrumb_lists_ancestors_first_witness :
  ("f2" <> "root"
   /\ Auth.getAccessToken Auth.demoEnv Auth.demoSession 12000 None
      = (Resolved "ya29.token", Auth.demoSession, []))
  /\ getBreadcrumb Auth.demoEnv twoLevels [(12000%Z, None); (12001%Z, None)]
       Auth.demoSession "f2"
     = (Resolved [plainFile "f1" "Photos" FOLDER_MIME_TYPE;
                  plainFile "f2" "beach.png" "image/png"],
        Auth.demoSession, []).
Proof.
  split; [split; [discriminate | reflexivity] |].
  apply (breadcrumb_lists_ancestors_first Auth.demoEnv twoLevels 12000%Z None
           [(12001%Z, None)] Auth.demoSession "f2" "ya29.token"
           Auth.demoSession []
           (mkMetaResponse true
              (MetaJson (mkFileMeta "f2" "beach.png" "image/png" (Some ["f1"]))))
           (mkFileMeta "f2" "beach.png" "image/png" (Some ["f1"])) "f1" []);
    try reflexivity.
  discriminate.
Defined.

(** With a valid token in the cache a turn of the loop gets the cached token
    and changes nothing. *)
Lemma cached_token env st now answer :
  (0 <= now)%Z -> Auth.tokenValid st now ->
  exists token,
    Auth.getAccessToken env st now answer = (Resolved token, st, []).
Proof.
  intros Hnow Hvalid. pose proof Hvalid as (token & expiry & Ht & _).
  apply (AuthFacts.cacheUsable_spec st now Hnow) in Hvalid.
  exists token. unfold Auth.getAccessToken. now rewrite Hvalid, Ht.
Qed.

(** X11.  [getBreadcrumb] ends, and ends quietly.  Take a network that
    answers every request, with an object as body whenever the answer is
    HTTP-ok, on which first parents lead upwards (each lies at a smaller
    depth), and a token that stays valid.  Then, given as many turns as the
    depth of the file plus one, the call resolves, with at most that many
    entries, without a prompt and without touching the session: a response
    that is not HTTP-ok just stops the loop, where the other calls throw.
    For the root it resolves to the empty list whatever the turns.  An
    HTTP-ok response with the body [null] is another matter: reading
    [file.id] throws and the call rejects. *)
Theorem breadcrumb_ends_quietly env net st (depth : string -> nat) :
  (forall request, exists response,
      net request = MetaResponded response
      /\ (meta_ok response = true ->
          exists file, meta_json response = MetaJson file)) ->
  (forall fileId token response file parent more,
      net (parentsRequest fileId token) = MetaResponded response ->
      meta_ok response = true -> meta_json response = MetaJson file ->
      parents file = Some (parent :: more) ->
      (depth parent < depth fileId)%nat) ->
  forall schedule,
    (forall now answer, In (now, answer) schedule ->
                        (0 <= now)%Z /\ Auth.tokenValid st now) ->
    getBreadcrumb env net schedule st "root" = (Resolved [], st, [])
    /\ forall fileId,
         (depth fileId < List.length schedule)%nat ->
         exists entries,
           getBreadcrumb env net schedule st fileId = (Resolved entries, st, [])
           /\ (List.length entries <= depth fileId + 1)%nat.
Proof.
  intros Hnet Hup schedule Hvalid. split.
  - unfold getBreadcrumb. now destruct schedule.
  - assert (Hloop : forall currentId older evs,
               (depth currentId < List.length schedule)%nat ->
               exists entries,
                 breadcrumbLoop env net schedule st currentId older evs
                 = (Resolved entries, st, evs)
                 /\ (List.length entries
                     <= depth currentId + 1 + List.length older)%nat).
    { induction schedule as [| [now answer] later IH];
        intros currentId older evs Hdepth; cbn [breadcrumbLoop].
      - cbn in Hdepth. lia.
      - destruct (String.eqb currentId "root");
          [exists older; split; [reflexivity | lia] |].
        destruct (Hvalid now answer (or_introl eq_refl)) as [Hnow Hv].
        destruct (cached_token env st now answer Hnow Hv) as [token ->].
        rewrite app_nil_r.
        destruct (Hnet (parentsRequest currentId token))
          as (response & Hresponse & Hbody).
        rewrite Hresponse.
        destruct (meta_ok response) eqn:Hok; cbn [negb];
          [| exists older; split; [reflexivity | lia]].
        destruct (Hbody eq_refl) as [file Hfile]. rewrite Hfile.
        assert (Hlater : forall now' answer',
                   In (now', answer') later ->
                   (0 <= now')%Z /\ Auth.tokenValid st now')
          by (intros now' answer' Hin; apply (Hvalid now' answer'); now right).
        destruct (parents file) as [[| parent more] |] eqn:Hparents;
          try (exists (crumb file :: older); split; [reflexivity | cbn; lia]).
        pose proof (Hup currentId token response file parent more
                      Hresponse Hok Hfile Hparents) as Hlt.
        cbn [List.length] in Hdepth.
        destruct (IH Hlater parent (crumb file :: older) evs ltac:(lia))
          as (entries & Hrun & Hlen).
        exists entries. split; [exact Hrun |].
        cbn [List.length] in Hlen. lia. }
    intros fileId Hdepth.
    destruct (Hloop fileId [] [] Hdepth) as (entries & Hrun & Hlen).
    exists entries. split; [exact Hrun |]. cbn [List.length] in Hlen. lia.
Qed.

Lemma eqb_prefixed (prefix a b : string) :
  String.eqb (prefix ++ a) (prefix ++ b) = String.eqb a b.
Proof.
  induction prefix as [| c prefix IH]; [reflexivity |].
  cbn. now rewrite Ascii.eqb_refl.
Qed.

(** The two-level Drive: the file [f2] lies one level below [f1]. *)
Lemma twoLevels_upwards fileId token response file parent more :
  twoLevels (parentsRequest fileId token) = MetaResponded response ->
  meta_ok response = true -> meta_json response = MetaJson file ->
  parents file = Some (parent :: more) ->
  (twoLevelsDepth parent < twoLevelsDepth fileId)%nat.
Proof.
  unfold twoLevels, parentsRequest. cbn [endpoint].
  change (DRIVE_API_BASE ++ "/files/f2")
    with (DRIVE_API_BASE ++ "/files/" ++ "f2").
  change (DRIVE_API_BASE ++ "/files/f1")
    with (DRIVE_API_BASE ++ "/files/" ++ "f1").
  rewrite !eqb_prefixed.
  destruct (String.eqb fileId "f2") eqn:E2.
  - apply String.eqb_eq in E2. subst fileId.
    intros [= <-] _ [= <-] [= <- _]. cbn. lia.
  - destruct (String.eqb fileId "f1").
    + intros [= <-] _ [= <-]. discriminate.
    + intros [= <-]. discriminate.
Qed.

Lemma breadcrumb_ends_quietly_witness :
  ((0 <= 12000)%Z /\ Auth.accessToken Auth.demoSession = Some "ya29.token"
   /\ (twoLevelsDepth "f2" < 2)%nat)
  /\ exists entries,
       getBreadcrumb Auth.demoEnv twoLevels [(12000%Z, None); (12001%Z, None)]
         Auth.demoSession "f2"
       = (Resolved entries, Auth.demoSession, [])
       /\ (List.length entries <= twoLevelsDepth "f2" + 1)%nat.
Proof.
  split; [split; [lia | split; [reflexivity | cbn; lia]] |].
  assert (Hnet : forall request, exists response,
             twoLevels request = MetaResponded response
             /\ (meta_ok response = true ->
                 exists file, meta_json response = MetaJson file)).
  { intros request. unfold twoLevels.
    repeat match goal with
           | |- context [String.eqb ?a ?b] => destruct (String.eqb a b)
           end;
      eexists; (split; [reflexivity |]); cbn; (eauto || discriminate). }
  assert (Hvalid : forall now answer,
             In (now, answer) [(12000%Z, @None (Z * Auth.TokenResponse));
                               (12001%Z, None)] ->
             (0 <= now)%Z /\ Auth.tokenValid Auth.demoSession now).
  { intros now answer Hin.
    assert (Hnow : now = 12000%Z \/ now = 12001%Z).
    { destruct Hin as [[= <- _] | [[= <- _] | []]]; [now left | now right]. }
    split; [lia |].
    exists "ya29.token", 3602000%Z.
    split; [reflexivity |]. split; [discriminate |].
    split; [reflexivity | lia]. }
  apply (proj2 (breadcrumb_ends_quietly Auth.demoEnv twoLevels Auth.demoSession
                  twoLevelsDepth Hnet twoLevels_upwards
                  [(12000%Z, None); (12001%Z, None)] Hvalid) "f2").
  cbn. lia.
Defined.

(** An HTTP-ok response with the body [null]: the call rejects, with the
    [TypeError] of reading [file.id]. *)
Example breadcrumb_null_body :
  getBreadcrumb Auth.demoEnv
    (fun _ => MetaResponded (mkMetaResponse true MetaNull))
    [(12000%Z, None)] Auth.demoSession "f2"
  = (Rejected (ErrorObject "Cannot read properties of null (reading 'id')"),
     Auth.demoSession, []).
Proof. reflexivity. Qed.

End DriveMore.

(** ** More on the folder browser *)

Module BrowserMore.

Import Drive Browser BrowserView.

Local Open Scope nat_scope.
Local Open Scope string_scope.

(** X12.  The render and the click handler agree on what can be chosen: the
    button of an entry is disabled exactly when a click on it would do
    nothing, and exactly then the entry is drawn with the document icon. *)
Theorem disabled_entries_do_nothing (file : DriveFile) (s : Session) :
  (entryDisabled file = true <-> handleFileClick file s = (s, []))
  /\ (entryDisabled file = true <-> getFileIcon file = DocumentIcon).
Proof.
  unfold entryDisabled, handleFileClick, getFileIcon, handleFolderClick, loadFiles.
  destruct (isFolder file); destruct (isImageFile file); cbn;
    repeat split; intros H; try reflexivity; try discriminate.
Qed.

(** X13.  [handleAuthentication], outcome by outcome.  When [initialize] and
    [getAccessToken] succeed, the handler marks the browser as authenticated,
    clears the error, and asks for the listing of the root, whatever the
    current folder is; breadcrumb, current folder and displayed list stay as
    they were.  When [initialize] or [getAccessToken] fails with [e], it asks
    for nothing, shows the message of [e], marks the browser as not
    authenticated and ends the loading state.  While the consent is not
    answered it asks for nothing and the browser stays loading.  This is the
    handler alone; where it turns [isAuthenticated] from false to true in an
    open browser, the effect hook runs again and asks for the listing of the
    current folder as well. *)
Theorem authentication_reloads_root env auth now answer s :
  let started := setError None (setLoading true (ui s)) in
  let authenticated :=
    mkState (files (ui s)) (currentFolderId (ui s)) (breadcrumb (ui s))
            true None true in
  let failed := fun e =>
    mkState (files (ui s)) (currentFolderId (ui s)) (breadcrumb (ui s))
            false (Some (authErrorMessage e)) false in
  (* success *)
  (forall auth1 evs1 token auth2 evs2,
      Auth.initialize env auth = (Resolved tt, auth1, evs1) ->
      Auth.getAccessToken env auth1 now answer = (Resolved token, auth2, evs2) ->
      handleAuthentication env auth now answer s
      = (mkSession authenticated (inFlight s ++ ["root"])%list, auth2,
         [ListFilesCalled "root"])
      /\ (isAuthenticated (ui s) = false ->
          effectHook true (ui s) = CallsHandleAuthentication
          /\ effectHook true authenticated
             = CallsLoadFiles (currentFolderId (ui s))))
  (* failure of either step *)
  /\ (forall e auth1 evs1,
         Auth.initialize env auth = (Rejected e, auth1, evs1) ->
         handleAuthentication env auth now answer s
         = (mkSession (failed e) (inFlight s), auth1, []))
  /\ (forall auth1 evs1 e auth2 evs2,
         Auth.initialize env auth = (Resolved tt, auth1, evs1) ->
         Auth.getAccessToken env auth1 now answer = (Rejected e, auth2, evs2) ->
         handleAuthentication env auth now answer s
         = (mkSession (failed e) (inFlight s), auth2, []))
  (* consent not answered *)
  /\ (forall auth1 evs1 auth2 evs2,
         Auth.initialize env auth = (Resolved tt, auth1, evs1) ->
         Auth.getAccessToken env auth1 now answer = (Pending, auth2, evs2) ->
         handleAuthentication env auth now answer s
         = (mkSession started (inFlight s), auth2, [])).
Proof.
  intros started authenticated failed. unfold handleAuthentication.
  split; [| split; [| split]].
  - intros auth1 evs1 token auth2 evs2 -> ->. split; [reflexivity |].
    intros Hno. unfold effectHook. rewrite Hno. split; reflexivity.
  - intros e auth1 evs1 ->. reflexivity.
  - intros auth1 evs1 e auth2 evs2 -> ->. reflexivity.
  - intros auth1 evs1 auth2 evs2 -> ->. reflexivity.
Qed.

(** After a failed listing inside Photos, a successful retry asks for the
    root while the breadcrumb still ends at Photos. *)
Example retry_inside_folder :
  let '(s', _, effects) :=
    handleAuthentication Auth.demoEnv Auth.demoSession 12000 None insidePhotos in
  effects = [ListFilesCalled "root"]
  /\ navigationState s' = ([rootItem; mkBreadcrumbItem "f1" "Photos"], "f1").
Proof. split; reflexivity. Qed.

(** Without a client id the handler ends in the error state, the browser
    showing the message of [initialize]. *)
Example authentication_unconfigured :
  handleAuthentication (Auth.mkEnv "" true None) Auth.fresh 1000 Auth.demoAnswer
    rootShown
  = (mkSession
       (mkState [photosFolder; notesDocument] "root" [rootItem] false
                (Some "Google Client ID is not configured") false)
       [],
     Auth.fresh, []).
Proof. reflexivity. Qed.

Lemma firstn_snoc {A : Type} (l : list A) (a : A) :
  l <> [] -> firstn (List.length l - 1 + 1) (l ++ [a])%list = l.
Proof.
  intros Hne.
  replace (List.length l - 1 + 1) with (List.length l + 0)
    by (destruct l; [now elim Hne | cbn; lia]).
  rewrite firstn_app_2. cbn. now rewrite app_nil_r.
Qed.

(** X14.  Going back.  In a browser that satisfies the navigation invariant,
    a click on the last breadcrumb, or a jump to any position at or beyond
    it, leaves the navigation state as it is, and entering a folder and then
    clicking the breadcrumb that was last before restores the navigation
    state from before. *)
Theorem back_restores_navigation (s : Session) :
  navigationInvariant s ->
  (forall index,
      List.length (breadcrumb (ui s)) - 1 <= index ->
      navigationState (fst (step s (BreadcrumbClick index)))
      = navigationState s)
  /\ (forall folder,
         navigationState
           (run s [FolderClick folder;
                   BreadcrumbClick (List.length (breadcrumb (ui s)) - 1)])
         = navigationState s).
Proof.
  intros (Hne & _ & Hlast).
  assert (Hsame : forall t index,
             breadcrumb (ui t) = (breadcrumb (ui s) ++ [])%list \/
             (exists a, breadcrumb (ui t) = (breadcrumb (ui s) ++ [a])%list
                        /\ index = List.length (breadcrumb (ui s)) - 1) ->
             (List.length (breadcrumb (ui s)) - 1 <= index) ->
             navigationState (fst (step t (BreadcrumbClick index)))
             = navigationState s).
  { intros t index Hpath Hidx. cbn [step]. unfold handleBreadcrumbClick.
    assert (Hcut : firstn (index + 1) (breadcrumb (ui t)) = breadcrumb (ui s)).
    { destruct Hpath as [-> | (a & -> & ->)].
      - rewrite app_nil_r. apply firstn_all2. lia.
      - now apply firstn_snoc. }
    rewrite Hcut.
    destruct (nth_error (breadcrumb (ui s))
                        (List.length (breadcrumb (ui s)) - 1))
      as [target|] eqn:Ht; [| discriminate Hlast].
    injection Hlast as Hid. unfold navigationState. cbn. now rewrite Hid. }
  split.
  - intros index Hidx. apply Hsame; [left; now rewrite app_nil_r | exact Hidx].
  - intros folder. cbn [run]. apply Hsame; [| lia].
    right. eexists. split; reflexivity.
Qed.

Lemma back_restores_navigation_witness :
  navigationInvariant rootShown
  /\ navigationState
       (run rootShown [FolderClick photosFolder; BreadcrumbClick 0])
     = navigationState rootShown.
Proof.
  split; [repeat split; discriminate |].
  apply (proj2 (back_restores_navigation rootShown
                  (BrowserFacts.run_invariant _ _ BrowserFacts.initial_invariant))
               photosFolder).
Defined.

End BrowserMore.

(** ** Data URLs and the generative service *)

Module PartsFacts.

Import FileUtils Gemini.

Local Open Scope string_scope.

Lemma append_assoc (a b c : string) : (a ++ b) ++ c = a ++ (b ++ c).
Proof. induction a as [| ch a IH]; cbn; [reflexivity | now rewrite IH]. Qed.

Lemma append_empty (a : string) : a ++ "" = a.
Proof. induction a as [| ch a IH]; cbn; [reflexivity | now rewrite IH]. Qed.

(** Splitting at commas a string that starts with a comma-free piece. *)
Lemma split_from_piece (piece : string) : forall acc rest,
  commaFree piece = true ->
  Js.split_from ","%char acc (piece ++ String ","%char rest)
  = (acc ++ piece) :: Js.split_from ","%char "" rest.
Proof.
  induction piece as [| ch piece IH]; intros acc rest Hfree; cbn.
  - now rewrite append_empty.
  - cbn in Hfree. apply andb_true_iff in Hfree as [Hch Hpiece].
    apply negb_true_iff in Hch. rewrite Hch, IH by exact Hpiece.
    now rewrite append_assoc.
Qed.

Lemma split_from_whole (piece : string) : forall acc,
  commaFree piece = true ->
  Js.split_from ","%char acc piece = [acc ++ piece].
Proof.
  induction piece as [| ch piece IH]; intros acc Hfree; cbn.
  - now rewrite append_empty.
  - cbn in Hfree. apply andb_true_iff in Hfree as [Hch Hpiece].
    apply negb_true_iff in Hch. rewrite Hch, IH by exact Hpiece.
    now rewrite append_assoc.
Qed.

(** X15.  The data URL round trip.  What [split(',')[1]] takes out of a data
    URL is its payload: for a comma-free header and a comma-free payload (a
    base64 text), the part after the first comma of [header,payload] is the
    payload, so the image [handleGenerateClick] stores as
    [data:image/png;base64,<b64>] gives [<b64>] back, and
    [fileToGenerativePart] resolves to the payload with the type of the
    file.  A string without comma has no such part ([undefined]). *)
Theorem data_url_round_trip (header payload : string) :
  commaFree header = true -> commaFree payload = true ->
  afterComma (header ++ "," ++ payload) = Some payload
  /\ afterComma (pngDataUrl payload) = Some payload
  /\ (forall fileType,
         fileToGenerativePart fileType (Some (header ++ "," ++ payload))
         = Resolved (mkPart (Some (mkInlineData (Some payload) fileType)) None))
  /\ afterComma payload = None.
Proof.
  intros Hh Hp.
  assert (Hurl : forall h, commaFree h = true ->
                           afterComma (h ++ "," ++ payload) = Some payload).
  { intros h Hfree. unfold afterComma, Js.split.
    change (h ++ "," ++ payload) with (h ++ String ","%char payload).
    rewrite split_from_piece by exact Hfree.
    rewrite split_from_whole by exact Hp. reflexivity. }
  split; [now apply Hurl |]. split; [| split].
  - unfold pngDataUrl.
    change ("data:image/png;base64," ++ payload)
      with ("data:image/png;base64" ++ "," ++ payload).
    now apply Hurl.
  - intros fileType. unfold fileToGenerativePart. now rewrite Hurl.
  - unfold afterComma, Js.split. now rewrite split_from_whole.
Qed.

Lemma data_url_round_trip_witness :
  (commaFree "data:image/jpeg;base64" = true /\ commaFree "aGVsbG8=" = true)
  /\ afterComma ("data:image/jpeg;base64" ++ "," ++ "aGVsbG8=")
     = Some "aGVsbG8=".
Proof.
  split; [split; reflexivity |].
  apply (data_url_round_trip "data:image/jpeg;base64" "aGVsbG8="); reflexivity.
Defined.

(** A payload with a comma in it is cut at that comma. *)
Example payload_cut_at_comma :
  afterComma (pngDataUrl "abc,def") = Some "abc".
Proof. reflexivity. Qed.

(** X16.  [expandImage] returns the first image of the response.  Text
    parts in front of it are skipped and whatever follows is ignored; the
    call fails with "No image was generated in the response." exactly when
    no part of the response carries inline data. *)
Theorem expandImage_first_image (parts : list Part) :
  (expandImage (Resolved (Parts parts))
   = Rejected (ErrorObject "No image was generated in the response.")
   <-> forall part, In part parts -> inlineData part = None)
  /\ (forall before inline caption after,
         parts = (before ++ mkPart (Some inline) caption :: after)%list ->
         (forall part, In part before -> inlineData part = None) ->
         expandImage (Resolved (Parts parts)) = Resolved (data inline)).
Proof.
  unfold expandImage. split.
  - induction parts as [| part rest IH]; cbn.
    + split; [intros _ part [] | reflexivity].
    + destruct (inlineData part) as [inline|] eqn:Hi.
      * split; [discriminate |]. intros Hall.
        specialize (Hall part (or_introl eq_refl)). congruence.
      * rewrite IH. split.
        -- intros Hall p [<- | Hin]; [exact Hi | now apply Hall].
        -- intros Hall p Hin. apply Hall. now right.
  - intros before inline caption after -> Hbefore.
    induction before as [| part before IH]; cbn.
    + reflexivity.
    + rewrite (Hbefore part (or_introl eq_refl)).
      apply IH. intros p Hin. apply Hbefore. now right.
Qed.

End PartsFacts.

(** ** The application state *)

Module AppFacts.

Import Constants App.

Local Open Scope string_scope.

Lemma In_removeAt {A : Type} (a : A) (l : list A) : forall k,
  In a (removeAt k l) -> In a l.
Proof.
  induction l as [| b l IH]; intros k; [now destruct k |].
  destruct k as [| k]; cbn; [now right |].
  intros [-> | Hin]; [now left | right; now apply (IH k)].
Qed.

(** Every ratio of the table sizes a canvas of 1024 by at least 576. *)
Lemma table_canvas (a : AspectRatio) :
  In a ASPECT_RATIOS ->
  exists targetW targetH,
    Compositor.targetTerms a = Some (targetW, targetH)
    /\ (0 < targetW)%Z /\ (0 < targetH)%Z
    /\ let c := Compositor.canvasFor Compositor.MAX_DIMENSION targetW targetH in
       Z.max (Compositor.width c) (Compositor.height c) = 1024%Z
       /\ (576 <= Z.min (Compositor.width c) (Compositor.height c))%Z.
Proof.
  intros Hin. cbn in Hin.
  repeat (destruct Hin as [<- | Hin];
          [eexists; eexists; split; [reflexivity |]; vm_compute;
           repeat split; discriminate |]).
  destruct Hin.
Qed.

(** X17.  The aspect-ratio select.  Whatever value the select reports, the
    ratio stored is one of the table, the one with that value when there is
    one and the first one otherwise; and it sizes a canvas whose longer side
    is 1024 and whose shorter side is at least 576. *)
Theorem chosen_ratio_sizes_canvas (v : string) :
  exists a targetW targetH,
    chooseAspectRatio v = Some a
    /\ In a ASPECT_RATIOS
    /\ (In v (map value ASPECT_RATIOS) -> value a = v)
    /\ (~ In v (map value ASPECT_RATIOS) -> Some a = hd_error ASPECT_RATIOS)
    /\ Compositor.targetTerms a = Some (targetW, targetH)
    /\ let c := Compositor.canvasFor Compositor.MAX_DIMENSION targetW targetH in
       Z.max (Compositor.width c) (Compositor.height c) = 1024%Z
       /\ (576 <= Z.min (Compositor.width c) (Compositor.height c))%Z.
Proof.
  unfold chooseAspectRatio.
  destruct (find (fun ar => String.eqb (value ar) v) ASPECT_RATIOS)
    as [a|] eqn:Hfind.
  - apply find_some in Hfind as [Hin Heq]. apply String.eqb_eq in Heq.
    destruct (table_canvas a Hin) as (W & H & Ht & _ & _ & Hc).
    cbv zeta in Hc. destruct Hc as [Hmax Hmin].
    exists a, W, H. cbv zeta. repeat split; auto.
    intros Hnot. elim Hnot. rewrite <- Heq. now apply in_map.
  - assert (Hin : In (mkAspectRatio "Square (1:1)" "1:1") ASPECT_RATIOS)
      by (now left).
    destruct (table_canvas _ Hin) as (W & H & Ht & _ & _ & Hc).
    cbv zeta in Hc. destruct Hc as [Hmax Hmin].
    exists (mkAspectRatio "Square (1:1)" "1:1"), W, H. cbv zeta.
    repeat split; auto.
    intros Hv. apply in_map_iff in Hv as (a & Ha & Hina).
    pose proof (find_none _ _ Hfind a Hina) as Hno. cbn in Hno.
    rewrite Ha, String.eqb_refl in Hno. discriminate.
Qed.

Lemma chooseAspectRatio_in_table (v : string) :
  exists a, chooseAspectRatio v = Some a /\ In a ASPECT_RATIOS.
Proof.
  unfold chooseAspectRatio.
  destruct (find (fun ar => String.eqb (value ar) v) ASPECT_RATIOS)
    as [a|] eqn:Hfind.
  - apply find_some in Hfind as [Hin _]. now exists a.
  - eexists. split; [reflexivity | now left].
Qed.

Lemma initial_consistent : consistent initial.
Proof.
  unfold consistent. cbn.
  split; [reflexivity |].
  split; [eexists; split; [reflexivity | now left] |].
  split; [reflexivity |].
  split; [intros [H | H]; discriminate |].
  split; [discriminate |]. split; [discriminate |].
  intros job [[] | []].
Qed.

Ltac settle_consistent :=
  unfold consistent; cbn;
  repeat match goal with |- _ /\ _ => split end;
  try reflexivity; try assumption; try discriminate;
  try (intros [? | ?]; discriminate);
  try (intros _; discriminate);
  try (intros _; now auto 6);
  try (eexists; split; [reflexivity | assumption]);
  try (eexists; split; [reflexivity | now left]).

Lemma step_consistent (s : Session) (e : Event) :
  consistent s -> consistent (fst (step s e)).
Proof.
  intros Hs. pose proof Hs as (Hprev & Hratio & Hidle & Hfile & Hdone & Herr & Hjobs).
  destruct s as [u ds ls es]. cbn [ui describes loads expands] in *.
  destruct u as [file0 preview prompt ratio image st msg]. cbn in *.
  subst preview.
  destruct e as [file | text | v | ctx | | k description | k size | k imageB64];
    cbn [step ui describes loads expands appState].
  - (* ChooseFile *)
    destruct st; destruct file as [f|]; cbn [fst]; try exact Hs.
    settle_consistent.
  - (* EditPrompt *)
    destruct st; cbn [fst defaultView andb negb appState]; try exact Hs;
      settle_consistent.
  - (* SelectRatio *)
    destruct st; cbn [fst defaultView appState]; try exact Hs;
      settle_consistent; apply chooseAspectRatio_in_table.
  - (* ClickGenerate *)
    destruct Hratio as (a & -> & Hina).
    destruct (table_canvas a) as (W & H & Ht & _ & _ & Hc);
      [exact Hina |]. cbv zeta in Hc.
    assert (Hclick :
              (st = ready \/ st = done) -> String.eqb prompt "" = false ->
              consistent
                (handleGenerateClick ctx
                   (mkSession (mkState file0 file0 prompt (Some a) image st msg)
                              ds ls es))).
    { intros Hst Hp. unfold handleGenerateClick.
      cbn [ui originalImagePreview generatedPrompt aspectRatio describes loads
           expands].
      rewrite Hp. destruct file0 as [f|]; [destruct ctx |];
        try rewrite Ht; settle_consistent.
      intros job [Hin | Hin]; [| now apply Hjobs; right].
      apply in_app_or in Hin as [Hin | [<- | []]]; [now apply Hjobs; left |].
      cbn. split; [now apply String.eqb_neq |].
      eexists. split; [reflexivity | exact Hc]. }
    destruct st; cbn [fst defaultView generateDisabled andb negb appState
                      generatedPrompt];
      try exact Hs;
      (destruct (String.eqb prompt "") eqn:Hp; cbn [negb fst];
       [exact Hs | apply Hclick; auto]).
  - (* ClickStartOver *)
    destruct st; cbn [fst]; try exact Hs; settle_consistent.
  - (* DescribeSettled *)
    destruct (nth_error ds k); cbn [fst]; [| exact Hs].
    destruct description; settle_consistent.
  - (* ImageSettled *)
    destruct (nth_error ls k) as [job|] eqn:Hk; cbn [fst]; [| exact Hs].
    apply nth_error_In in Hk.
    destruct size as [[w h]|]; cbn [fst]; settle_consistent.
    + intros job0 [Hin | Hin]; [apply Hjobs; eauto using In_removeAt |].
      apply in_app_or in Hin as [Hin | [<- | []]]; apply Hjobs; auto.
    + intros job0 [Hin | Hin]; apply Hjobs; eauto using In_removeAt.
  - (* ExpandSettled *)
    destruct (nth_error es k) as [job|] eqn:Hk; cbn [fst]; [| exact Hs].
    destruct imageB64 as [b64|]; cbn [fst]; settle_consistent;
      intros job0 [Hin | Hin]; apply Hjobs; eauto using In_removeAt.
Qed.


Lemma run_consistent (events : list Event) : forall s,
  consistent s -> consistent (fst (run s events)).
Proof.
  induction events as [| e rest IH]; intros s Hs; cbn [run].
  - exact Hs.
  - pose proof (step_consistent s e Hs) as H1.
    destruct (step s e) as [s1 effects1]. specialize (IH s1 H1).
    destruct (run s1 rest) as [s2 effects2]. exact IH.
Qed.

(** X18.  What the application state always satisfies, whatever the user
    does and in whatever order descriptions, image loads and expansions
    settle: the preview is the preview of the chosen file; the aspect ratio
    is one of the table; in the state [idle] every cell has its initial
    value; in the states [describing] and [generating] a file is chosen; in
    the state [done] there is a generated image; in the state [error] the
    message is one of the three messages of the handlers; and every
    expansion under way was started with a non-empty prompt and a canvas of
    1024 by at least 576. *)
Theorem app_stays_consistent (events : list Event) :
  consistent (fst (run initial events)).
Proof. apply run_consistent, initial_consistent. Qed.




(** X20.  A description that arrives late is still applied.  When the user
    starts over while a description is under way, its later arrival puts the
    description in the prompt and moves the application to [ready] with no
    image chosen; a click on the expand button then ends in the error state
    with "A prompt and an original image are required.". *)
Theorem late_description_is_applied
    (s : Session) (k : nat) (file : File) (description : string) :
  nth_error (describes s) k = Some file ->
  appState (ui s) <> idle ->
  description <> "" ->
  let restarted := fst (step s ClickStartOver) in
  let arrived := fst (step restarted (DescribeSettled k (Some description))) in
  ui restarted = initialState
  /\ ui arrived = setAppState ready (setPrompt description initialState)
  /\ originalFile (ui arrived) = None
  /\ forall ctx,
       ui (fst (step arrived (ClickGenerate ctx)))
       = setAppState error (setErrorMessage requiredMessage (ui arrived)).
Proof.
  intros Hk Hst Hd restarted arrived.
  assert (Hr : restarted = mkSession initialState (describes s) (loads s)
                                     (expands s)).
  { subst restarted. cbn [step].
    destruct (appState (ui s)); try reflexivity. now elim Hst. }
  assert (Ha : arrived
               = mkSession (setAppState ready (setPrompt description initialState))
                           (removeAt k (describes s)) (loads s) (expands s)).
  { subst arrived. rewrite Hr. cbn [step describes]. rewrite Hk. reflexivity. }
  rewrite Hr, Ha. cbn [ui]. repeat split.
  intros ctx. cbn [step ui]. unfold defaultView, generateDisabled.
  cbn [appState setAppState setPrompt generatedPrompt andb].
  apply String.eqb_neq in Hd. rewrite Hd. reflexivity.
Qed.

Lemma late_description_is_applied_witness :
  (nth_error
     (describes (fst (run initial [ChooseFile (Some sampleFile)]))) 0
   = Some sampleFile
   /\ appState (ui (fst (run initial [ChooseFile (Some sampleFile)]))) <> idle)
  /\ ui (fst (step (fst (step (fst (run initial [ChooseFile (Some sampleFile)]))
                              ClickStartOver))
                   (DescribeSettled 0 (Some "a beach"))))
     = setAppState ready (setPrompt "a beach" initialState).
Proof.
  split; [split; [reflexivity | discriminate] |].
  apply (late_description_is_applied
           (fst (run initial [ChooseFile (Some sampleFile)])) 0 sampleFile
           "a beach" eq_refl ltac:(discriminate) ltac:(discriminate)).
Defined.

End AppFacts.

(** ** File sizes *)

Module FormatSizeFacts.

Import FormatSize.

Local Open Scope Z_scope.

Lemma digit_of_digitChar (d : Z) :
  0 <= d <= 9 -> Js.digit (digitChar d) = Some d.
Proof.
  intros Hd.
  assert (Hcases : d = 0 \/ d = 1 \/ d = 2 \/ d = 3 \/ d = 4 \/ d = 5
                   \/ d = 6 \/ d = 7 \/ d = 8 \/ d = 9) by lia.
  repeat (destruct Hcases as [-> | Hcases]; [reflexivity |]).
  subst d. reflexivity.
Qed.

(** Reading a numeral that [decimalFrom] wrote continues with the number
    written. *)
Lemma read_decimalFrom (fuel : nat) : forall n rest a,
  0 <= n < 10 ^ Z.of_nat fuel -> (0 < fuel)%nat ->
  exists k, 0 <= k
            /\ Js.digits_from a (decimalFrom fuel n rest)
               = Js.digits_from (a * 10 ^ k + n) rest.
Proof.
  induction fuel as [| fuel IH]; intros n rest a Hn Hfuel; [lia |].
  cbn [decimalFrom].
  assert (Hd : 0 <= n mod 10 <= 9) by (pose proof (Z.mod_pos_bound n 10); lia).
  destruct (Z.ltb_spec n 10) as [Hsmall | Hbig].
  - exists 1. split; [lia |]. cbn [Js.digits_from].
    rewrite digit_of_digitChar by exact Hd.
    rewrite Z.mod_small by lia. f_equal. lia.
  - assert (Hfuel' : (0 < fuel)%nat).
    { destruct fuel; [| lia]. cbn in Hn. lia. }
    assert (Hq : 0 <= n / 10 < 10 ^ Z.of_nat fuel).
    { split; [apply Z.div_pos; lia |].
      apply Z.div_lt_upper_bound; [lia |].
      replace (10 * 10 ^ Z.of_nat fuel) with (10 ^ Z.of_nat (S fuel)); [lia |].
      rewrite Nat2Z.inj_succ, Z.pow_succ_r by lia. reflexivity. }
    destruct (IH (n / 10) (String (digitChar (n mod 10)) rest) a Hq Hfuel')
      as (k & Hk & ->).
    exists (k + 1). split; [lia |]. cbn [Js.digits_from].
    rewrite digit_of_digitChar by exact Hd. f_equal.
    rewrite Z.pow_add_r, Z.pow_1_r by lia.
    pose proof (Z.div_mod n 10 ltac:(lia)). lia.
Qed.

Lemma decimalFrom_nonempty (fuel : nat) : forall n rest,
  (0 < fuel)%nat -> decimalFrom fuel n rest <> EmptyString.
Proof.
  induction fuel as [| fuel IH]; intros n rest Hfuel; [lia |].
  cbn [decimalFrom]. destruct (n <? 10); [discriminate |].
  destruct fuel as [| fuel']; [cbn; discriminate |]. apply IH. lia.
Qed.

Lemma enough_digits (n : Z) :
  0 <= n -> n < 10 ^ Z.of_nat (S (Z.to_nat (Z.log2 n))).
Proof.
  intros Hn. rewrite Nat2Z.inj_succ, Z2Nat.id by apply Z.log2_nonneg.
  destruct (Z.eq_dec n 0) as [-> | Hpos]; [reflexivity |].
  pose proof (Z.log2_spec n ltac:(lia)) as [_ Hup].
  pose proof (Z.log2_nonneg n) as Hlog.
  eapply Z.lt_le_trans; [exact Hup |].
  apply Z.pow_le_mono_l. lia.
Qed.

(** Writing a number and reading it back. *)
Lemma parseInt_decimal (n : Z) :
  0 <= n < 2 ^ 53 -> parseInt (decimal n) = Some n.
Proof.
  intros Hn. unfold parseInt, decimal.
  destruct (read_decimalFrom (S (Z.to_nat (Z.log2 n))) n EmptyString 0)
    as (k & _ & Hread); [split; [lia | apply enough_digits; lia] | lia |].
  pose proof (decimalFrom_nonempty (S (Z.to_nat (Z.log2 n))) n EmptyString
                ltac:(lia)) as Hne.
  destruct (decimalFrom (S (Z.to_nat (Z.log2 n))) n EmptyString) as [| c s];
    [now elim Hne |].
  rewrite Hread. cbn [Js.digits_from]. rewrite Z.mul_0_l, Z.add_0_l.
  destruct (Z.ltb_spec n (2 ^ 53)); [reflexivity | lia].
Qed.

Lemma decimal_truthy (n : Z) : Js.truthy_string (Some (decimal n)) = true.
Proof.
  unfold decimal. cbn [Js.truthy_string].
  pose proof (decimalFrom_nonempty (S (Z.to_nat (Z.log2 n))) n EmptyString
                ltac:(lia)) as Hne.
  destruct (String.eqb_spec (decimalFrom (S (Z.to_nat (Z.log2 n))) n EmptyString)
                            EmptyString); [contradiction | reflexivity].
Qed.

(** The tenths [toFixed(1)] shows for [n / unit]. *)
Lemma tenths_of_quotient (n unit : Z) :
  0 < unit ->
  Js.Math_round (inject_Z n / inject_Z unit * 10)
  = (20 * n + unit) / (2 * unit).
Proof.
  intros Hu.
  assert (E : (inject_Z n / inject_Z unit * 10
               == inject_Z (10 * n) / inject_Z unit)%Q).
  { rewrite inject_Z_mult. field. intros H0.
    assert (Hz : (0 < inject_Z unit)%Q) by (rewrite <- (Zlt_Qlt 0); exact Hu).
    rewrite H0 in Hz. now apply Qlt_irrefl in Hz. }
  unfold Js.Math_round. rewrite E.
  change (Qfloor (inject_Z (10 * n) / inject_Z unit + (1 # 2)))
    with (Js.Math_round (inject_Z (10 * n) / inject_Z unit)).
  rewrite CompositorFacts.Math_round_quotient by exact Hu.
  f_equal. lia.
Qed.

(** X21.  How a size is displayed.  For a size of [n] bytes given as its
    decimal numeral: below 1024 it is shown as [n B]; from 1024 up to 1048575
    it is shown in KB with one decimal, the tenths nearest to [n / 1024], a
    figure between 1.0 and 1024.0; and the top of each tier does not roll
    over to the next unit: the sizes from 1048525 to 1048575 are shown as
    [1024.0 KB], those from 1073689396 up to one byte below 2^30 as
    [1024.0 MB].  A missing or empty size is shown as the empty string. *)
Theorem file_size_display (n : Z) :
  0 <= n < 2 ^ 53 ->
  let shown := formatFileSize (Some (decimal n)) in
  (n < 1024 -> shown = Some (decimal n ++ " B")%string)
  /\ (1024 <= n < 1048576 ->
      exists tenths,
        10 <= tenths <= 10240
        /\ 2 * Z.abs (1024 * tenths - 10 * n) <= 1024
        /\ shown = Some (decimal (tenths / 10) ++ "." ++ decimal (tenths mod 10)
                         ++ " KB")%string)
  /\ (1048525 <= n < 1048576 -> shown = Some "1024.0 KB"%string)
  /\ (1073689396 <= n < 1073741824 -> shown = Some "1024.0 MB"%string)
  /\ formatFileSize None = Some EmptyString
  /\ formatFileSize (Some EmptyString) = Some EmptyString.
Proof.
  intros Hn shown.
  assert (Hshown : shown
                   = Some (if n <? 1024
                           then (decimal n ++ " B")%string
                           else if n <? 1024 * 1024
                           then (toFixed1 (inject_Z n / 1024) ++ " KB")%string
                           else if n <? 1024 * 1024 * 1024
                           then (toFixed1 (inject_Z n / (1024 * 1024))
                                 ++ " MB")%string
                           else (toFixed1 (inject_Z n / (1024 * 1024 * 1024))
                                 ++ " GB")%string)).
  { subst shown. unfold formatFileSize.
    rewrite decimal_truthy, parseInt_decimal by exact Hn. reflexivity. }
  assert (Hkb : toFixed1 (inject_Z n / 1024)
                = (decimal ((20 * n + 1024) / 2048 / 10) ++ "."
                   ++ decimal (((20 * n + 1024) / 2048) mod 10))%string).
  { unfold toFixed1.
    change (inject_Z n / 1024 * 10)%Q
      with (inject_Z n / inject_Z 1024 * 10)%Q.
    rewrite tenths_of_quotient by lia. reflexivity. }
  assert (Hmb : toFixed1 (inject_Z n / (1024 * 1024))
                = (decimal ((20 * n + 1048576) / 2097152 / 10) ++ "."
                   ++ decimal (((20 * n + 1048576) / 2097152) mod 10))%string).
  { unfold toFixed1.
    change (inject_Z n / (1024 * 1024) * 10)%Q
      with (inject_Z n / inject_Z 1048576 * 10)%Q.
    rewrite tenths_of_quotient by lia. reflexivity. }
  rewrite Hshown. repeat split.
  - intros Hlt. destruct (Z.ltb_spec n 1024); [reflexivity | lia].
  - intros [Hlo Hhi].
    destruct (Z.ltb_spec n 1024); [lia |].
    destruct (Z.ltb_spec n (1024 * 1024)); [| lia].
    exists ((20 * n + 1024) / 2048).
    pose proof (Z.div_mod (20 * n + 1024) 2048 ltac:(lia)) as Hdm.
    pose proof (Z.mod_pos_bound (20 * n + 1024) 2048 ltac:(lia)) as Hmod.
    rewrite Hkb. repeat split; try lia.
    now rewrite !PartsFacts.append_assoc.
  - intros [Hlo Hhi].
    destruct (Z.ltb_spec n 1024); [lia |].
    destruct (Z.ltb_spec n (1024 * 1024)); [| lia].
    rewrite Hkb.
    replace ((20 * n + 1024) / 2048) with 10240
      by (apply (Z.div_unique _ _ _ (20 * n + 1024 - 2048 * 10240)); lia).
    reflexivity.
  - intros [Hlo Hhi].
    destruct (Z.ltb_spec n 1024); [lia |].
    destruct (Z.ltb_spec n (1024 * 1024)); [lia |].
    destruct (Z.ltb_spec n (1024 * 1024 * 1024)); [| lia].
    rewrite Hmb.
    replace ((20 * n + 1048576) / 2097152) with 10240
      by (apply (Z.div_unique _ _ _ (20 * n + 1048576 - 2097152 * 10240)); lia).
    reflexivity.
Qed.

Lemma file_size_display_witness :
  0 <= 1048575 < 2 ^ 53
  /\ formatFileSize (Some (decimal 1048575)) = Some "1024.0 KB"%string.
Proof.
  split; [lia |].
  apply (file_size_display 1048575); lia.
Defined.

End FormatSizeFacts.
